(** * chromatic-e2e: the resource archive watcher and the DOM snapshot rewriter

    A shallow embedding of
      - [src/resource-archive/index.ts]  (class [Watcher])
      - [src/write-archive/dom-snapshot.ts] (class [DOMSnapshot])
    together with the fragment of the JavaScript runtime both rely on
    (regular expressions, [String.prototype.replace], promises that settle
    on a single-threaded event loop).

    Strings are Rocq strings: a character stands for one code unit.  Every
    test the two source files perform on a character compares it with an
    ASCII character, so the width of a code unit plays no role. *)

From Stdlib Require Import ZArith Ascii String List Lia.
From stdpp Require Import base option list strings gmap.

Set Warnings "-register-all".

Open Scope string_scope.
Open Scope list_scope.

(** ** The fragment of ECMAScript regular expressions used by the sources

    Two regular expression literals occur in the sources: the method test
    of [Watcher.requestPaused] and [CSS_URL_REGEX] of the snapshot
    rewriter.  The matcher below is the backtracking matcher of the language
    specification, written with continuations, for the constructs these two
    literals need. *)
Module RegExp.

Inductive re : Type :=
| Chr (c : ascii)                    (* a pattern character *)
| Cls (negated : bool) (cs : list ascii)  (* [...] and [^...] *)
| Cat (a b : re)                     (* concatenation *)
| Opt (a : re)                       (* a?  (greedy) *)
| Star (a : re)                      (* a*  (greedy) *)
| Grp (n : nat) (a : re)             (* the n-th capturing group *)
| NotAhead (a : re)                  (* (?!a) *)
| Emp.                               (* the empty pattern *)

(** A sequence of pattern items, and a literal word. *)
Fixpoint seq (rs : list re) : re :=
  match rs with
  | [] => Emp
  | [r] => r
  | r :: rs' => Cat r (seq rs')
  end.

Definition word (s : string) : re := seq (List.map Chr (list_ascii_of_string s)).

(** [Canonicalize] of the specification, restricted to what a pattern of
    ASCII characters can observe: under [ignoreCase] the letters a-z are
    compared through their upper-case forms, and no character outside
    ASCII canonicalizes to an ASCII one. *)
Definition canonicalize (ignoreCase : bool) (c : ascii) : ascii :=
  if ignoreCase then
    let n := nat_of_ascii c in
    if (97 <=? n)%nat && (n <=? 122)%nat then ascii_of_nat (n - 32) else c
  else c.

Definition char_eq (ignoreCase : bool) (a b : ascii) : bool :=
  Ascii.eqb (canonicalize ignoreCase a) (canonicalize ignoreCase b).

Definition in_class (ignoreCase : bool) (cs : list ascii) (c : ascii) : bool :=
  existsb (char_eq ignoreCase c) cs.

(** Captures: the text of each group that took part in the match. *)
Definition captures := list (option (list ascii)).

Fixpoint set_capture (n : nat) (v : list ascii) (caps : captures) : captures :=
  match n, caps with
  | O, [] => [Some v]
  | O, _ :: caps' => Some v :: caps'
  | S n', [] => None :: set_capture n' v []
  | S n', c :: caps' => c :: set_capture n' v caps'
  end.

(** A continuation receives the rest of the input and the captures. *)
Definition cont (T : Type) := list ascii -> captures -> option T.

Section Matcher.
Variable ignoreCase : bool.

(** Greedy iteration.  An iteration that consumes nothing is rejected,
    as in the specification, so [fuel] bounded by the input length is
    never exhausted. *)
Fixpoint star {T} (body : list ascii -> captures -> cont T -> option T)
         (fuel : nat) (x : list ascii) (caps : captures) (k : cont T) : option T :=
  match fuel with
  | O => k x caps
  | S fuel' =>
      match body x caps
              (fun y caps' =>
                 if (length y <? length x)%nat
                 then star body fuel' y caps' k
                 else None) with
      | Some r => Some r
      | None => k x caps
      end
  end.

Fixpoint m {T} (r : re) (x : list ascii) (caps : captures) (k : cont T) : option T :=
  match r with
  | Chr c =>
      match x with
      | d :: x' => if char_eq ignoreCase c d then k x' caps else None
      | [] => None
      end
  | Cls negated cs =>
      match x with
      | d :: x' =>
          if xorb negated (in_class ignoreCase cs d) then k x' caps else None
      | [] => None
      end
  | Cat a b => m a x caps (fun y caps' => m b y caps' k)
  | Opt a =>
      match m a x caps k with
      | Some r => Some r
      | None => k x caps
      end
  | Star a => star (m a) (length x) x caps k
  | Grp n a =>
      m a x caps
        (fun y caps' =>
           k y (set_capture n (take (length x - length y) x) caps'))
  | NotAhead a =>
      match m a x caps (fun _ _ => Some tt) with
      | Some _ => None
      | None => k x caps
      end
  | Emp => k x caps
  end.
End Matcher.

(** The result of a successful match at the start of [x]: the matched
    text, the captures, and what follows the match. *)
Record result := { matched : list ascii; groups : captures; rest : list ascii }.

Definition exec_at (ignoreCase : bool) (r : re) (x : list ascii) : option result :=
  m ignoreCase r x []
    (fun y caps =>
       Some {| matched := take (length x - length y) x; groups := caps; rest := y |}).

(** [RegExp.prototype.test] / a non-null [String.prototype.match] for a
    regular expression without the global flag: is there a position at
    which the pattern matches? *)
Fixpoint test_from (ignoreCase : bool) (r : re) (x : list ascii) : bool :=
  match exec_at ignoreCase r x with
  | Some _ => true
  | None =>
      match x with
      | [] => false
      | _ :: x' => test_from ignoreCase r x'
      end
  end.

Definition test (ignoreCase : bool) (r : re) (s : string) : bool :=
  test_from ignoreCase r (list_ascii_of_string s).

(** [String.prototype.replace] with a global regular expression and a
    replacer function.  The scan tries the pattern at every position from
    left to right; after a match it resumes behind the match (one
    character further when the match is empty).  [skip] counts the
    characters of the current match that are still to be passed over. *)
Fixpoint replace_from (ignoreCase : bool) (r : re)
         (f : list ascii -> captures -> list ascii)
         (skip : nat) (x : list ascii) : list ascii :=
  match skip, x with
  | S skip', _ :: x' => replace_from ignoreCase r f skip' x'
  | S _, [] => []
  | O, _ =>
      match exec_at ignoreCase r x with
      | Some res =>
          f (matched res) (groups res) ++
          match x with
          | [] => []
          | c :: x' =>
              match length (matched res) with
              | O => c :: replace_from ignoreCase r f O x'
              | S n => replace_from ignoreCase r f n x'
              end
          end
      | None =>
          match x with
          | [] => []
          | c :: x' => c :: replace_from ignoreCase r f O x'
          end
      end
  end.

Definition replace_regexp (ignoreCase : bool) (r : re)
           (f : list ascii -> captures -> list ascii) (s : list ascii) : list ascii :=
  replace_from ignoreCase r f O s.

(** [String.prototype.replace] with a string pattern and a string
    replacement: only the first occurrence is replaced, and the
    replacement is a template in which a dollar sign followed by a
    dollar sign, an ampersand, a backquote or a quote is expanded
    ([GetSubstitution] with no captures; every other dollar sign stands
    for itself). *)
Fixpoint is_prefix (p x : list ascii) : bool :=
  match p, x with
  | [], _ => true
  | a :: p', b :: x' => Ascii.eqb a b && is_prefix p' x'
  | _ :: _, [] => false
  end.

(** [StringIndexOf]: the text before the first occurrence of [p] and the
    text after it. *)
Fixpoint split_at_first (p x : list ascii) : option (list ascii * list ascii) :=
  if is_prefix p x then Some ([], drop (length p) x)
  else match x with
       | [] => None
       | c :: x' =>
           match split_at_first p x' with
           | Some (before, after) => Some (c :: before, after)
           | None => None
           end
       end.

Definition dollar : ascii := "$"%char.

Fixpoint get_substitution (matched before after template : list ascii) : list ascii :=
  match template with
  | [] => []
  | c :: t =>
      if Ascii.eqb c dollar then
        match t with
        | d :: t' =>
            if Ascii.eqb d dollar then dollar :: get_substitution matched before after t'
            else if Ascii.eqb d "&"%char then matched ++ get_substitution matched before after t'
            else if Ascii.eqb d "`"%char then before ++ get_substitution matched before after t'
            else if Ascii.eqb d "'"%char then after ++ get_substitution matched before after t'
            else c :: get_substitution matched before after t
        | [] => [c]
        end
      else c :: get_substitution matched before after t
  end.

Definition replace_string (pattern replacement s : list ascii) : list ascii :=
  match split_at_first pattern s with
  | Some (before, after) =>
      before ++ get_substitution pattern before after replacement ++ after
  | None => s
  end.

End RegExp.

(** ** [src/write-archive/dom-snapshot.ts] *)
Module DOMSnapshot.
Import RegExp.

Definition squote : ascii := "'"%char.
Definition dquote : ascii := ascii_of_nat 34.

(** The character class of the two quote characters, and the class of a
    URL token character: anything but a quote or a closing parenthesis. *)
Definition quote_class : re := Cls false [squote; dquote].
Definition token_class : re := Cls true [squote; dquote; ")"%char].

(** [CSS_URL_REGEX], item by item: the word url and an opening
    parenthesis; a negative lookahead for an optional quote followed by
    the word data and a colon; an optional quote; group 1, a greedy run
    of token characters; an optional quote; a closing parenthesis.  The
    literal carries the flags [g] and [i]. *)
Definition CSS_URL_REGEX : re :=
  seq [ word "url"; Chr "("%char;
        NotAhead (seq [Opt quote_class; word "data"; Chr ":"%char]);
        Opt quote_class;
        Grp 1 (Star token_class);
        Opt quote_class;
        Chr ")"%char ].

(** The replacer of [mapCssUrls]: [match_] is the matched text and
    [fullUrl] the text of group 1. *)
Definition replacer (sourceMap : gmap string string)
           (match_ : list ascii) (caps : captures) : list ascii :=
  match caps !! 1%nat with
  | Some (Some fullUrl) =>
      match sourceMap !! string_of_list_ascii fullUrl with
      | Some mapped => replace_string fullUrl (list_ascii_of_string mapped) match_
      | None => match_
      end
  | _ => match_
  end.

Definition mapCssUrls (cssText : string) (sourceMap : gmap string string) : string :=
  string_of_list_ascii
    (replace_regexp true CSS_URL_REGEX (replacer sourceMap)
                    (list_ascii_of_string cssText)).

(** Modelled from the spec: the node type [serializedNodeWithId] of the
    package rrweb-snapshot, which the sources import and do not define.
    Every node carries its identifier; a document and an element carry an
    ordered child sequence; an element carries its attributes, a mapping
    from names to strings; a text node carries its content and the flag
    that marks style content; the other kinds are carried along as they
    are. *)
Inductive serializedNodeWithId : Type :=
| Document (id : Z) (childNodes : list serializedNodeWithId)
| DocumentType (id : Z) (name publicId systemId : string)
| Element (id : Z) (tagName : string) (attributes : gmap string string)
          (childNodes : list serializedNodeWithId)
| Text (id : Z) (textContent : string) (isStyle : bool)
| CDATA (id : Z)
| Comment (id : Z) (textContent : string).

Inductive NodeType : Type :=
| NT_Document | NT_DocumentType | NT_Element | NT_Text | NT_CDATA | NT_Comment.

Definition type (node : serializedNodeWithId) : NodeType :=
  match node with
  | Document _ _ => NT_Document
  | DocumentType _ _ _ _ => NT_DocumentType
  | Element _ _ _ _ => NT_Element
  | Text _ _ _ => NT_Text
  | CDATA _ => NT_CDATA
  | Comment _ _ => NT_Comment
  end.

Definition id (node : serializedNodeWithId) : Z :=
  match node with
  | Document i _ | DocumentType i _ _ _ | Element i _ _ _
  | Text i _ _ | CDATA i | Comment i _ => i
  end.

(** [node.childNodes], absent on the kinds that have no children. *)
Definition childNodes (node : serializedNodeWithId) : option (list serializedNodeWithId) :=
  match node with
  | Document _ cs | Element _ _ _ cs => Some cs
  | _ => None
  end.

Definition set_childNodes (node : serializedNodeWithId)
           (cs : list serializedNodeWithId) : serializedNodeWithId :=
  match node with
  | Document i _ => Document i cs
  | Element i t a _ => Element i t a cs
  | _ => node
  end.

(** A string is truthy when it is not empty. *)
Definition truthy (s : string) : bool :=
  match s with EmptyString => false | _ => true end.

(** The three steps of [mapNodeAttributes] on the attributes of an
    element. *)
Definition map_src (sourceMap : gmap string string) (attrs : gmap string string)
  : gmap string string :=
  match attrs !! "src" with
  | Some sourceVal =>
      if truthy sourceVal then
        match sourceMap !! sourceVal with
        | Some mapped => <["src" := mapped]> attrs
        | None => attrs
        end
      else attrs
  | None => attrs
  end.

Definition map_css_attribute (name : string) (sourceMap : gmap string string)
           (attrs : gmap string string) : gmap string string :=
  match attrs !! name with
  | Some cssText =>
      if truthy cssText then <[name := mapCssUrls cssText sourceMap]> attrs else attrs
  | None => attrs
  end.

Definition mapNodeAttributes (node : serializedNodeWithId)
           (sourceMap : gmap string string) : serializedNodeWithId :=
  match node with
  | Element i tag attrs cs =>
      let attrs := map_src sourceMap attrs in
      let attrs := map_css_attribute "style" sourceMap attrs in
      let attrs := map_css_attribute "_cssText" sourceMap attrs in
      Element i tag attrs cs
  | _ => node
  end.

Definition mapTextElement (node : serializedNodeWithId)
           (sourceMap : gmap string string) : serializedNodeWithId :=
  match node with
  | Text i textContent true =>
      if truthy textContent then Text i (mapCssUrls textContent sourceMap) true
      else node
  | _ => node
  end.

(** [mapNode]: the two passes over the node itself, then the children.
    Neither pass touches [childNodes] (lemma [passes_keep_childNodes]),
    so the children the source reads after the passes are those of
    [node]. *)
Fixpoint mapNode (node : serializedNodeWithId) (sourceMap : gmap string string)
  : serializedNodeWithId :=
  let node' := mapTextElement (mapNodeAttributes node sourceMap) sourceMap in
  match node with
  | Document _ cs | Element _ _ _ cs =>
      set_childNodes node' (List.map (fun childNode => mapNode childNode sourceMap) cs)
  | _ => node'
  end.


Definition str (s : string) : list ascii := list_ascii_of_string s.

End DOMSnapshot.


(** ** [src/resource-archive/index.ts] *)
Module ResourceArchive.

Definition UrlString := string.

(** Values that can be thrown: the error a rejected client command
    carries, and the [TypeError] of the runtime (an invalid URL, a
    property read on [undefined]). *)
Inductive Error : Type :=
| ClientError (message : string)
| TypeError (message : string).

(** The parts of a parsed [URL] the watcher reads: [origin], and [href],
    which is what [toString()] returns. *)
Record URL := { origin : string; href : string }.

Inductive BufferEncoding := base64 | utf8.

(** The platform classes the watcher uses and does not define: the
    [URL] constructor ([None] when it throws) and [Buffer.from]. *)
Class Platform := {
  Buffer : Type;
  Buffer_from : string -> BufferEncoding -> Buffer;
  URL_new : string -> option URL;
}.

Section Watcher.
Context `{Platform}.

Inductive ArchiveResponse : Type :=
| Captured (statusCode : Z) (statusText : option string)
           (body : Buffer) (contentType : option string)
| Failed (error : Error).

(** The protocol types of the event ([Protocol.Fetch.requestPausedPayload]). *)
Record Request := { url : UrlString; method : string }.
Record HeaderEntry := { name : string; value : string }.
Record requestPausedPayload := {
  requestId : string;
  request : Request;
  responseStatusCode : option Z;
  responseStatusText : option string;
  responseErrorReason : option string;
  responseHeaders : option (list HeaderEntry);
}.

(** What the logger receives. *)
Inductive LogEntry : Type :=
| log_client_error (url : UrlString) (error : Error)
| log_requestPaused (requestUrl : string) (stage : string)
                    (firstUrl : string) (isRequestFromAllowedDomain : bool)
| log_response_error (responseErrorReason : string).

(** The fields of a [Watcher]; [logger] is the output of the imported
    logger. *)
Record Watcher := {
  archive : gmap string ArchiveResponse;
  allowedArchiveOrigins : list string;
  firstUrl : option URL;
  logger : list LogEntry;
}.

Definition set_archive_field (a : gmap string ArchiveResponse) (w : Watcher) : Watcher :=
  {| archive := a; allowedArchiveOrigins := allowedArchiveOrigins w;
     firstUrl := firstUrl w; logger := logger w |}.

Definition set_firstUrl_field (f : option URL) (w : Watcher) : Watcher :=
  {| archive := archive w; allowedArchiveOrigins := allowedArchiveOrigins w;
     firstUrl := f; logger := logger w |}.

Definition set_logger_field (l : list LogEntry) (w : Watcher) : Watcher :=
  {| archive := archive w; allowedArchiveOrigins := allowedArchiveOrigins w;
     firstUrl := firstUrl w; logger := l |}.

(** The constructor: every allowed domain gets the https protocol
    tacked on; the archive starts empty and [firstUrl] unset. *)
Definition new_Watcher (allowedDomains : option (list string)) : Watcher :=
  {| archive := ∅;
     allowedArchiveOrigins :=
       List.map (fun domain => "https://" +:+ domain) (default [] allowedDomains);
     firstUrl := None;
     logger := [] |}.

(** *** Commands of the remote client and asynchronous computations *)

Record ResponseBody := { body : string; base64Encoded : bool }.

(** The commands the watcher sends, indexed by what they return. *)
Inductive Command : Type -> Type :=
| Fetch_enable : Command unit
| Fetch_continueRequest (requestId : string) (interceptResponse : bool) : Command unit
| Fetch_getResponseBody (requestId : string) : Command ResponseBody.

Inductive Settled (R : Type) : Type :=
| Fulfilled (value : R)
| Rejected (reason : Error).
Arguments Fulfilled {R} value.
Arguments Rejected {R} reason.

(** An asynchronous method runs on the watcher until it returns, throws
    or awaits a command of the client.  While it is suspended other
    handlers run, so its continuation receives the watcher as it is
    when the command settles. *)
Inductive Async (A : Type) : Type :=
| Return (w : Watcher) (a : A)
| Throw (w : Watcher) (e : Error)
| Await {R : Type} (w : Watcher) (c : Command R)
        (k : Settled R -> Watcher -> Async A).
Arguments Return {A} w a.
Arguments Throw {A} w e.
Arguments Await {A R} w c k.

Definition M (A : Type) : Type := Watcher -> Async A.

Definition ret {A} (a : A) : M A := fun w => Return w a.
Definition throw {A} (e : Error) : M A := fun w => Throw w e.

Fixpoint bind_async {A B} (r : Async A) (f : A -> M B) : Async B :=
  match r with
  | Return w a => f a w
  | Throw w e => Throw w e
  | Await w c k => Await w c (fun s w' => bind_async (k s w') f)
  end.

Definition bind {A B} (m : M A) (f : A -> M B) : M B :=
  fun w => bind_async (m w) f.

Fixpoint catch_async {A} (r : Async A) (handler : Error -> M A) : Async A :=
  match r with
  | Return w a => Return w a
  | Throw w e => handler e w
  | Await w c k => Await w c (fun s w' => catch_async (k s w') handler)
  end.

(** [try { body } catch (error) { handler }] *)
Definition try_catch {A} (body : M A) (handler : Error -> M A) : M A :=
  fun w => catch_async (body w) handler.

(** [await this.client.send(method, params)] *)
Definition client_send {R} (c : Command R) : M R :=
  fun w => Await w c (fun s w' =>
                        match s with
                        | Fulfilled v => Return w' v
                        | Rejected e => Throw w' e
                        end).

Definition logger_log (entry : LogEntry) : M unit :=
  fun w => Return (set_logger_field (logger w ++ [entry]) w) tt.

(** [this.archive[url] = response] *)
Definition archive_set (url : UrlString) (response : ArchiveResponse) : M unit :=
  fun w => Return (set_archive_field (<[url := response]> (archive w)) w) tt.

(** [new URL(url)] *)
Definition new_URL (url : UrlString) : M URL :=
  fun w => match URL_new url with
           | Some u => Return w u
           | None => Throw w (TypeError "Invalid URL")
           end.

(** [this.firstUrl ??= requestUrl] *)
Definition firstUrl_init (requestUrl : URL) : M unit :=
  fun w => match firstUrl w with
           | Some _ => Return w tt
           | None => Return (set_firstUrl_field (Some requestUrl) w) tt
           end.

(** A read of [this.firstUrl] followed by a property access. *)
Definition this_firstUrl : M URL :=
  fun w => match firstUrl w with
           | Some f => Return w f
           | None => Throw w (TypeError "Cannot read properties of undefined")
           end.

Definition this_allowedArchiveOrigins : M (list string) :=
  fun w => Return w (allowedArchiveOrigins w).


Notation "'do' x <- m ; k" := (bind m (fun x => k))
  (at level 10, x pattern, m at level 100, k at level 200, only parsing).

(** [async watch()]: a failure of the enable command is not caught. *)
Definition watch : M unit :=
  do _ <- client_send Fetch_enable;
  ret tt.

Definition setResponse (url : UrlString) (response : ArchiveResponse) : M unit :=
  archive_set url response.

Definition clientSend {R} (request : Request) (c : Command R) : M (option R) :=
  try_catch
    (do v <- client_send c;
     ret (Some v))
    (fun error =>
       do _ <- logger_log (log_client_error (url request) error);
       do _ <- archive_set (url request) (Failed error);
       ret None).

(** [String.prototype.toLowerCase] on the ASCII letters; a header name
    is compared with an ASCII word, which no other character lowers
    into. *)
Definition lower (c : ascii) : ascii :=
  let n := nat_of_ascii c in
  if (65 <=? n)%nat && (n <=? 90)%nat then ascii_of_nat (n + 32) else c.

Fixpoint toLowerCase (s : string) : string :=
  match s with
  | EmptyString => EmptyString
  | String c s' => String (lower c) (toLowerCase s')
  end.

(** Truthiness of the optional event fields: a number is truthy when it
    is present and not zero, a string when present and not empty. *)
Definition truthy_number (n : option Z) : bool :=
  match n with Some z => negb (z =? 0)%Z | None => false end.

Definition truthy_string (s : option string) : bool :=
  match s with Some (String _ _) => true | _ => false end.

(** [responseStatusCode === n] *)
Definition is_status (code : option Z) (n : Z) : bool :=
  match code with Some z => (z =? n)%Z | None => false end.

(** [[301, 302, 307, 308].includes(responseStatusCode)] *)
Definition is_redirect (code : option Z) : bool :=
  match code with
  | Some z => existsb (Z.eqb z) [301; 302; 307; 308]%Z
  | None => false
  end.

(** The method test of the first line: the pattern is the word get
    with the flag [i], and it is not anchored. *)
Definition method_matches_get (method : string) : bool :=
  RegExp.test true (RegExp.word "get") method.

Definition requestPaused (event : requestPausedPayload) : M unit :=
  let '(Build_requestPausedPayload requestId request responseStatusCode
          responseStatusText responseErrorReason responseHeaders) := event in
  if negb (method_matches_get (method request)) then
    do _ <- clientSend request (Fetch_continueRequest requestId false);
    ret tt
  else if is_status responseStatusCode 304 then
    do _ <- clientSend request (Fetch_continueRequest requestId false);
    ret tt
  else
    do requestUrl <- new_URL (url request);
    do _ <- firstUrl_init requestUrl;
    do first <- this_firstUrl;
    do allowed <- this_allowedArchiveOrigins;
    let isRequestFromAllowedDomain :=
      String.eqb (origin requestUrl) (origin first)
      || existsb (String.eqb (origin requestUrl)) allowed in
    do _ <- logger_log
              (log_requestPaused
                 (href requestUrl)
                 (if truthy_number responseStatusCode || truthy_string responseErrorReason
                  then "response" else "request")
                 (href first)
                 isRequestFromAllowedDomain);
    if truthy_string responseErrorReason then
      do _ <- logger_log (log_response_error (default EmptyString responseErrorReason));
      do _ <- clientSend request (Fetch_continueRequest requestId false);
      ret tt
    else if truthy_number responseStatusCode then
      if is_redirect responseStatusCode then
        do _ <- clientSend request (Fetch_continueRequest requestId true);
        ret tt
      else
        do result <- clientSend request (Fetch_getResponseBody requestId);
        match result with
        | None => ret tt
        | Some (Build_ResponseBody body base64Encoded) =>
            do contentTypeHeader <-
               match responseHeaders with
               | Some headers =>
                   ret (List.find
                          (fun h => String.eqb (toLowerCase (name h)) "content-type")
                          headers)
               | None => throw (TypeError "Cannot read properties of undefined")
               end;
            do first <- this_firstUrl;
            let isFirstRequest := String.eqb (href requestUrl) (href first) in
            do _ <-
               (if isRequestFromAllowedDomain && negb isFirstRequest
                then archive_set (url request)
                       (Captured (default 0%Z responseStatusCode)
                                 responseStatusText
                                 (Buffer_from body (if base64Encoded then base64 else utf8))
                                 (option_map value contentTypeHeader))
                else ret tt);
            do _ <- clientSend request (Fetch_continueRequest requestId false);
            ret tt
        end
    else
      do _ <- clientSend request (Fetch_continueRequest requestId true);
      ret tt.


(** *** The event loop of a watch session

    The client emits [Fetch.requestPaused] events and settles the
    commands it was sent, in any order.  Each event starts a handler
    that runs until its first [await]; a handler that awaits a command
    is suspended until that command settles.  Handler bodies never run
    in parallel, but several handlers can be suspended at once. *)

Inductive AnyCommand : Type :=
| any_command {R : Type} (c : Command R).

(** A suspended invocation of [requestPaused]: the event it handles,
    the command it awaits, and what it does when the command settles. *)
Record Handler := {
  exchange : requestPausedPayload;
  awaited_type : Type;
  awaited : Command awaited_type;
  resume : Settled awaited_type -> Watcher -> Async unit;
}.

Record Session := {
  this : Watcher;
  suspended : list Handler;
  sent : list AnyCommand;          (* the commands sent, oldest first *)
  unhandled : list Error;          (* rejections of handler promises *)
}.

(** Does a command ask for a second pause at the response? *)
Definition interceptResponse (c : AnyCommand) : bool :=
  match c with
  | any_command (Fetch_continueRequest _ flag) => flag
  | any_command _ => false
  end.

Definition start (allowedDomains : option (list string)) : Session :=
  {| this := new_Watcher allowedDomains; suspended := []; sent := []; unhandled := [] |}.

(** Take a handler as far as its next [await]. *)
Definition advance (event : requestPausedPayload) (s : Session) (r : Async unit) : Session :=
  match r with
  | Return w _ =>
      {| this := w; suspended := suspended s; sent := sent s; unhandled := unhandled s |}
  | Throw w e =>
      {| this := w; suspended := suspended s; sent := sent s;
         unhandled := unhandled s ++ [e] |}
  | Await w c k =>
      {| this := w;
         suspended := suspended s ++ [{| exchange := event; awaited := c; resume := k |}];
         sent := sent s ++ [any_command c];
         unhandled := unhandled s |}
  end.

(** What the client answers to a command. *)
Inductive Reply : Type :=
| reply_done
| reply_body (b : ResponseBody)
| reply_error (e : Error).

Definition settled_of {R} (c : Command R) (reply : Reply) : option (Settled R) :=
  match c in Command R return option (Settled R) with
  | Fetch_enable | Fetch_continueRequest _ _ =>
      match reply with
      | reply_done => Some (Fulfilled tt)
      | reply_error e => Some (Rejected e)
      | reply_body _ => None
      end
  | Fetch_getResponseBody _ =>
      match reply with
      | reply_body b => Some (Fulfilled b)
      | reply_error e => Some (Rejected e)
      | reply_done => None
      end
  end.

Inductive Event : Type :=
| event_requestPaused (event : requestPausedPayload)
| event_settled (i : nat) (reply : Reply).   (* the i-th suspended handler resumes *)

Definition step (s : Session) (e : Event) : Session :=
  match e with
  | event_requestPaused event => advance event s (requestPaused event (this s))
  | event_settled i reply =>
      match suspended s !! i with
      | Some h =>
          match settled_of (awaited h) reply with
          | Some r =>
              advance (exchange h)
                      {| this := this s; suspended := delete i (suspended s);
                         sent := sent s; unhandled := unhandled s |}
                      (resume h r (this s))
          | None => s
          end
      | None => s
      end
  end.

Definition run (events : list Event) (s : Session) : Session :=
  fold_left step events s.

(** The effect of a failed command on the watcher: a log line and a
    [Failed] entry under the URL of the exchange. *)
Definition record_failure (url : UrlString) (error : Error) (w : Watcher) : Watcher :=
  set_archive_field (<[url := Failed error]> (archive (set_logger_field (logger w ++ [log_client_error url error]) w)))
                    (set_logger_field (logger w ++ [log_client_error url error]) w).

End Watcher.

Arguments Fulfilled {R} value.
Arguments Rejected {R} reason.
Arguments Return {H A} w a.
Arguments Throw {H A} w e.
Arguments Await {H A R} w c k.

(** *** A platform for examples

    URLs of the plain form scheme://host/path, for which the origin is
    scheme://host and the serialization is the URL itself (with the
    root path when there is none); bytes are kept as the text they are
    decoded from together with the encoding. *)
Definition plain_URL (s : string) : option URL :=
  match String.index 0 "://" s with
  | Some i =>
      let scheme := String.substring 0 i s in
      let after := String.substring (i + 3) (String.length s - (i + 3)) s in
      match String.index 0 "/" after with
      | Some O => None
      | Some j =>
          Some {| origin := scheme +:+ "://" +:+ String.substring 0 j after; href := s |}
      | None =>
          match after with
          | EmptyString => None
          | _ => Some {| origin := scheme +:+ "://" +:+ after; href := s +:+ "/" |}
          end
      end
  | None => None
  end.

Definition example_platform : Platform :=
  {| Buffer := string * BufferEncoding; Buffer_from := pair; URL_new := plain_URL |}.

End ResourceArchive.

(** ** [Watcher.idle]

    [idle] starts a timer, starts the wait for the network idle state of
    the page, and awaits the race of the two.  The model follows the timer
    and the promises through the two things that can happen afterwards: the
    timer fires, or the wait of the page settles. *)
Module Idle.

Inductive Timer : Type :=
| armed (ms : Z)           (* [setTimeout] was called and nothing happened since *)
| cleared                  (* [clearTimeout] found it armed *)
| fired.                   (* its callback ran *)

Inductive Promise : Type :=
| pending
| fulfilled
| rejected (reason : string).

Inductive LogEntry : Type :=
| warn_global_timeout (networkTimeoutMs : Z).

Record State := {
  globalNetworkTimerId : Timer;
  globalNetworkTimeout : Promise;   (* the promise around the timer *)
  waitForLoadState : Promise;       (* [page.waitForLoadState('networkidle')] *)
  networkIdlePromise : Promise;     (* the same, behind [finally] *)
  race : Promise;                   (* [Promise.race], which [idle] awaits *)
  logger : list LogEntry;
}.

(** The state when [idle] reaches its [await]. *)
Definition start (networkTimeoutMs : Z) : State :=
  {| globalNetworkTimerId := armed networkTimeoutMs;
     globalNetworkTimeout := pending;
     waitForLoadState := pending;
     networkIdlePromise := pending;
     race := pending;
     logger := [] |}.

(** A promise settles once. *)
Definition settle (p outcome : Promise) : Promise :=
  match p with
  | pending => outcome
  | _ => p
  end.

Definition clearTimeout (t : Timer) : Timer :=
  match t with
  | armed _ => cleared
  | _ => t
  end.

(** How the wait of the page ends when it ends. *)
Inductive Outcome : Type :=
| resolves
| rejects (reason : string).

Definition promise_of (o : Outcome) : Promise :=
  match o with
  | resolves => fulfilled
  | rejects reason => rejected reason
  end.

Inductive Event : Type :=
| timer_fires
| load_state_settles (outcome : Outcome).

Definition step (s : State) (e : Event) : State :=
  match e with
  | timer_fires =>
      match globalNetworkTimerId s with
      | armed ms =>
          (* the callback: [logger.warn], then [globalNetworkResolver()] *)
          {| globalNetworkTimerId := fired;
             globalNetworkTimeout := settle (globalNetworkTimeout s) fulfilled;
             waitForLoadState := waitForLoadState s;
             networkIdlePromise := networkIdlePromise s;
             race := settle (race s) fulfilled;
             logger := logger s ++ [warn_global_timeout ms] |}
      | _ => s        (* a cleared timer never fires, a timer fires once *)
      end
  | load_state_settles outcome =>
      match waitForLoadState s with
      | pending =>
          (* the [finally] callback clears the timer, then the outcome
             passes through *)
          {| globalNetworkTimerId := clearTimeout (globalNetworkTimerId s);
             globalNetworkTimeout := globalNetworkTimeout s;
             waitForLoadState := promise_of outcome;
             networkIdlePromise := settle (networkIdlePromise s) (promise_of outcome);
             race := settle (race s) (promise_of outcome);
             logger := logger s |}
      | _ => s        (* a promise settles once *)
      end
  end.

Definition run (events : list Event) (s : State) : State :=
  fold_left step events s.

(** The waits that are still running: the timer while armed, the wait
    of the page while pending. *)
Definition pending_waits (s : State) : nat :=
  (match globalNetworkTimerId s with armed _ => 1 | _ => 0 end)
  + (match waitForLoadState s with pending => 1 | _ => 0 end).

(** *** Time

    Moments are counted in whole milliseconds from the call of [idle].
    The network idle signal is described by when it settles, if it ever
    does.  The timer fires when its delay has passed, and the delay is
    what [setTimeout] makes of its argument: a number of milliseconds from
    1 to [TIMEOUT_MAX] is taken as it is, any other is set to 1.  When the
    signal and the timer fall on the same millisecond either can come
    first. *)
Inductive Signal : Type :=
| never
| settles_at (t : N) (outcome : Outcome).

Definition TIMEOUT_MAX : Z := 2147483647.

(** The delay of [setTimeout(callback, ms)]. *)
Definition timer_delay (ms : Z) : N :=
  if (1 <=? ms)%Z && (ms <=? TIMEOUT_MAX)%Z then Z.to_N ms else 1%N.

Definition timeline (networkTimeoutMs : Z) (signal : Signal) (timer_first : bool)
  : list (N * Event) :=
  let delay := timer_delay networkTimeoutMs in
  match signal with
  | never => [(delay, timer_fires)]
  | settles_at t outcome =>
      if (t <? delay)%N || ((t =? delay)%N && negb timer_first)
      then [(t, load_state_settles outcome); (delay, timer_fires)]
      else [(delay, timer_fires); (t, load_state_settles outcome)]
  end.

(** Play a timeline until the awaited race settles: the time at which
    [idle] stops waiting and the state at that moment. *)
Fixpoint play (events : list (N * Event)) (s : State) : option (N * State) :=
  match events with
  | [] => None
  | (t, e) :: events' =>
      let s' := step s e in
      match race s' with
      | pending => play events' s'
      | _ => Some (t, s')
      end
  end.

(** [await Promise.race(...)] returns when the race is fulfilled and
    throws when it is rejected. *)
Inductive Completion : Type :=
| returns
| throws (reason : string).

Definition completion (p : Promise) : option Completion :=
  match p with
  | pending => None
  | fulfilled => Some returns
  | rejected reason => Some (throws reason)
  end.


(** [idle(page, networkTimeoutMs)]: how and when the call completes, and
    the state it leaves. *)
Definition idle (networkTimeoutMs : Z) (signal : Signal) (timer_first : bool)
  : option (Completion * N * State) :=
  match play (timeline networkTimeoutMs signal timer_first) (start networkTimeoutMs) with
  | Some (t, s) =>
      match completion (race s) with
      | Some c => Some (c, t, s)
      | None => None
      end
  | None => None
  end.

End Idle.

(** ** Notions used to state the properties of the watcher *)
Module WatcherSpec.
Import ResourceArchive.

Section Spec.
Context `{Platform}.

(** A handler that gives up when a command fails: at every [await],
    now or later, a rejection makes it return at once, on a watcher
    that has logged and recorded the failure under [url]; no further
    command is sent and nothing is thrown. *)
Inductive abandons_on_failure (url : UrlString) : Async unit -> Prop :=
| abandons_return w : abandons_on_failure url (Return w tt)
| abandons_throw w e : abandons_on_failure url (Throw w e)
| abandons_await {R} w (c : Command R) k :
    (forall e w', k (Rejected e) w' = Return (record_failure url e w') tt) ->
    (forall v w', abandons_on_failure url (k (Fulfilled v) w')) ->
    abandons_on_failure url (Await w c k).

Definition gives_up_on_failure (h : Handler) : Prop :=
  (forall e w',
      resume h (Rejected e) w'
      = Return (record_failure (url (request (exchange h))) e w') tt)
  /\ (forall v w',
         abandons_on_failure (url (request (exchange h))) (resume h (Fulfilled v) w')).

(** The URL [U] may be captured by the watcher [w]: [firstUrl] is set,
    [U] parses, its origin is that of [firstUrl] or one of the allowed
    origins, and its serialization differs from that of [firstUrl]. *)
Definition eligible (w : Watcher) (U : UrlString) : Prop :=
  exists f u,
    firstUrl w = Some f
    /\ URL_new U = Some u
    /\ (origin u = origin f \/ origin u ∈ allowedArchiveOrigins w)
    /\ href u <> href f.

Definition captures_eligible (w : Watcher) : Prop :=
  forall U statusCode statusText body contentType,
    archive w !! U = Some (Captured statusCode statusText body contentType) ->
    eligible w U.

(** [w'] is a later state of [w]: the allowed origins are the same and
    [firstUrl], once set, stays. *)
Definition later (w w' : Watcher) : Prop :=
  allowedArchiveOrigins w' = allowedArchiveOrigins w
  /\ (forall f, firstUrl w = Some f -> firstUrl w' = Some f).

(** A computation started on [w0] that keeps [captures_eligible] at
    each of its steps, whatever happens to the watcher while it is
    suspended. *)
Inductive keeps_eligible (w0 : Watcher) : Async unit -> Prop :=
| keeps_return w a :
    later w0 w -> captures_eligible w -> keeps_eligible w0 (Return w a)
| keeps_throw w e :
    later w0 w -> captures_eligible w -> keeps_eligible w0 (Throw w e)
| keeps_await {R} w (c : Command R) k :
    later w0 w -> captures_eligible w ->
    (forall r w', later w w' -> captures_eligible w' -> keeps_eligible w' (k r w')) ->
    keeps_eligible w0 (Await w c k).

Definition handler_keeps_eligible (w : Watcher) (h : Handler) : Prop :=
  exists w0,
    later w0 w
    /\ (forall r w', later w0 w' -> captures_eligible w' ->
                    keeps_eligible w' (resume h r w')).

(** A session started on [w0] in which the watcher and every suspended
    handler keep [captures_eligible]. *)
Definition session_keeps_eligible (w0 : Watcher) (s : Session) : Prop :=
  later w0 (this s)
  /\ captures_eligible (this s)
  /\ Forall (handler_keeps_eligible (this s)) (suspended s).

End Spec.
End WatcherSpec.

(** ** Notions used to state the properties of the snapshot rewriter *)
Module SnapshotSpec.
Import DOMSnapshot.

(** The attributes of an element the rewriter may change. *)
Definition rewritable (name : string) : Prop :=
  name = "src" \/ name = "style" \/ name = "_cssText".

(** Two attribute mappings with the same names that agree outside the
    rewritable attributes. *)
Definition same_attributes (attrs attrs' : gmap string string) : Prop :=
  dom attrs' = dom attrs
  /\ (forall name, ~ rewritable name -> attrs' !! name = attrs !! name).

(** [same_structure node node']: the two trees have the same shape, node
    by node the same kind and identifier, and differ at most in the
    rewritable attributes of elements and in the content of text nodes
    flagged as style. *)
Inductive same_structure : serializedNodeWithId -> serializedNodeWithId -> Prop :=
| same_Document i cs cs' :
    Forall2 same_structure cs cs' ->
    same_structure (Document i cs) (Document i cs')
| same_DocumentType i name publicId systemId :
    same_structure (DocumentType i name publicId systemId)
                   (DocumentType i name publicId systemId)
| same_Element i tag attrs attrs' cs cs' :
    same_attributes attrs attrs' ->
    Forall2 same_structure cs cs' ->
    same_structure (Element i tag attrs cs) (Element i tag attrs' cs')
| same_Text_style i content content' :
    same_structure (Text i content true) (Text i content' true)
| same_Text i content :
    same_structure (Text i content false) (Text i content false)
| same_CDATA i :
    same_structure (CDATA i) (CDATA i)
| same_Comment i content :
    same_structure (Comment i content) (Comment i content).

(** Rewrite the attribute [name] with [f], when it is present and
    truthy. *)
Definition update_attribute (name : string) (f : string -> string)
           (attrs : gmap string string) : gmap string string :=
  match attrs !! name with
  | Some v => if truthy v then <[name := f v]> attrs else attrs
  | None => attrs
  end.

(** What [map_src] writes in place of a reference. *)
Definition map_reference (sourceMap : gmap string string) (v : string) : string :=
  default v (sourceMap !! v).

End SnapshotSpec.

(** ** Notions used to state the properties of the CSS substitution

    The pattern of [CSS_URL_REGEX] read directly off a text, the parts of
    an occurrence, and the conditions on a source map under which a second
    rewrite finds the first one's result unchanged. *)
Module CssSpec.
Import RegExp DOMSnapshot.

Definition is_quote (c : ascii) : bool := Ascii.eqb c squote || Ascii.eqb c dquote.

Definition is_close (c : ascii) : bool := Ascii.eqb c ")"%char.

(** A character of a URL token: neither a quote nor a closing
    parenthesis. *)
Definition is_token_char (c : ascii) : bool := negb (is_quote c || is_close c).

(** Drop one leading quote, if there is one. *)
Definition strip_quote (x : list ascii) : list ascii :=
  match x with
  | c :: x' => if is_quote c then x' else x
  | [] => []
  end.

(** Does [x] start with the word [p], letter case ignored? *)
Fixpoint starts_ci (p x : list ascii) : bool :=
  match p, x with
  | [], _ => true
  | a :: p', b :: x' => char_eq true a b && starts_ci p' x'
  | _ :: _, [] => false
  end.

(** What the negative lookahead looks for. *)
Definition data_ahead (r : list ascii) : bool :=
  starts_ci (str "data:") (strip_quote r).

(** The longest run of token characters at the start of [x], and what
    follows it. *)
Fixpoint token_span (x : list ascii) : list ascii * list ascii :=
  match x with
  | c :: x' =>
      if is_token_char c
      then let '(t, r) := token_span x' in (c :: t, r)
      else ([], x)
  | [] => ([], [])
  end.

(** A match of [CSS_URL_REGEX] at the start of [x], computed directly. *)
Definition css_match (x : list ascii) : option result :=
  if starts_ci (str "url(") x then
    let r := drop 4 x in
    if data_ahead r then None
    else
      let '(t, r2) := token_span (strip_quote r) in
      match strip_quote r2 with
      | c :: y =>
          if is_close c
          then Some {| matched := take (length x - length y) x;
                       groups := [None; Some t];
                       rest := y |}
          else None
      | [] => None
      end
  else None.

(** An occurrence of the pattern, in its parts: the four characters of
    the opener as they are written, the quote before the token if any, the
    token, the quote after it if any.  The closing parenthesis follows. *)
Record occurrence := {
  opener : list ascii;
  open_quote : list ascii;
  token : list ascii;
  close_quote : list ascii;
}.

Definition text (o : occurrence) : list ascii :=
  opener o ++ open_quote o ++ token o ++ close_quote o ++ [")"%char].

Definition with_token (t : list ascii) (o : occurrence) : occurrence :=
  {| opener := opener o; open_quote := open_quote o; token := t;
     close_quote := close_quote o |}.

(** One leading quote, if there is one, and the rest. *)
Definition split_quote (x : list ascii) : list ascii * list ascii :=
  match x with
  | c :: x' => if is_quote c then ([c], x') else ([], x)
  | [] => ([], [])
  end.

(** The occurrence at the start of [x], if there is one, and what follows
    it. *)
Definition find_occurrence (x : list ascii) : option (occurrence * list ascii) :=
  if starts_ci (str "url(") x then
    let r := drop 4 x in
    if data_ahead r then None
    else
      let '(q1, r1) := split_quote r in
      let '(t, r2) := token_span r1 in
      let '(q2, r3) := split_quote r2 in
      match r3 with
      | c :: y =>
          if is_close c
          then Some ({| opener := take 4 x; open_quote := q1; token := t;
                        close_quote := q2 |}, y)
          else None
      | [] => None
      end
  else None.

Definition is_quote_or_none (q : list ascii) : bool :=
  match q with
  | [] => true
  | [c] => is_quote c
  | _ => false
  end.

(** The parts are what they are called. *)
Definition well_formed (o : occurrence) : Prop :=
  length (opener o) = 4%nat
  /\ starts_ci (str "url(") (opener o) = true
  /\ is_quote_or_none (open_quote o) = true
  /\ is_quote_or_none (close_quote o) = true
  /\ forallb is_token_char (token o) = true.

(** An occurrence as the scan finds it: the token does not start with the
    data scheme, and a quote right after the opener is the opening one. *)
Definition canonical (o : occurrence) : Prop :=
  well_formed o
  /\ starts_ci (str "data:") (token o) = false
  /\ (open_quote o = [] -> token o = [] -> close_quote o = []).

(** [mapCssUrls] on lists of characters. *)
Definition rewrite_css (sourceMap : gmap string string) (x : list ascii) : list ascii :=
  replace_regexp true CSS_URL_REGEX (replacer sourceMap) x.

(** [head_ok a]: [a] is none of the characters of the opener. *)
Definition head_ok (a : ascii) : bool :=
  negb (char_eq true "u"%char a || char_eq true "r"%char a
        || char_eq true "l"%char a || char_eq true "("%char a).

(** The openers the pattern matches, and what can stand between the
    opener and the token. *)
Definition openers : list (list ascii) :=
  [ str "url("; str "urL("; str "uRl("; str "uRL(";
    str "Url("; str "UrL("; str "URl("; str "URL(" ].

Definition opening_quotes : list (list ascii) := [[]; [squote]; [dquote]].

(** The replacer looks for the text of the key from the start of the
    match and replaces the first place where it finds it.
    [found_at_token k]: in every match whose token is [k], that place is
    the token.  (An earlier place would start in the opener or the quote
    and end inside the token, so the text up to the end of the token
    decides.) *)
Definition found_at_token (k : list ascii) : bool :=
  forallb (fun op =>
             forallb (fun q =>
                        bool_decide (split_at_first k (op ++ q ++ k) = Some (op ++ q, [])))
                     opening_quotes)
          openers.

(** A key that can be a token (it holds no quote and no closing
    parenthesis) must be found at the token.  This leaves out the empty
    key, the keys that are a piece of the opener (as u, rl, l( in either
    case) and the keys that repeat an end of the opener (as ((, l(l). *)
Definition key_ok (k : string) : bool :=
  negb (forallb is_token_char (list_ascii_of_string k))
  || found_at_token (list_ascii_of_string k).

(** A replacement template without replacement patterns: no dollar sign
    is followed by a dollar sign, an ampersand, a backtick or a single
    quote. *)
Fixpoint no_pattern (v : list ascii) : bool :=
  match v with
  | [] => true
  | c :: t =>
      (if Ascii.eqb c dollar then
         match t with
         | d :: _ =>
             negb (Ascii.eqb d dollar || Ascii.eqb d "&"%char
                   || Ascii.eqb d "`"%char || Ascii.eqb d "'"%char)
         | [] => true
         end
       else true)
      && no_pattern t
  end.

(** A mapped value must read as a token again (no quote, no closing
    parenthesis), must hold no replacement pattern, and must not be taken
    for inline data. *)
Definition value_ok (v : string) : bool :=
  forallb is_token_char (list_ascii_of_string v)
  && no_pattern (list_ascii_of_string v)
  && negb (starts_ci (str "data:") (list_ascii_of_string v)).

Definition plain_references (sourceMap : gmap string string) : bool :=
  forallb (fun kv => key_ok (fst kv) && value_ok (snd kv)) (map_to_list sourceMap).

(** Every mapped value maps to itself. *)
Definition image_fixed (sourceMap : gmap string string) : bool :=
  forallb (fun kv => bool_decide (sourceMap !! snd kv = Some (snd kv)))
          (map_to_list sourceMap).

(** The token after the rewrite. *)
Definition rewrite_token (sourceMap : gmap string string) (t : list ascii) : list ascii :=
  match sourceMap !! string_of_list_ascii t with
  | Some v => list_ascii_of_string v
  | None => t
  end.

(** [rewritten x y]: [y] is [x] with the tokens of some occurrences
    replaced by other tokens, an empty token only by an empty one. *)
Inductive rewritten : list ascii -> list ascii -> Prop :=
| rewritten_nil : rewritten [] []
| rewritten_char c x y :
    rewritten x y -> rewritten (c :: x) (c :: y)
| rewritten_occurrence o t' x y :
    well_formed o ->
    forallb is_token_char t' = true ->
    (t' = [] -> token o = []) ->
    rewritten x y ->
    rewritten (text o ++ x) (text (with_token t' o) ++ y).

(** After the opener and the optional quote: does the run of token
    characters end in a closing parenthesis, or in a quote followed by
    one? *)
Fixpoint closes (x : list ascii) : bool :=
  match x with
  | [] => false
  | c :: x' =>
      if is_token_char c then closes x'
      else if is_close c then true
      else match x' with
           | d :: _ => is_close d
           | [] => false
           end
  end.

(** Is there an occurrence at the start of [x]? *)
Definition occurs (x : list ascii) : bool :=
  starts_ci (str "url(") x
  && negb (data_ahead (drop 4 x))
  && closes (strip_quote (drop 4 x)).
End CssSpec.

(** ** Source maps and a snapshot used in examples *)
Module SnapshotExamples.
Import DOMSnapshot.


(** A source map as the orchestrator builds it, with the image of its
    image. *)
Definition archived : gmap string string :=
  <["http://x/a.png" := "./archive/a.png"]> (<["./archive/a.png" := "./archive/a.png"]> ∅).

(** A source map with a relative address, which starts with a letter of
    the opener, and a mapped value with a dollar sign that starts no
    replacement pattern. *)
Definition logos : gmap string string :=
  <["logo.png" := "./archive/logo.png"]>
    (<["./archive/logo.png" := "./archive/logo.png"]>
       (<["rates.svg" := "./archive/rates$1.svg"]>
          (<["./archive/rates$1.svg" := "./archive/rates$1.svg"]> ∅))).

(** A small page. *)
Definition sample : serializedNodeWithId :=
  Document 1
    [ Element 2 "div" (<["style" := "background: url('http://x/a.png')"]> ∅)
        [ Element 3 "img" (<["src" := "http://x/a.png"]> (<["alt" := "a"]> ∅)) [];
          Text 4 "b { background: URL(http://x/a.png) }" true;
          Text 5 "url(http://x/a.png)" false ] ].

End SnapshotExamples.

(** ** Events and replies used in examples *)
Module WatcherExamples.
Import ResourceArchive.
#[local] Existing Instance example_platform.

Definition get (id url : string) (status : option Z) (headers : option (list HeaderEntry))
  : requestPausedPayload :=
  {| requestId := id;
     request := {| url := url; method := "GET" |};
     responseStatusCode := status;
     responseStatusText := None;
     responseErrorReason := None;
     responseHeaders := headers |}.

Definition page : requestPausedPayload :=
  get "1" "https://example.com/" (Some 200%Z) (Some []).

Definition logo : requestPausedPayload :=
  get "2" "https://example.com/logo.png" (Some 200%Z)
      (Some [{| name := "Content-Type"; value := "image/png" |}]).

Definition logo_without_headers : requestPausedPayload :=
  get "2" "https://example.com/logo.png" (Some 200%Z) None.

Definition moved : requestPausedPayload :=
  get "3" "https://example.com/old.css" (Some 302%Z) (Some []).

Definition post_redirected : requestPausedPayload :=
  {| requestId := "4";
     request := {| url := "https://example.com/login"; method := "POST" |};
     responseStatusCode := Some 302%Z;
     responseStatusText := None;
     responseErrorReason := None;
     responseHeaders := Some [] |}.

Definition png : ResponseBody := {| body := "iVBORw0KGgo="; base64Encoded := true |}.

Definition disconnected : Error := ClientError "Target closed".

(** The page and its logo load; every command succeeds. *)
Definition page_then_logo : list Event :=
  [ event_requestPaused page; event_settled 0 (reply_body png); event_settled 0 reply_done;
    event_requestPaused logo; event_settled 0 (reply_body png); event_settled 0 reply_done ].
End WatcherExamples.


(** ** More of the handler, the timer, the rewriter and the writer *)

Module HandlerSpec.
Import ResourceArchive WatcherSpec.

Section Spec.
Context `{Platform}.

(** [isRequestFromAllowedDomain], for a request URL [u] when [firstUrl]
    is [first]. *)
Definition from_allowed_domain (w : Watcher) (u first : URL) : bool :=
  String.eqb (origin u) (origin first)
  || existsb (String.eqb (origin u)) (allowedArchiveOrigins w).

(** The watcher when the handler of a GET event with URL [u] has passed
    the first two tests: [firstUrl] is [u] unless it was set before, and
    the line that describes the event is logged. *)
Definition classified (event : requestPausedPayload) (u : URL) (w : Watcher) : Watcher :=
  let first := default u (firstUrl w) in
  {| archive := archive w;
     allowedArchiveOrigins := allowedArchiveOrigins w;
     firstUrl := Some first;
     logger :=
       logger w
       ++ [log_requestPaused
             (href u)
             (if truthy_number (responseStatusCode event)
                 || truthy_string (responseErrorReason event)
              then "response" else "request")
             (href first)
             (from_allowed_domain w u first)] |}.

(** The entry the handler writes for a response it captures. *)
Definition captured_response (event : requestPausedPayload) (headers : list HeaderEntry)
           (b : ResponseBody) : ArchiveResponse :=
  Captured (default 0%Z (responseStatusCode event))
           (responseStatusText event)
           (Buffer_from (body b) (if base64Encoded b then base64 else utf8))
           (option_map value
              (List.find (fun h => String.eqb (toLowerCase (name h)) "content-type")
                         headers)).

(** The value a command returns when it succeeds; [b] is what the fetch
    of a body returns. *)
Definition fulfil_with (b : ResponseBody) {R : Type} (c : Command R) : R :=
  match c in Command R return R with
  | Fetch_enable => tt
  | Fetch_continueRequest _ _ => tt
  | Fetch_getResponseBody _ => b
  end.

(** The commands a handler sends, in order, when each of them succeeds
    and nothing else touches the watcher meanwhile, and the error it ends
    with if it throws. *)
Fixpoint commands_when_fulfilled (b : ResponseBody) (r : Async unit)
  : list AnyCommand * option Error :=
  match r with
  | Return _ _ => ([], None)
  | Throw _ e => ([], Some e)
  | Await w c k =>
      let '(cs, e) := commands_when_fulfilled b (k (Fulfilled (fulfil_with b c)) w) in
      (any_command c :: cs, e)
  end.

(** [w'] is the watcher [w] at a later time, as far as a handler can make
    it: what [later] says, every key of the archive is still there, and
    the log has only been added to. *)
Definition advanced (w w' : Watcher) : Prop :=
  later w w'
  /\ dom (archive w) ⊆ dom (archive w')
  /\ logger w `prefix_of` logger w'.

(** A computation each of whose steps, whenever it runs, takes the
    watcher to an advanced one. *)
Inductive advances : Watcher -> Async unit -> Prop :=
| advances_return w0 w a : advanced w0 w -> advances w0 (Return w a)
| advances_throw w0 w e : advanced w0 w -> advances w0 (Throw w e)
| advances_await {R} w0 w (c : Command R) k :
    advanced w0 w ->
    (forall r w', advances w' (k r w')) ->
    advances w0 (Await w c k).

Definition handler_advances (h : Handler) : Prop :=
  forall r w', advances w' (resume h r w').

End Spec.
End HandlerSpec.

Module IdleSpec.
Import Idle.
(** What holds of the timer, the race and the log at any moment after
    [idle] has started waiting: while the timer is armed nothing has
    happened; once it is not, the race is decided, and the log holds the
    warning exactly if the timer fired. *)
Definition consistent (networkTimeoutMs : Z) (s : State) : Prop :=
  match globalNetworkTimerId s with
  | armed ms =>
      ms = networkTimeoutMs /\ race s = pending /\ waitForLoadState s = pending
      /\ logger s = []
  | cleared => race s <> pending /\ waitForLoadState s <> pending /\ logger s = []
  | fired => race s <> pending /\ logger s = [warn_global_timeout networkTimeoutMs]
  end.
End IdleSpec.

Module RewriterSpec.
Import CssSpec.

(** No mapped value is a key, and none is empty: the paths the assets are
    written to are not addresses of assets. *)
Definition targets_fresh (sourceMap : gmap string string) : bool :=
  forallb (fun kv => bool_decide (sourceMap !! snd kv = None)
                     && negb (String.eqb (snd kv) EmptyString))
          (map_to_list sourceMap).
End RewriterSpec.

(** ** The source map of [writeTestResult] *)

Module WriteArchive.
Import ResourceArchive.

Section SourceMap.
Context `{Platform}.

(** [ArchiveFile] is imported from a module outside the two files: its two
    methods are left open, as functions of the constructor's arguments
    [(url, response, pageUrl)]. *)
Variable originalSrc : UrlString -> ArchiveResponse -> string -> string.
Variable toFileSystemPath : UrlString -> ArchiveResponse -> string -> string.

(** ['error' in response] *)
Definition has_error (response : ArchiveResponse) : bool :=
  match response with
  | Failed _ => true
  | Captured _ _ _ _ => false
  end.

(** The callback run on one entry of the archive, up to its first
    [await]: what it does to [sourceMap]. *)
Definition add_entry (pageUrl : string) (sourceMap : gmap string string)
           (entry : UrlString * ArchiveResponse) : gmap string string :=
  let '(url, response) := entry in
  if has_error response then sourceMap
  else
    let origSrcPath := originalSrc url response pageUrl in
    let fileSystemPath := toFileSystemPath url response pageUrl in
    if negb (String.eqb origSrcPath fileSystemPath)
    then <[origSrcPath := fileSystemPath]> sourceMap
    else sourceMap.

(** [sourceMap] after the callbacks ran over [Object.entries(archive)],
    in the order of the entries. *)
Definition sourceMap (pageUrl : string)
           (entries : list (UrlString * ArchiveResponse)) : gmap string string :=
  fold_left (add_entry pageUrl) entries ∅.

End SourceMap.
End WriteArchive.

Module MoreExamples.
Import RegExp DOMSnapshot ResourceArchive WatcherExamples CssSpec.
#[local] Existing Instance example_platform.

(** A script at the request stage: no status, no error reason. *)
Definition script : requestPausedPayload :=
  get "5" "https://example.com/app.js" None None.

Definition script_url : URL :=
  {| origin := "https://example.com"; href := "https://example.com/app.js" |}.

Definition logo_url : URL :=
  {| origin := "https://example.com"; href := "https://example.com/logo.png" |}.

Definition page_url : URL :=
  {| origin := "https://example.com"; href := "https://example.com/" |}.

(** A response served from the cache of the browser. *)
Definition not_modified : requestPausedPayload :=
  get "6" "https://example.com/app.js" (Some 304%Z) (Some []).

(** A request that failed in the network. *)
Definition refused : requestPausedPayload :=
  {| requestId := "7";
     request := {| url := "https://example.com/app.js"; method := "GET" |};
     responseStatusCode := None;
     responseStatusText := None;
     responseErrorReason := Some "ConnectionRefused";
     responseHeaders := None |}.

(** An event whose URL has no scheme. *)
Definition relative : requestPausedPayload := get "8" "/logo.png" None None.

(** A source map whose targets are fresh. *)
Definition written : gmap string string := <["http://x/a.png" := "./archive/a.png"]> ∅.

(** The reference in the inline style of the sample page. *)
Definition quoted : occurrence :=
  {| opener := str "url("; open_quote := [squote];
     token := str "http://x/a.png"; close_quote := [squote] |}.

(** An image without address and without inline style. *)
Definition bare : gmap string string := <["alt" := "a"]> (<["src" := EmptyString]> ∅).
End MoreExamples.

(** * Properties *)

(** ** [Watcher.idle] *)
Module IdleProps.
Import Idle.

Lemma play_timer_first ms t rest :
  play ((t, timer_fires) :: rest) (start ms)
  = Some (t, step (start ms) timer_fires).
Proof. reflexivity. Qed.

Lemma play_signal_first ms t o rest :
  play ((t, load_state_settles o) :: rest) (start ms)
  = Some (t, step (start ms) (load_state_settles o)).
Proof. destruct o; reflexivity. Qed.




(** With a delay of 1000 ms the call returns after 1000 ms and the
    warning is in the log; with a delay that [setTimeout] does not take,
    after 1 ms. *)
Example idle_1000_returns_after_1000 :
  exists s, idle 1000 never true = Some (returns, 1000%N, s)
            /\ logger s = [warn_global_timeout 1000].
Proof. eexists. split; reflexivity. Qed.

Example idle_out_of_range_returns_after_1 :
  (exists s, idle 2147483648 never true = Some (returns, 1%N, s))
  /\ (exists s, idle 0 never true = Some (returns, 1%N, s))
  /\ (exists s, idle 2147483647 never true = Some (returns, 2147483647%N, s)).
Proof. repeat split; eexists; vm_compute; reflexivity. Qed.

Lemma step_pending_waits (s : State) (e : Event) :
(pending_waits (step s e) <= pending_waits s)%nat.
Proof.
destruct s as [timer p1 wait p2 r l], e as [|o]; unfold pending_waits; simpl.
- destruct timer; simpl; lia.
- destruct wait; simpl; [|lia..]. destruct timer, o; simpl; lia.
Qed.

Lemma run_pending_waits (events : list Event) (s : State) :
(pending_waits (run events s) <= pending_waits s)%nat.
Proof.
revert s. induction events as [|e events IH]; intros s; simpl; [lia|].
etransitivity; [apply IH|apply step_pending_waits].
Qed.

(** C7 does not hold as stated: it is not so that in both directions the
    loser of the race is no longer waiting when [idle] returns.  With a
    signal that never settles and a delay of 1000 ms the timer fires and
    [idle] returns; the wait of the page, the loser, is still pending and
    nothing has cancelled it. *)
Lemma page_wait_outlives_idle :
  ~ (forall networkTimeoutMs signal timer_first c t s,
        idle networkTimeoutMs signal timer_first = Some (c, t, s) ->
        waitForLoadState s <> pending
        /\ (forall ms, globalNetworkTimerId s <> armed ms)).
Proof.
  intros Hclaim.
  destruct (Hclaim 1000%Z never true _ _ _ eq_refl) as [Hwait _].
  by apply Hwait.
Qed.

(** C7, as the code has it.  [idle] always completes, and when it does
    one of two things is the case.  Either the wait of the page settled
    first: then the timer has been cleared and no wait is left.  Or the
    timer fired first: then the wait of the page has not been cancelled,
    it is still pending and is the one wait left.  From then on at most
    one wait is pending. *)
Theorem idle_leaves_at_most_one_wait
(networkTimeoutMs : Z) (signal : Signal) (timer_first : bool) :
exists c t s,
idle networkTimeoutMs signal timer_first = Some (c, t, s)
/\ ((globalNetworkTimerId s = cleared /\ waitForLoadState s <> pending
     /\ pending_waits s = 0%nat)
    \/ (globalNetworkTimerId s = fired /\ waitForLoadState s = pending
        /\ pending_waits s = 1%nat))
/\ (forall events, (pending_waits (run events s) <= 1)%nat).
Proof.
assert (forall s, (pending_waits s <= 1)%nat ->
                  forall events, (pending_waits (run events s) <= 1)%nat) as Hlater.
{ intros s Hs events. etransitivity; [apply run_pending_waits|done]. }
unfold idle, timeline.
destruct signal as [|t o].
- rewrite play_timer_first. simpl. eexists _, _, _. split; [reflexivity|].
  split; [right; by repeat split|]. apply Hlater. unfold pending_waits; simpl; lia.
- destruct ((t <? timer_delay networkTimeoutMs)%N
            || (t =? timer_delay networkTimeoutMs)%N && negb timer_first).
  + rewrite play_signal_first.
    destruct o as [|reason]; simpl; eexists _, _, _; (split; [reflexivity|]).
    all: split; [left; by repeat split|].
    all: apply Hlater; unfold pending_waits; simpl; lia.
  + rewrite play_timer_first. simpl. eexists _, _, _. split; [reflexivity|].
    split; [right; by repeat split|]. apply Hlater. unfold pending_waits; simpl; lia.
Qed.

End IdleProps.

(** ** [Watcher.requestPaused] *)
Module WatcherProps.
Import ResourceArchive WatcherSpec.

Section Handler.
Context `{Platform}.

(** What a handler does around a command sent through [clientSend]:
    it awaits the command; when the command is fulfilled it goes on
    with the value, when it is rejected it goes on with [null] on a
    watcher that has logged and recorded the failure. *)
Lemma clientSend_bind {A R} (request : Request) (c : Command R)
      (f : option R -> M A) (w : Watcher) :
  exists k,
    bind (clientSend request c) f w = Await w c k
    /\ (forall v w', k (Fulfilled v) w' = f (Some v) w')
    /\ (forall e w', k (Rejected e) w' = f None (record_failure (url request) e w')).
Proof. eexists. split; [reflexivity|]. split; reflexivity. Qed.

Lemma continue_and_return (request : Request) (id : string) (flag : bool) (w : Watcher) :
  exists k,
    bind (clientSend request (Fetch_continueRequest id flag)) (fun _ => ret tt) w
    = Await w (Fetch_continueRequest id flag) k
    /\ (forall v w', k (Fulfilled v) w' = Return w' tt)
    /\ (forall e w', k (Rejected e) w' = Return (record_failure (url request) e w') tt).
Proof. apply clientSend_bind. Qed.


Lemma record_failure_archive url e (w : Watcher) :
  archive (record_failure url e w) = <[url := Failed e]> (archive w).
Proof. reflexivity. Qed.

Lemma record_failure_logger url e (w : Watcher) :
  logger (record_failure url e w) = logger w ++ [log_client_error url e].
Proof. reflexivity. Qed.

Lemma record_failure_firstUrl url e (w : Watcher) :
  firstUrl (record_failure url e w) = firstUrl w.
Proof. reflexivity. Qed.

Lemma record_failure_allowed url e (w : Watcher) :
  allowedArchiveOrigins (record_failure url e w) = allowedArchiveOrigins w.
Proof. reflexivity. Qed.

(** *** Every handler gives up when a command fails *)

Lemma abandons_continue url_ (request : Request) id flag w :
  url request = url_ ->
  abandons_on_failure url_
    (bind (clientSend request (Fetch_continueRequest id flag)) (fun _ => ret tt) w).
Proof.
  intros <-.
  destruct (continue_and_return request id flag w) as (k & -> & Hok & Herr).
  constructor; [done|]. intros v w'. rewrite Hok. constructor.
Qed.

Lemma requestPaused_abandons (event : requestPausedPayload) (w : Watcher) :
  abandons_on_failure (url (request event)) (requestPaused event w).
Proof.
  destruct event as [id req code text reason headers]; simpl.
  unfold requestPaused.
  destruct (negb (method_matches_get (method req))); [by apply abandons_continue|].
  destruct (is_status code 304); [by apply abandons_continue|].
  unfold bind at 1, new_URL. destruct (URL_new (url req)) as [u|]; simpl; [|constructor].
  unfold bind at 1, firstUrl_init.
  destruct (firstUrl w) as [f|] eqn:Hf; simpl.
  all: unfold bind at 1, this_firstUrl; simpl; rewrite ?Hf; simpl.
  all: unfold bind at 1, this_allowedArchiveOrigins; simpl.
  all: unfold bind at 1, logger_log; simpl.
  all: destruct (truthy_string reason);
    [unfold bind at 1; simpl; by apply abandons_continue|].
  all: destruct (truthy_number code); [|by apply abandons_continue].
  all: destruct (is_redirect code); [by apply abandons_continue|].
  all: match goal with
       | |- abandons_on_failure _ (bind (clientSend ?r ?c) ?f ?w) =>
           destruct (clientSend_bind r c f w) as (k & -> & Hok & Herr)
       end.
  all: constructor; [intros e w'; by rewrite Herr|].
  all: intros [b b64] w'; rewrite Hok.
  all: destruct headers as [hs|]; [|constructor].
  all: unfold bind at 1, ret at 1; simpl.
  all: unfold bind at 1, this_firstUrl; destruct (firstUrl w'); simpl; [|constructor].
  all: match goal with
       | |- context [if ?b then archive_set _ _ else ret tt] => destruct b
       end.
  all: unfold bind at 1; simpl; by apply abandons_continue.
Qed.


Lemma settled_of_error {R} (c : Command R) (e : Error) :
  settled_of c (reply_error e) = Some (Rejected e).
Proof. destruct c; reflexivity. Qed.

Lemma advance_gives_up (event : requestPausedPayload) (s : Session) (r : Async unit) :
  abandons_on_failure (url (request event)) r ->
  Forall gives_up_on_failure (suspended s) ->
  Forall gives_up_on_failure (suspended (advance event s r)).
Proof.
  intros Hr Hs. destruct Hr as [w|w e|R w c k Herr Hok]; simpl; try done.
  apply Forall_app; split; [done|]. apply Forall_singleton. by split.
Qed.

Lemma step_gives_up (s : Session) (e : Event) :
  Forall gives_up_on_failure (suspended s) ->
  Forall gives_up_on_failure (suspended (step s e)).
Proof.
  intros Hs. destruct e as [event|i reply]; simpl.
  - apply advance_gives_up; [apply requestPaused_abandons|done].
  - destruct (suspended s !! i) as [h|] eqn:Hi; [|done].
    destruct (settled_of (awaited h) reply) as [r|]; [|done].
    assert (gives_up_on_failure h) as [Herr Hok].
    { eapply Forall_lookup_1; eauto. }
    apply advance_gives_up; [|by apply Forall_delete].
    destruct r as [v|err]; [apply Hok|]. rewrite Herr. constructor.
Qed.

Lemma run_gives_up (events : list Event) (s : Session) :
  Forall gives_up_on_failure (suspended s) ->
  Forall gives_up_on_failure (suspended (run events s)).
Proof.
  revert s. induction events as [|e events IH]; intros s Hs; [done|].
  simpl. apply IH. by apply step_gives_up.
Qed.

Lemma step_failed_command (s : Session) (i : nat) (h : Handler) (e : Error) :
  suspended s !! i = Some h ->
  gives_up_on_failure h ->
  step s (event_settled i (reply_error e))
  = {| this := record_failure (url (request (exchange h))) e (this s);
       suspended := delete i (suspended s);
       sent := sent s;
       unhandled := unhandled s |}.
Proof.
  intros Hi [Herr _]. unfold step.
  by rewrite Hi, settled_of_error, Herr.
Qed.

(** C2. In a watch session, whichever suspended handler sees its
    command fail: the failure is logged, a [Failed] entry carrying the
    error is written under the URL of that exchange, and the handler is
    over.  No command is sent again or in its place, the promise of the
    handler is not rejected, the other suspended handlers stay as they
    are, and so does every archive entry under another URL. *)
Theorem failed_command_is_recorded_and_abandoned
        (allowedDomains : option (list string)) (events : list Event)
        (i : nat) (e : Error) :
  (i < length (suspended (run events (start allowedDomains))))%nat ->
  let s := run events (start allowedDomains) in
  let s' := step s (event_settled i (reply_error e)) in
  exists h,
    suspended s !! i = Some h
    /\ logger (this s')
       = logger (this s) ++ [log_client_error (url (request (exchange h))) e]
    /\ archive (this s')
       = <[url (request (exchange h)) := Failed e]> (archive (this s))
    /\ (forall U', U' <> url (request (exchange h)) ->
                  archive (this s') !! U' = archive (this s) !! U')
    /\ firstUrl (this s') = firstUrl (this s)
    /\ suspended s' = delete i (suspended s)
    /\ sent s' = sent s
    /\ unhandled s' = unhandled s.
Proof.
  intros Hi s s'.
  destruct (lookup_lt_is_Some_2 _ _ Hi) as [h Hh]. exists h. split; [done|].
  assert (gives_up_on_failure h) as Hgives.
  { eapply Forall_lookup_1; [|exact Hh].
    apply run_gives_up. constructor. }
  subst s'. rewrite (step_failed_command s i h e Hh); [|done]. simpl.
  repeat split; try done.
  intros U' HU. by rewrite lookup_insert_ne.
Qed.

(** *** Captured entries stay eligible *)

Lemma later_refl (w : Watcher) : later w w.
Proof. by split. Qed.

Lemma later_trans (w1 w2 w3 : Watcher) : later w1 w2 -> later w2 w3 -> later w1 w3.
Proof.
  intros [Ha1 Hf1] [Ha2 Hf2]. split; [congruence|]. intros f Hf. by apply Hf2, Hf1.
Qed.

Lemma eligible_later (w w' : Watcher) (U : UrlString) :
  later w w' -> eligible w U -> eligible w' U.
Proof.
  intros [Ha Hf] (f & u & Hfirst & Hu & Ho & Hne).
  exists f, u. rewrite Ha. auto.
Qed.

Lemma later_record_failure url e (w : Watcher) : later w (record_failure url e w).
Proof. by split. Qed.

Lemma captures_eligible_record_failure url e (w : Watcher) :
  captures_eligible w -> captures_eligible (record_failure url e w).
Proof.
  intros Hw U sc st b ct. rewrite record_failure_archive.
  destruct (decide (url = U)) as [->|Hne].
  - by rewrite lookup_insert_eq.
  - rewrite lookup_insert_ne by done. intros HU.
    eapply eligible_later; [apply later_record_failure|by eapply Hw].
Qed.

Lemma keeps_weaken (w0 w1 : Watcher) (r : Async unit) :
  later w0 w1 -> keeps_eligible w1 r -> keeps_eligible w0 r.
Proof.
  intros H01 Hr. destruct Hr; constructor; eauto using later_trans.
Qed.

Lemma keeps_clientSend {R} (w0 w : Watcher) (request : Request) (c : Command R)
      (f : option R -> M unit) :
  later w0 w -> captures_eligible w ->
  (forall res w', later w w' -> captures_eligible w' -> keeps_eligible w' (f res w')) ->
  keeps_eligible w0 (bind (clientSend request c) f w).
Proof.
  intros Hl Hw Hf.
  destruct (clientSend_bind request c f w) as (k & -> & Hok & Herr).
  constructor; [done..|]. intros [v|e] w' Hl' Hw'.
  - rewrite Hok. by apply Hf.
  - rewrite Herr. apply keeps_weaken with (record_failure (url request) e w').
    + apply later_record_failure.
    + apply Hf.
      * eapply later_trans; [done|apply later_record_failure].
      * by apply captures_eligible_record_failure.
Qed.

Lemma keeps_continue (w0 w : Watcher) (request : Request) id flag :
  later w0 w -> captures_eligible w ->
  keeps_eligible w0
    (bind (clientSend request (Fetch_continueRequest id flag)) (fun _ => ret tt) w).
Proof.
  intros Hl Hw. apply keeps_clientSend; [done..|].
  intros _ w' Hl' Hw'. constructor; [apply later_refl|done].
Qed.

(** Setting [firstUrl] for the first time: nothing has been captured
    before. *)
Lemma captures_eligible_first (w : Watcher) (u : URL) :
  firstUrl w = None -> captures_eligible w ->
  captures_eligible (set_firstUrl_field (Some u) w).
Proof.
  intros Hnone Hw U sc st b ct HU.
  destruct (Hw U sc st b ct HU) as (f & _ & Hf & _). congruence.
Qed.

Lemma captures_eligible_logger (w : Watcher) (l : list LogEntry) :
  captures_eligible w -> captures_eligible (set_logger_field l w).
Proof. intros Hw U sc st b ct HU. by apply (Hw U sc st b ct). Qed.

(** Writing a captured response under a URL that is eligible. *)
Lemma captures_eligible_capture (w : Watcher) (U : UrlString) (response : ArchiveResponse) :
  eligible w U -> captures_eligible w ->
  captures_eligible (set_archive_field (<[U := response]> (archive w)) w).
Proof.
  intros HU Hw U' sc st b ct. simpl.
  destruct (decide (U = U')) as [->|Hne].
  - intros _. destruct HU as (f & u & ?). by exists f, u.
  - rewrite lookup_insert_ne by done. intros HU'.
    destruct (Hw U' sc st b ct HU') as (f & u & ?). by exists f, u.
Qed.

Lemma existsb_eqb_elem (x : string) (l : list string) :
  existsb (String.eqb x) l = true -> x ∈ l.
Proof.
  intros Hx. apply existsb_exists in Hx as (y & Hin & Heq).
  apply String.eqb_eq in Heq as ->. by apply list_elem_of_In.
Qed.

Lemma requestPaused_keeps (event : requestPausedPayload) (w : Watcher) :
  captures_eligible w -> keeps_eligible w (requestPaused event w).
Proof.
  intros Hw.
  destruct event as [id req code text reason headers]; simpl.
  unfold requestPaused.
  destruct (negb (method_matches_get (method req)));
    [by apply keeps_continue; [apply later_refl|]|].
  destruct (is_status code 304);
    [by apply keeps_continue; [apply later_refl|]|].
  unfold bind at 1, new_URL.
  destruct (URL_new (url req)) as [u|] eqn:Hu; simpl;
    [|by constructor; [apply later_refl|]].
  unfold bind at 1.
  (* the watcher after [this.firstUrl ??= requestUrl] *)
  assert (exists w1 f,
             firstUrl_init u w = Return w1 tt
             /\ firstUrl w1 = Some f /\ later w w1 /\ captures_eligible w1)
    as (w1 & f & -> & Hf1 & Hl1 & Hw1).
  { unfold firstUrl_init. destruct (firstUrl w) as [f|] eqn:Hf.
    - exists w, f. repeat split; try done.
    - exists (set_firstUrl_field (Some u) w), u. repeat split; try done.
      + simpl. congruence.
      + by apply captures_eligible_first. }
  simpl. unfold bind at 1, this_firstUrl. rewrite Hf1. simpl.
  unfold bind at 1, this_allowedArchiveOrigins. simpl.
  unfold bind at 1, logger_log. simpl.
  set (allowed := String.eqb (origin u) (origin f)
                  || existsb (String.eqb (origin u)) (allowedArchiveOrigins w1)).
  match goal with
  | |- context [set_logger_field ?l w1] => set (w2 := set_logger_field l w1)
  end.
  assert (later w w2) as Hl2 by (destruct Hl1; by split).
  assert (captures_eligible w2) as Hw2 by by apply captures_eligible_logger.
  assert (firstUrl w2 = Some f) as Hf2 by done.
  assert (allowedArchiveOrigins w2 = allowedArchiveOrigins w1) as Ha2 by done.
  assert (allowed = true -> origin u = origin f \/ origin u ∈ allowedArchiveOrigins w2)
    as Hallowed.
  { unfold allowed. intros [Ho|Ho]%orb_true_iff.
    - left. by apply String.eqb_eq.
    - right. rewrite Ha2. by apply existsb_eqb_elem. }
  clearbody w2 allowed. clear Hf1 Hl1 Hw1 Ha2 w1.
  destruct (truthy_string reason).
  { unfold bind at 1, logger_log; simpl. apply keeps_continue.
    - destruct Hl2; by split.
    - by apply captures_eligible_logger. }
  destruct (truthy_number code); [|by apply keeps_continue].
  destruct (is_redirect code); [by apply keeps_continue|].
  apply keeps_clientSend; [done..|].
  intros [[b b64]|] w' Hl' Hw'; [|constructor; [apply later_refl|done]].
  destruct headers as [hs|]; [|constructor; [apply later_refl|done]].
  unfold bind at 1, ret at 1; simpl.
  assert (firstUrl w' = Some f) as Hf' by (by apply Hl').
  unfold bind at 1, this_firstUrl. rewrite Hf'. simpl.
  destruct (allowed && negb (href u =? href f)) eqn:Hcapture.
  - unfold bind at 1, archive_set. simpl.
    apply andb_true_iff in Hcapture as [Ha Hne].
    apply keeps_weaken with
      (set_archive_field
         (<[url req := Captured (default 0%Z code) text
                         (Buffer_from b (if b64 then base64 else utf8))
                         (option_map value
                            (find (λ h, toLowerCase (name h) =? "content-type") hs))]>
            (archive w')) w').
    { by split. }
    apply keeps_continue; [apply later_refl|].
    apply captures_eligible_capture; [|done].
    exists f, u. repeat split; try done.
    + destruct (Hallowed Ha) as [Ho|Ho]; [by left|right].
      destruct Hl' as [-> _]. done.
    + apply negb_true_iff, String.eqb_neq in Hne. done.
  - unfold bind at 1, ret at 1. simpl. apply keeps_continue; [apply later_refl|done].
Qed.

Lemma handler_keeps_later (w w' : Watcher) (h : Handler) :
  later w w' -> handler_keeps_eligible w h -> handler_keeps_eligible w' h.
Proof.
  intros Hl (w0 & Hl0 & Hk). exists w0. split; [by eapply later_trans|done].
Qed.

Lemma advance_keeps (w0 : Watcher) (event : requestPausedPayload)
      (s : Session) (r : Async unit) :
  later w0 (this s) ->
  Forall (handler_keeps_eligible (this s)) (suspended s) ->
  keeps_eligible (this s) r ->
  session_keeps_eligible w0 (advance event s r).
Proof.
  intros H0 Hs Hr.
  destruct Hr as [w a Hl Hw|w e Hl Hw|R w c k Hl Hw Hk]; simpl.
  all: split; [by eapply later_trans|]; split; [done|]; simpl.
  1,2: eapply Forall_impl; [exact Hs|]; intros h; by apply handler_keeps_later.
  apply Forall_app; split.
  - eapply Forall_impl; [exact Hs|]. intros h; by apply handler_keeps_later.
  - apply Forall_singleton. exists w. split; [apply later_refl|done].
Qed.

Lemma step_keeps (w0 : Watcher) (s : Session) (e : Event) :
  session_keeps_eligible w0 s -> session_keeps_eligible w0 (step s e).
Proof.
  intros (H0 & Hw & Hs). destruct e as [event|i reply]; simpl.
  - apply advance_keeps; [done..|]. by apply requestPaused_keeps.
  - destruct (suspended s !! i) as [h|] eqn:Hi; [|done].
    destruct (settled_of (awaited h) reply) as [r|]; [|done].
    assert (handler_keeps_eligible (this s) h) as (w1 & Hl1 & Hk).
    { eapply Forall_lookup_1; eauto. }
    apply advance_keeps; simpl; [done|by apply Forall_delete|by apply Hk].
Qed.

Lemma run_keeps (w0 : Watcher) (events : list Event) (s : Session) :
  session_keeps_eligible w0 s -> session_keeps_eligible w0 (run events s).
Proof.
  revert s. induction events as [|e events IH]; intros s Hs; [done|].
  simpl. apply IH. by apply step_keeps.
Qed.

Lemma start_keeps (allowedDomains : option (list string)) :
  session_keeps_eligible (new_Watcher allowedDomains) (start allowedDomains).
Proof.
  split; [apply later_refl|]. split; [|constructor].
  intros U sc st b ct HU. simpl in HU. by rewrite lookup_empty in HU.
Qed.

(** C1, as the code has it.  After any sequence of [requestPaused] events
    and command replies, every captured response in the archive sits
    under a URL whose origin is the origin of [firstUrl] or the https
    origin of a domain given to the constructor, and whose
    serialization is not that of [firstUrl].  ([Failed] entries are not
    bound by this: a failed command is recorded under the URL of its
    exchange, whatever that URL is.) *)
Theorem captured_entries_are_eligible
        (allowedDomains : option (list string)) (events : list Event)
        (U : UrlString) (statusCode : Z) (statusText : option string)
        (body : Buffer) (contentType : option string) :
  archive (this (run events (start allowedDomains))) !! U
  = Some (Captured statusCode statusText body contentType) ->
  exists f u,
    firstUrl (this (run events (start allowedDomains))) = Some f
    /\ URL_new U = Some u
    /\ (origin u = origin f
        \/ exists domain, domain ∈ default [] allowedDomains
                          /\ origin u = "https://" +:+ domain)
    /\ href u <> href f.
Proof.
  intros HU.
  destruct (run_keeps _ events _ (start_keeps allowedDomains)) as ([Ha _] & Hw & _).
  destruct (Hw U _ _ _ _ HU) as (f & u & Hf & Hu & Ho & Hne).
  exists f, u. repeat split; try done.
  destruct Ho as [Ho|Ho]; [by left|right].
  rewrite Ha in Ho. simpl in Ho.
  apply list_elem_of_In, in_map_iff in Ho as (domain & Hd & Hin).
  exists domain. split; [by apply list_elem_of_In|done].
Qed.


Lemma lower_char_eq (c p : ascii) :
  In p ["g"; "e"; "t"]%char -> lower c = p -> RegExp.char_eq true p c = true.
Proof.
  intros [<-|[<-|[<-|[]]]];
    destruct c as [[] [] [] [] [] [] [] []]; vm_compute; congruence.
Qed.

Lemma GET_matches (method : string) :
  toLowerCase method = "get" -> method_matches_get method = true.
Proof.
  destruct method as [|c1 [|c2 [|c3 [|c4 rest]]]]; try discriminate.
  simpl. intros [= H1 H2 H3].
  unfold method_matches_get, RegExp.test, RegExp.test_from, RegExp.exec_at. simpl.
  rewrite (lower_char_eq c1 "g"), (lower_char_eq c2 "e"), (lower_char_eq c3 "t");
    simpl; auto.
Qed.

Ltac enter_handler event :=
  destruct event as [id req code text reason headers]; simpl in *;
  unfold requestPaused.

(** C3, as the code has it.  An event whose method the test of the
    handler rejects (no occurrence of the word get, in any letter case;
    such a method is never GET) is answered by one command, a plain
    continuation without a second pause.  When that command is
    fulfilled the handler returns and the watcher, its archive
    included, is as it was; when it is rejected the handler returns
    after logging and recording the failure. Nothing is captured. *)
Theorem non_get_is_continued_without_capture
        (event : requestPausedPayload) (w : Watcher) :
  method_matches_get (method (request event)) = false ->
  toLowerCase (method (request event)) <> "get"
  /\ exists k,
      requestPaused event w
      = Await w (Fetch_continueRequest (requestId event) false) k
      /\ (forall v w', k (Fulfilled v) w' = Return w' tt)
      /\ (forall e w',
            k (Rejected e) w' = Return (record_failure (url (request event)) e w') tt).
Proof.
  intros Hm. split.
  - intros HGET. apply GET_matches in HGET. congruence.
  - enter_handler event. rewrite Hm. simpl. apply continue_and_return.
Qed.

(** C4, as the code has it.  A GET event without an error reason whose
    status is 301, 302, 307 or 308 leaves the archive as it is and is
    answered by one command, a continuation that asks for a second
    pause ([interceptResponse] set).  When that command is fulfilled
    the handler returns without touching the watcher; when it is
    rejected the handler returns after logging and recording the
    failure. *)
Theorem redirect_is_continued_with_second_pause
        (event : requestPausedPayload) (w : Watcher) (u : URL) :
  method_matches_get (method (request event)) = true ->
  is_redirect (responseStatusCode event) = true ->
  truthy_string (responseErrorReason event) = false ->
  URL_new (url (request event)) = Some u ->
  exists w1 k,
    requestPaused event w
    = Await w1 (Fetch_continueRequest (requestId event) true) k
    /\ archive w1 = archive w
    /\ (forall v w', k (Fulfilled v) w' = Return w' tt)
    /\ (forall e w',
          k (Rejected e) w' = Return (record_failure (url (request event)) e w') tt).
Proof.
  intros Hm Hr He Hu. enter_handler event. rewrite Hm. simpl.
  assert (is_status code 304 = false) as ->.
  { destruct code as [z|]; [|done]. simpl in *.
    destruct (z =? 304)%Z eqn:E; [|done]. apply Z.eqb_eq in E as ->. done. }
  assert (truthy_number code = true) as Ht.
  { destruct code as [z|]; [|done]. simpl in *.
    destruct (z =? 0)%Z eqn:E; [|done]. apply Z.eqb_eq in E as ->. done. }
  unfold bind at 1, new_URL. rewrite Hu. simpl.
  unfold bind at 1, firstUrl_init.
  destruct (firstUrl w) as [f|] eqn:Hf; simpl.
  all: unfold bind at 1, this_firstUrl; simpl; rewrite ?Hf; simpl.
  all: unfold bind at 1, this_allowedArchiveOrigins; simpl.
  all: unfold bind at 1, logger_log; simpl.
  all: rewrite He, Ht, Hr.
  all: match goal with
       | |- context [bind (clientSend ?r ?c) ?f ?w] =>
           destruct (continue_and_return r id true w) as (k & -> & Hok & Herr)
       end.
  all: eexists _, k; split; [reflexivity|]; split; [reflexivity|]; by split.
Qed.

(** C10, as the code has it.  An event on the capture branch (a GET
    event with a status that is present, not 304 and not a redirect, and
    no error reason) starts by fetching the body.  If the event has no
    [responseHeaders], then as soon as the body has arrived the lookup
    of the content type throws a [TypeError]: the handler ends with
    that exception, the watcher as it was at that moment, so nothing is
    archived and no continuation is sent.  (Only when the fetch itself
    fails does the handler return, through [clientSend].) *)
Theorem missing_headers_throw
        (event : requestPausedPayload) (w : Watcher) (u : URL) :
  method_matches_get (method (request event)) = true ->
  truthy_number (responseStatusCode event) = true ->
  is_status (responseStatusCode event) 304 = false ->
  is_redirect (responseStatusCode event) = false ->
  truthy_string (responseErrorReason event) = false ->
  URL_new (url (request event)) = Some u ->
  responseHeaders event = None ->
  exists w1 k,
    requestPaused event w
    = Await w1 (Fetch_getResponseBody (requestId event)) k
    /\ archive w1 = archive w
    /\ (forall b w', exists message, k (Fulfilled b) w' = Throw w' (TypeError message))
    /\ (forall e w',
          k (Rejected e) w' = Return (record_failure (url (request event)) e w') tt).
Proof.
  intros Hm Ht H304 Hr He Hu Hh. enter_handler event. subst headers.
  rewrite Hm, H304. simpl.
  unfold bind at 1, new_URL. rewrite Hu. simpl.
  unfold bind at 1, firstUrl_init.
  destruct (firstUrl w) as [f|] eqn:Hf; simpl.
  all: unfold bind at 1, this_firstUrl; simpl; rewrite ?Hf; simpl.
  all: unfold bind at 1, this_allowedArchiveOrigins; simpl.
  all: unfold bind at 1, logger_log; simpl.
  all: rewrite He, Ht, Hr.
  all: match goal with
       | |- context [bind (clientSend ?r ?c) ?f ?w] =>
           destruct (clientSend_bind r c f w) as (k & -> & Hok & Herr)
       end.
  all: eexists _, k; split; [reflexivity|]; split; [reflexivity|]; split.
  all: try (intros [b b64] w'; rewrite Hok; eexists; reflexivity).
  all: intros e w'; by rewrite Herr.
Qed.
End Handler.
End WatcherProps.

(** ** The watcher on concrete sessions *)
Module WatcherExampleProps.
Import ResourceArchive WatcherSpec WatcherProps WatcherExamples.
#[local] Existing Instance example_platform.

Example logo_is_captured :
  archive (this (run page_then_logo (start None))) !! "https://example.com/logo.png"
  = Some (Captured 200 None (Buffer_from "iVBORw0KGgo=" base64) (Some "image/png")).
Proof. vm_compute. reflexivity. Qed.

Example page_is_not_captured :
  archive (this (run page_then_logo (start None))) !! "https://example.com/" = None.
Proof. vm_compute. reflexivity. Qed.

(** The conditions of [captured_entries_are_eligible] are met by the
    session in which the page and its logo load. *)
Lemma captured_logo_is_eligible :
  archive (this (run page_then_logo (start None))) !! "https://example.com/logo.png"
  = Some (Captured 200 None (Buffer_from "iVBORw0KGgo=" base64) (Some "image/png"))
  /\ exists f u,
      firstUrl (this (run page_then_logo (start None))) = Some f
      /\ URL_new "https://example.com/logo.png" = Some u
      /\ (origin u = origin f
          \/ exists domain, domain ∈ default [] None
                            /\ origin u = "https://" +:+ domain)
      /\ href u <> href f.
Proof.
  split; [vm_compute; reflexivity|].
  apply (captured_entries_are_eligible None page_then_logo
           "https://example.com/logo.png" 200 None (Buffer_from "iVBORw0KGgo=" base64)
           (Some "image/png")).
  vm_compute. reflexivity.
Defined.

(** C1 does not hold as stated.  The page itself is requested first and
    sets [firstUrl]; the fetch of its body fails; the archive then has an
    entry, a [Failed] one, under the very URL of [firstUrl]. *)
Lemma first_url_gets_failed_entry :
  ~ (forall (allowedDomains : option (list string)) (events : list Event)
            (U : UrlString) (response : ArchiveResponse),
        archive (this (run events (start allowedDomains))) !! U = Some response ->
        eligible (this (run events (start allowedDomains))) U).
Proof.
  intros Hclaim.
  destruct (Hclaim None
              [event_requestPaused page; event_settled 0 (reply_error disconnected)]
              "https://example.com/" (Failed disconnected))
    as (f & u & Hf & Hu & _ & Hne).
  - vm_compute. reflexivity.
  - vm_compute in Hf, Hu. congruence.
Qed.


(** The conditions of [failed_command_is_recorded_and_abandoned] are
    met when the fetch of the logo fails. *)
Lemma failed_body_fetch_of_logo :
  (0 < length (suspended (run [event_requestPaused logo] (start None))))%nat
  /\ let s := run [event_requestPaused logo] (start None) in
     let s' := step s (event_settled 0 (reply_error disconnected)) in
     exists h,
       suspended s !! 0%nat = Some h
       /\ logger (this s')
          = logger (this s) ++ [log_client_error (url (request (exchange h))) disconnected]
       /\ archive (this s')
          = <[url (request (exchange h)) := Failed disconnected]> (archive (this s))
       /\ (forall U', U' <> url (request (exchange h)) ->
                     archive (this s') !! U' = archive (this s) !! U')
       /\ firstUrl (this s') = firstUrl (this s)
       /\ suspended s' = delete 0%nat (suspended s)
       /\ sent s' = sent s
       /\ unhandled s' = unhandled s.
Proof.
  split; [vm_compute; lia|].
  apply (failed_command_is_recorded_and_abandoned None [event_requestPaused logo] 0
           disconnected).
  vm_compute. lia.
Defined.

(** The conditions of [non_get_is_continued_without_capture] are met by
    a POST request. *)
Lemma post_is_continued_without_capture :
  method_matches_get (method (request post_redirected)) = false
  /\ toLowerCase (method (request post_redirected)) <> "get"
  /\ exists k,
      requestPaused post_redirected (new_Watcher None)
      = Await (new_Watcher None) (Fetch_continueRequest (requestId post_redirected) false) k
      /\ (forall v w', k (Fulfilled v) w' = Return w' tt)
      /\ (forall e w',
            k (Rejected e) w'
            = Return (record_failure (url (request post_redirected)) e w') tt).
Proof.
  split; [reflexivity|].
  apply (non_get_is_continued_without_capture post_redirected (new_Watcher None)).
  reflexivity.
Defined.

(** C3 does not hold as stated.  A POST request is continued; the
    continuation fails; the archive then has an entry under the URL of
    the request. *)
Lemma non_get_gets_failed_entry :
  ~ (forall (event : requestPausedPayload) (reply : Reply),
        toLowerCase (method (request event)) <> "get" ->
        archive (this (run [event_requestPaused event; event_settled 0 reply] (start None)))
          !! url (request event) = None).
Proof.
  intros Hclaim.
  specialize (Hclaim post_redirected (reply_error disconnected)).
  vm_compute in Hclaim. by specialize (Hclaim ltac:(discriminate)).
Qed.

(** The method test is not anchored: a method that merely contains the
    word passes it. *)
Example unanchored_method_test : method_matches_get "TARGET" = true.
Proof. reflexivity. Qed.

(** The conditions of [redirect_is_continued_with_second_pause] are met
    by a GET request answered by status 302. *)
Lemma moved_is_continued_with_second_pause :
  (method_matches_get (method (request moved)) = true
   /\ is_redirect (responseStatusCode moved) = true
   /\ truthy_string (responseErrorReason moved) = false
   /\ URL_new (url (request moved))
      = Some {| origin := "https://example.com"; href := "https://example.com/old.css" |})
  /\ exists w1 k,
      requestPaused moved (new_Watcher None)
      = Await w1 (Fetch_continueRequest (requestId moved) true) k
      /\ archive w1 = archive (new_Watcher None)
      /\ (forall v w', k (Fulfilled v) w' = Return w' tt)
      /\ (forall e w',
            k (Rejected e) w' = Return (record_failure (url (request moved)) e w') tt).
Proof.
  split; [repeat split; reflexivity|].
  apply (redirect_is_continued_with_second_pause moved (new_Watcher None)
           {| origin := "https://example.com"; href := "https://example.com/old.css" |});
    reflexivity.
Defined.

(** C4 does not hold as stated.  A POST request answered by status 302
    takes the first branch of the handler: the one command sent for it
    does not ask for a second pause. *)
Lemma redirected_post_gets_no_second_pause :
  ~ (forall event : requestPausedPayload,
        is_redirect (responseStatusCode event) = true ->
        List.map interceptResponse (sent (run [event_requestPaused event] (start None)))
        = [true]).
Proof.
  intros Hclaim. specialize (Hclaim post_redirected eq_refl).
  vm_compute in Hclaim. discriminate.
Qed.

(** The conditions of [missing_headers_throw] are met by a GET request
    answered by status 200 without headers. *)
Lemma logo_without_headers_throws :
  (method_matches_get (method (request logo_without_headers)) = true
   /\ truthy_number (responseStatusCode logo_without_headers) = true
   /\ is_status (responseStatusCode logo_without_headers) 304 = false
   /\ is_redirect (responseStatusCode logo_without_headers) = false
   /\ truthy_string (responseErrorReason logo_without_headers) = false
   /\ URL_new (url (request logo_without_headers))
      = Some {| origin := "https://example.com"; href := "https://example.com/logo.png" |}
   /\ responseHeaders logo_without_headers = None)
  /\ exists w1 k,
      requestPaused logo_without_headers (new_Watcher None)
      = Await w1 (Fetch_getResponseBody (requestId logo_without_headers)) k
      /\ archive w1 = archive (new_Watcher None)
      /\ (forall b w', exists message, k (Fulfilled b) w' = Throw w' (TypeError message))
      /\ (forall e w',
            k (Rejected e) w'
            = Return (record_failure (url (request logo_without_headers)) e w') tt).
Proof.
  split; [repeat split; reflexivity|].
  apply (missing_headers_throw logo_without_headers (new_Watcher None)
           {| origin := "https://example.com"; href := "https://example.com/logo.png" |});
    reflexivity.
Defined.

(** C10 does not hold as stated: an event of the capture branch without
    headers does not always make the handler throw.  When the fetch of
    the body fails, [clientSend] records the failure and the handler
    returns at the test of the result, before the headers are looked at:
    there is no exception. *)
Lemma missing_headers_with_failed_fetch_returns :
  ~ (forall (event : requestPausedPayload) (reply : Reply),
        method_matches_get (method (request event)) = true ->
        truthy_number (responseStatusCode event) = true ->
        is_status (responseStatusCode event) 304 = false ->
        is_redirect (responseStatusCode event) = false ->
        truthy_string (responseErrorReason event) = false ->
        responseHeaders event = None ->
        unhandled (run [event_requestPaused event; event_settled 0 reply] (start None))
        <> []).
Proof.
  intros Hclaim.
  specialize (Hclaim logo_without_headers (reply_error disconnected)).
  vm_compute in Hclaim. apply Hclaim; reflexivity.
Qed.

(** In that session nothing is thrown, the failure is archived under the
    URL of the exchange, and the exchange is not continued: the fetch is
    the one command sent. *)
Example logo_without_headers_and_failed_fetch :
  let s := run [event_requestPaused logo_without_headers;
                event_settled 0 (reply_error disconnected)] (start None) in
  unhandled s = []
  /\ archive (this s) = <["https://example.com/logo.png" := Failed disconnected]> ∅
  /\ sent s = [any_command (Fetch_getResponseBody "2")]
  /\ suspended s = [].
Proof. vm_compute. repeat split. Qed.

(** In a session: the exception is unhandled, nothing is archived, and
    the exchange is not continued (three commands were sent: two for the
    page, the fetch for the logo). *)
Example logo_without_headers_in_session :
  let s := run [event_requestPaused page; event_settled 0 (reply_body png);
                event_settled 0 reply_done;
                event_requestPaused logo_without_headers;
                event_settled 0 (reply_body png)] (start None) in
  unhandled s = [TypeError "Cannot read properties of undefined"]
  /\ archive (this s) = ∅
  /\ List.length (sent s) = 3%nat.
Proof. vm_compute. repeat split. Qed.
End WatcherExampleProps.

(** ** [DOMSnapshot.mapNode] keeps the structure of the tree *)
Module SnapshotProps.
Import DOMSnapshot SnapshotSpec.

(** Induction on a snapshot tree, with the hypothesis for every child. *)
Lemma node_induction (P : serializedNodeWithId -> Prop) :
  (forall i cs, Forall P cs -> P (Document i cs)) ->
  (forall i name publicId systemId, P (DocumentType i name publicId systemId)) ->
  (forall i tag attrs cs, Forall P cs -> P (Element i tag attrs cs)) ->
  (forall i content isStyle, P (Text i content isStyle)) ->
  (forall i, P (CDATA i)) ->
  (forall i content, P (Comment i content)) ->
  forall node, P node.
Proof.
  intros HDoc HType HElem HText HCdata HComment.
  fix IH 1. intros [i cs|i n p s|i tag attrs cs|i c st|i|i c].
  - apply HDoc. induction cs as [|c cs IHcs]; constructor; [apply IH|apply IHcs].
  - apply HType.
  - apply HElem. induction cs as [|c cs IHcs]; constructor; [apply IH|apply IHcs].
  - apply HText.
  - apply HCdata.
  - apply HComment.
Qed.

Lemma same_attributes_refl attrs : same_attributes attrs attrs.
Proof. by split. Qed.

Lemma same_attributes_trans a b c :
  same_attributes a b -> same_attributes b c -> same_attributes a c.
Proof.
  intros [Hd1 Ha1] [Hd2 Ha2]. split; [congruence|].
  intros name Hn. rewrite Ha2, Ha1; done.
Qed.

(** Writing a rewritable attribute that is present. *)
Lemma same_attributes_insert attrs name old new :
  rewritable name -> attrs !! name = Some old ->
  same_attributes attrs (<[name := new]> attrs).
Proof.
  intros Hname Hold. split.
  - rewrite dom_insert_L. apply subseteq_union_1_L, singleton_subseteq_l.
    by apply elem_of_dom_2 in Hold.
  - intros name' Hn'. apply lookup_insert_ne. congruence.
Qed.

Lemma map_src_same sourceMap attrs : same_attributes attrs (map_src sourceMap attrs).
Proof.
  unfold map_src. destruct (attrs !! "src") as [v|] eqn:Hv; [|apply same_attributes_refl].
  destruct (truthy v); [|apply same_attributes_refl].
  destruct (sourceMap !! v); [|apply same_attributes_refl].
  eapply same_attributes_insert; [|done]. by left.
Qed.

Lemma map_css_attribute_same name sourceMap attrs :
  rewritable name -> same_attributes attrs (map_css_attribute name sourceMap attrs).
Proof.
  intros Hname. unfold map_css_attribute.
  destruct (attrs !! name) as [v|] eqn:Hv; [|apply same_attributes_refl].
  destruct (truthy v); [|apply same_attributes_refl].
  by eapply same_attributes_insert.
Qed.

(** Neither pass over a node touches its children. *)
Lemma passes_keep_childNodes node sourceMap :
  childNodes (mapTextElement (mapNodeAttributes node sourceMap) sourceMap)
  = childNodes node.
Proof.
  destruct node as [| | | ? content [] | |]; try reflexivity.
  simpl. by destruct (truthy content).
Qed.

Lemma same_structure_id node node' : same_structure node node' -> id node' = id node.
Proof. by destruct 1. Qed.

Lemma same_structure_type node node' : same_structure node node' -> type node' = type node.
Proof. by destruct 1. Qed.

Lemma same_structure_children node node' :
  same_structure node node' ->
  match childNodes node, childNodes node' with
  | Some cs, Some cs' => Forall2 same_structure cs cs'
  | None, None => True
  | _, _ => False
  end.
Proof. by destruct 1. Qed.

(** C8.  The rewritten tree has the structure of the input.  Node by
    node the kind and the identifier are the same and the children
    correspond one to one, in order; the only things that can differ are
    the attributes src, style and _cssText of an element (every other
    attribute, and the set of attribute names, is the same) and the content
    of a text node flagged as style. *)
Theorem mapNode_same_structure (node : serializedNodeWithId) (sourceMap : gmap string string) :
  same_structure node (mapNode node sourceMap)
  /\ id (mapNode node sourceMap) = id node
  /\ type (mapNode node sourceMap) = type node
  /\ length <$> childNodes (mapNode node sourceMap) = length <$> childNodes node.
Proof.
  assert (same_structure node (mapNode node sourceMap)) as Hsame.
  { induction node as [i cs IH|i n p s|i tag attrs cs IH|i c st|i|i c] using node_induction.
    - simpl. constructor. induction IH; constructor; auto.
    - constructor.
    - simpl. constructor.
      + eapply same_attributes_trans; [apply map_src_same|].
        eapply same_attributes_trans; apply map_css_attribute_same;
          [right; by left|right; by right].
      + induction IH; constructor; auto.
    - destruct st; simpl; [|constructor]. destruct (truthy c); constructor.
    - constructor.
    - constructor. }
  split; [done|]. split; [by apply same_structure_id|].
  split; [by apply same_structure_type|].
  pose proof (same_structure_children _ _ Hsame) as Hc.
  destruct (childNodes node) as [cs|], (childNodes (mapNode node sourceMap)) as [cs'|];
    simpl; try done.
  f_equal. symmetry. by eapply Forall2_length.
Qed.
End SnapshotProps.

(** ** [DOMSnapshot.mapCssUrls] *)
Module CssProps.
Import RegExp DOMSnapshot CssSpec.

Lemma quote_class_spec (c : ascii) : in_class true [squote; dquote] c = is_quote c.
Proof. destruct c as [[] [] [] [] [] [] [] []]; reflexivity. Qed.

Lemma token_class_spec (c : ascii) :
  xorb true (in_class true [squote; dquote; ")"%char] c) = is_token_char c.
Proof. destruct c as [[] [] [] [] [] [] [] []]; reflexivity. Qed.

Lemma close_spec (c : ascii) : char_eq true ")"%char c = is_close c.
Proof. destruct c as [[] [] [] [] [] [] [] []]; reflexivity. Qed.

Lemma token_char_not_quote c : is_token_char c = true -> is_quote c = false.
Proof. unfold is_token_char. destruct (is_quote c); simpl; congruence. Qed.

Lemma token_char_not_close c : is_token_char c = true -> is_close c = false.
Proof. unfold is_token_char. destruct (is_quote c), (is_close c); simpl; congruence. Qed.

Lemma quote_not_close c : is_quote c = true -> is_close c = false.
Proof. destruct c as [[] [] [] [] [] [] [] []]; vm_compute; congruence. Qed.

(** A literal word. *)
Lemma m_word {T} (p x : list ascii) (caps : captures) (k : cont T) :
  m true (seq (List.map Chr p)) x caps k
  = if starts_ci p x then k (drop (length p) x) caps else None.
Proof.
  revert x. induction p as [|a [|b p'] IH]; intros x.
  - reflexivity.
  - destruct x as [|d x']; simpl; [done|].
    rewrite andb_true_r. by rewrite drop_0.
  - change (seq (List.map Chr (a :: b :: p')))
      with (Cat (Chr a) (seq (List.map Chr (b :: p')))).
    destruct x as [|d x']; [done|].
    cbn [m]. cbn [starts_ci]. destruct (char_eq true a d); [|done].
    rewrite IH. reflexivity.
Qed.

Lemma token_span_app (x : list ascii) :
  fst (token_span x) ++ snd (token_span x) = x.
Proof.
  induction x as [|c x IH]; [done|]. simpl.
  destruct (is_token_char c); [|done].
  destruct (token_span x) as [t r]. simpl in *. by rewrite IH.
Qed.

Lemma token_span_take (x : list ascii) :
  take (length x - length (snd (token_span x))) x = fst (token_span x).
Proof.
  pose proof (token_span_app x) as Happ.
  destruct (token_span x) as [t r]. simpl in *. subst x.
  rewrite length_app.
  replace (length t + length r - length r)%nat with (length t) by lia.
  by rewrite take_app_length.
Qed.

Lemma token_span_length (x : list ascii) :
  (length (snd (token_span x)) <= length x)%nat.
Proof. rewrite <- (token_span_app x) at 2. rewrite length_app. lia. Qed.

(** The greedy run of token characters: when what follows cannot start
    with a token character, only the longest run can be followed. *)
Lemma star_token {T} (fuel : nat) (x : list ascii) (caps : captures) (k : cont T) :
  (length x <= fuel)%nat ->
  (forall c y caps', is_token_char c = true -> k (c :: y) caps' = None) ->
  star (m true token_class) fuel x caps k = k (snd (token_span x)) caps.
Proof.
  intros Hfuel Hk. revert x Hfuel.
  induction fuel as [|fuel IH]; intros x Hfuel.
  - destruct x; [done|simpl in Hfuel; lia].
  - destruct x as [|c x']; [done|].
    cbn [star]. unfold token_class at 1. cbn [m].
    rewrite token_class_spec. cbn [token_span].
    destruct (is_token_char c) eqn:Hc; [|done].
    assert ((length x' <? length (c :: x'))%nat = true) as ->
        by (apply Nat.ltb_lt; simpl; lia).
    rewrite IH by (simpl in Hfuel; lia).
    destruct (token_span x') as [t r]. simpl.
    destruct (k r caps); [done|]. by apply Hk.
Qed.

Lemma starts_ci_app (p q x : list ascii) :
  starts_ci (p ++ q) x = starts_ci p x && starts_ci q (drop (length p) x).
Proof.
  revert x. induction p as [|a p IH]; intros x; simpl.
  - by rewrite drop_0.
  - destruct x as [|b x]; [done|]. simpl. rewrite IH. by rewrite andb_assoc.
Qed.

Lemma m_cat_word {T} (p : list ascii) (b : re) (x : list ascii)
      (caps : captures) (k : cont T) :
  m true (Cat (seq (List.map Chr p)) b) x caps k
  = if starts_ci p x then m true b (drop (length p) x) caps k else None.
Proof. cbn [m]. by rewrite m_word. Qed.

Lemma quote_not_d c : is_quote c = true -> char_eq true "d"%char c = false.
Proof. destruct c as [[] [] [] [] [] [] [] []]; vm_compute; congruence. Qed.

Lemma m_Cat {T} (a b : re) (x : list ascii) (caps : captures) (k : cont T) :
  m true (Cat a b) x caps k = m true a x caps (fun y caps' => m true b y caps' k).
Proof. reflexivity. Qed.

(** An optional quote: the quote is tried first. *)
Lemma opt_quote_spec {T} (r : list ascii) (caps : captures) (k : cont T) :
  m true (Opt quote_class) r caps k
  = match r with
    | c :: r' =>
        if is_quote c
        then match k r' caps with Some v => Some v | None => k r caps end
        else k r caps
    | [] => k [] caps
    end.
Proof.
  destruct r as [|c r']; [reflexivity|].
  unfold quote_class. cbn [m]. rewrite quote_class_spec. simpl xorb.
  by destruct (is_quote c).
Qed.

Lemma close_char_spec {T} (y : list ascii) (caps : captures) (k : cont T) :
  m true (Chr ")"%char) y caps k
  = match y with
    | c :: z => if is_close c then k z caps else None
    | [] => None
    end.
Proof. destruct y as [|c z]; [reflexivity|]. cbn [m]. by rewrite close_spec. Qed.

(** The pattern of the lookahead. *)
Lemma lookahead_spec (r : list ascii) (caps : captures) :
  m true (seq [Opt quote_class; word "data"; Chr ":"%char]) r caps (fun _ _ => Some tt)
  = if data_ahead r then Some tt else None.
Proof.
  assert (forall y c,
             m true (Cat (word "data") (Chr ":"%char)) y c (fun _ _ => Some tt)
             = if starts_ci (str "data:") y then Some tt else None) as Hdata.
  { intros y c. unfold word. rewrite m_cat_word.
    change (str "data:") with (list_ascii_of_string "data" ++ [":"%char]).
    rewrite starts_ci_app.
    destruct (starts_ci (list_ascii_of_string "data") y); [|done].
    cbn [m andb]. destruct (drop _ y) as [|d z]; [done|]. simpl.
    rewrite andb_true_r. by destruct (char_eq true ":" d). }
  change (seq [Opt quote_class; word "data"; Chr ":"%char])
    with (Cat (Opt quote_class) (Cat (word "data") (Chr ":"%char))).
  rewrite m_Cat, opt_quote_spec. unfold data_ahead.
  destruct r as [|c r']; [by rewrite Hdata|].
  cbn [strip_quote]. rewrite !Hdata. destruct (is_quote c) eqn:Hq; [|done].
  destruct (starts_ci (str "data:") r'); [done|].
  cbn [starts_ci str list_ascii_of_string]. by rewrite quote_not_d.
Qed.

(** An optional quote and the closing parenthesis. *)
Lemma closing_spec {T} (y : list ascii) (caps : captures) (k : cont T) :
  m true (Cat (Opt quote_class) (Chr ")"%char)) y caps k
  = match strip_quote y with
    | c :: z => if is_close c then k z caps else None
    | [] => None
    end.
Proof.
  rewrite m_Cat, opt_quote_spec. destruct y as [|c z]; [reflexivity|].
  rewrite !close_char_spec. cbn [strip_quote].
  destruct (is_quote c) eqn:Hq; [|done].
  rewrite (quote_not_close c Hq).
  destruct z as [|d z']; [done|]. by destruct (is_close d), (k z' caps).
Qed.

(** Group 1 and what follows it. *)
Lemma token_and_closing_spec {T} (y : list ascii) (k : cont T) :
  m true (Cat (Grp 1 (Star token_class)) (Cat (Opt quote_class) (Chr ")"%char))) y [] k
  = match strip_quote (snd (token_span y)) with
    | c :: z => if is_close c then k z [None; Some (fst (token_span y))] else None
    | [] => None
    end.
Proof.
  rewrite m_Cat.
  change (m true (Grp 1 (Star token_class)) y [] ?k')
    with (star (m true token_class) (length y) y []
            (fun z caps' => k' z (set_capture 1 (take (length y - length z) y) caps'))).
  rewrite star_token; [| done |].
  - rewrite closing_spec, token_span_take. reflexivity.
  - intros c z caps' Hc. rewrite closing_spec. cbn [strip_quote].
    by rewrite (token_char_not_quote c Hc), (token_char_not_close c Hc).
Qed.

(** [CSS_URL_REGEX] tried at the start of [x] finds what [css_match]
    computes. *)
Lemma exec_at_css (x : list ascii) : exec_at true CSS_URL_REGEX x = css_match x.
Proof.
  unfold exec_at, css_match.
  change CSS_URL_REGEX
    with (Cat (word "url")
            (Cat (Chr "("%char)
               (Cat (NotAhead (seq [Opt quote_class; word "data"; Chr ":"%char]))
                  (Cat (Opt quote_class)
                     (Cat (Grp 1 (Star token_class))
                        (Cat (Opt quote_class) (Chr ")"%char))))))).
  unfold word at 1. rewrite m_cat_word.
  change (str "url(") with (list_ascii_of_string "url" ++ ["("%char]).
  rewrite starts_ci_app.
  destruct (starts_ci (list_ascii_of_string "url") x) eqn:Hurl; [|done].
  cbn [andb]. change (length (list_ascii_of_string "url")) with 3%nat.
  destruct (drop 3 x) as [|c4 r] eqn:Hdrop; [done|].
  assert (drop 4 x = r) as ->.
  { change 4%nat with (3 + 1)%nat. rewrite <- drop_drop, Hdrop. by rewrite skipn_cons, drop_0. }
  cbn [starts_ci]. rewrite andb_true_r.
  rewrite m_Cat.
  change (m true (Chr "("%char) (c4 :: r) [] ?k')
    with (if char_eq true "("%char c4 then k' r [] else None).
  destruct (char_eq true "(" c4); [|done].
  rewrite m_Cat.
  change (m true (NotAhead ?a) r [] ?k')
    with (match m true a r [] (fun _ _ => Some tt) with
          | Some _ => None
          | None => k' r []
          end).
  rewrite lookahead_spec. destruct (data_ahead r); [done|].
  rewrite m_Cat, opt_quote_spec.
  destruct r as [|c r'].
  - rewrite token_and_closing_spec. reflexivity.
  - rewrite !token_and_closing_spec. cbn [strip_quote].
    destruct (is_quote c) eqn:Hq; [|by destruct (token_span (c :: r'))].
    assert (is_token_char c = false) as Hc by (unfold is_token_char; by rewrite Hq).
    cbn [token_span]. rewrite Hc. cbn [fst snd strip_quote]. rewrite Hq.
    destruct r' as [|c0 z]; [reflexivity|].
    destruct (is_close c0) eqn:Hclose.
    + assert (is_token_char c0 = false) as Hc0
          by (unfold is_token_char; rewrite Hclose; by destruct (is_quote c0)).
      assert (is_quote c0 = false) as Hq0.
      { destruct (is_quote c0) eqn:E; [|done].
        apply quote_not_close in E. congruence. }
      cbn [token_span]. rewrite Hc0. cbn [fst snd strip_quote].
      by rewrite Hq0, Hclose.
    + destruct (token_span (c0 :: z)) as [t r2]. cbn [fst snd].
      destruct (strip_quote r2) as [|c1 y]; [done|]. by destruct (is_close c1).
Qed.

Lemma split_quote_app (x : list ascii) : fst (split_quote x) ++ snd (split_quote x) = x.
Proof. destruct x as [|c x]; [done|]. simpl. by destruct (is_quote c). Qed.

Lemma split_quote_strip (x : list ascii) : snd (split_quote x) = strip_quote x.
Proof. destruct x as [|c x]; [done|]. simpl. by destruct (is_quote c). Qed.

Lemma split_quote_ok (x : list ascii) : is_quote_or_none (fst (split_quote x)) = true.
Proof. destruct x as [|c x]; [done|]. simpl. by destruct (is_quote c) eqn:E. Qed.

Lemma token_span_tokens (x : list ascii) : forallb is_token_char (fst (token_span x)) = true.
Proof.
  induction x as [|c x IH]; [done|]. simpl.
  destruct (is_token_char c) eqn:Hc; [|done].
  destruct (token_span x) as [t r]. simpl in *. by rewrite Hc.
Qed.

Lemma starts_ci_length (p x : list ascii) :
  starts_ci p x = true -> (length p <= length x)%nat.
Proof.
  revert x. induction p as [|a p IH]; intros [|b x]; simpl; try lia; try done.
  intros [_ H]%andb_true_iff. apply IH in H. lia.
Qed.

Lemma starts_ci_take (p x : list ascii) :
  starts_ci p (take (length p) x) = starts_ci p x.
Proof.
  revert x. induction p as [|a p IH]; intros [|b x]; simpl; try done.
  by rewrite IH.
Qed.

Lemma starts_ci_prefix (p t z : list ascii) :
  starts_ci p t = true -> starts_ci p (t ++ z) = true.
Proof.
  revert t. induction p as [|a p IH]; intros [|b t]; simpl; try done.
  intros [-> H]%andb_true_iff. by rewrite IH.
Qed.

(** What [find_occurrence] finds is canonical and is a prefix of the
    text. *)
Lemma find_occurrence_inv (x : list ascii) (o : occurrence) (y : list ascii) :
  find_occurrence x = Some (o, y) -> canonical o /\ x = text o ++ y.
Proof.
  unfold find_occurrence.
  destruct (starts_ci (str "url(") x) eqn:Hurl; [|done].
  destruct (data_ahead (drop 4 x)) eqn:Hdata; [done|].
  pose proof (split_quote_app (drop 4 x)) as Hq1.
  pose proof (split_quote_ok (drop 4 x)) as Hq1ok.
  pose proof (split_quote_strip (drop 4 x)) as Hstrip.
  destruct (split_quote (drop 4 x)) as [q1 r1]. cbn [fst snd] in *.
  pose proof (token_span_app r1) as Ht.
  pose proof (token_span_tokens r1) as Htok.
  destruct (token_span r1) as [t r2]. cbn [fst snd] in *.
  pose proof (split_quote_app r2) as Hq2.
  pose proof (split_quote_ok r2) as Hq2ok.
  destruct (split_quote r2) as [q2 r3] eqn:Hsplit2. cbn [fst snd] in *.
  destruct r3 as [|c y']; [done|].
  destruct (is_close c) eqn:Hc; [|done].
  intros [= <- <-].
  apply Ascii.eqb_eq in Hc as ->.
  assert (x = take 4 x ++ q1 ++ t ++ q2 ++ ")"%char :: y') as Hx.
  { rewrite <- (take_drop 4 x) at 1. f_equal. congruence. }
  split; [split; [|split]|].
  - repeat split; cbn [opener open_quote token close_quote]; try done.
    + apply starts_ci_length in Hurl. rewrite length_take. simpl in Hurl. lia.
    + change 4%nat with (length (str "url(")). by rewrite starts_ci_take.
  - cbn [token]. unfold data_ahead in Hdata. rewrite <- Hstrip, <- Ht in Hdata.
    destruct (starts_ci (str "data:") t) eqn:E; [|done].
    by rewrite (starts_ci_prefix _ _ _ E) in Hdata.
  - cbn [open_quote token close_quote]. intros -> ->. simpl in *. subst r2.
    destruct r1 as [|c r1']; [by inversion Hsplit2|].
    simpl in Hsplit2. destruct (is_quote c) eqn:Hqc; [|by inversion Hsplit2].
    (* a quote right after the opener would have been taken as opening *)
    rewrite <- Hq1 in Hstrip. simpl in Hstrip. by rewrite Hqc in Hstrip; 
      apply (f_equal length) in Hstrip; simpl in Hstrip; lia.
  - unfold text. cbn [opener open_quote token close_quote].
    rewrite Hx at 1. by rewrite <- !app_assoc.
Qed.

Lemma css_match_find (x : list ascii) :
  css_match x
  = match find_occurrence x with
    | Some (o, y) =>
        Some {| matched := text o; groups := [None; Some (token o)]; rest := y |}
    | None => None
    end.
Proof.
  destruct (find_occurrence x) as [[o y]|] eqn:Hfind.
  - destruct (find_occurrence_inv x o y Hfind) as [_ Hx].
    revert Hfind. unfold find_occurrence, css_match.
    destruct (starts_ci (str "url(") x); [|done].
    destruct (data_ahead (drop 4 x)); [done|].
    rewrite <- (split_quote_strip (drop 4 x)).
    destruct (split_quote (drop 4 x)) as [q1 r1]. cbn [snd].
    destruct (token_span r1) as [t r2].
    rewrite <- (split_quote_strip r2).
    destruct (split_quote r2) as [q2 r3]. cbn [snd].
    destruct r3 as [|c y']; [done|]. destruct (is_close c); [|done].
    intros [= <- <-]. cbn [token]. do 2 f_equal.
    rewrite Hx at 1 2. rewrite length_app.
    replace (length (text _) + length y' - length y')%nat with (length (text
      {| opener := take 4 x; open_quote := q1; token := t; close_quote := q2 |})) by lia.
    by rewrite take_app_length.
  - revert Hfind. unfold find_occurrence, css_match.
    destruct (starts_ci (str "url(") x); [|done].
    destruct (data_ahead (drop 4 x)); [done|].
    rewrite <- (split_quote_strip (drop 4 x)).
    destruct (split_quote (drop 4 x)) as [q1 r1]. cbn [snd].
    destruct (token_span r1) as [t r2].
    rewrite <- (split_quote_strip r2).
    destruct (split_quote r2) as [q2 r3]. cbn [snd].
    destruct r3 as [|c y']; [done|]. by destruct (is_close c).
Qed.

Lemma replace_from_skip (f : list ascii -> captures -> list ascii) (n : nat) (x : list ascii) :
  (n <= length x)%nat ->
  replace_from true CSS_URL_REGEX f n x = replace_from true CSS_URL_REGEX f 0 (drop n x).
Proof.
  revert x. induction n as [|n IH]; intros x Hn.
  - by rewrite drop_0.
  - destruct x as [|c x]; [simpl in Hn; lia|].
    simpl in Hn. cbn [replace_from]. rewrite IH by lia. reflexivity.
Qed.

Lemma text_length (o : occurrence) : well_formed o -> (5 <= length (text o))%nat.
Proof. intros (H4 & _). unfold text. rewrite !length_app, H4. simpl. lia. Qed.

(** One step of the scan. *)
Lemma rewrite_css_step (sourceMap : gmap string string) (x : list ascii) :
  rewrite_css sourceMap x
  = match find_occurrence x with
    | Some (o, y) =>
        replacer sourceMap (text o) [None; Some (token o)] ++ rewrite_css sourceMap y
    | None =>
        match x with
        | [] => []
        | c :: x' => c :: rewrite_css sourceMap x'
        end
    end.
Proof.
  unfold rewrite_css, replace_regexp.
  destruct x as [|c x'].
  - reflexivity.
  - cbn [replace_from]. rewrite exec_at_css, css_match_find.
    destruct (find_occurrence (c :: x')) as [[o y]|] eqn:Hfind; [|done].
    cbn [matched groups]. f_equal.
    destruct (find_occurrence_inv _ o y Hfind) as [[Hwf _] Hx].
    pose proof (text_length o Hwf) as Hlen.
    destruct (length (text o)) as [|n] eqn:Hn; [lia|].
    assert (drop n x' = y) as Hdrop.
    { destruct (text o) as [|c0 t0] eqn:Ht; [done|]. simpl in Hx, Hn.
      injection Hx as _ ->. injection Hn as <-. by rewrite drop_app_length. }
    rewrite replace_from_skip; [by rewrite Hdrop|].
    apply (f_equal length) in Hx. rewrite length_app, Hn in Hx. simpl in Hx. lia.
Qed.

Lemma plain_references_lookup sourceMap k v :
  plain_references sourceMap = true -> sourceMap !! k = Some v ->
  key_ok k = true /\ value_ok v = true.
Proof.
  intros Hall Hkv. unfold plain_references in Hall.
  rewrite forallb_forall in Hall.
  apply elem_of_map_to_list, list_elem_of_In in Hkv.
  by apply Hall, andb_true_iff in Hkv.
Qed.

Lemma image_fixed_lookup sourceMap k v :
  image_fixed sourceMap = true -> sourceMap !! k = Some v -> sourceMap !! v = Some v.
Proof.
  intros Hall Hkv. unfold image_fixed in Hall.
  rewrite forallb_forall in Hall.
  apply elem_of_map_to_list, list_elem_of_In in Hkv.
  apply Hall in Hkv. by apply bool_decide_eq_true in Hkv.
Qed.

Lemma token_span_exact (t z : list ascii) :
  forallb is_token_char t = true ->
  match z with [] => True | c :: _ => is_token_char c = false end ->
  token_span (t ++ z) = (t, z).
Proof.
  intros Ht Hz. induction t as [|a t IH]; simpl in *.
  - destruct z as [|c z]; [done|]. simpl. by rewrite Hz.
  - apply andb_true_iff in Ht as [-> Ht]. by rewrite IH.
Qed.

Lemma not_token_not_data (c : ascii) :
  is_token_char c = false ->
  forallb (fun a => negb (char_eq true a c)) (str "data:") = true.
Proof. destruct c as [[] [] [] [] [] [] [] []]; vm_compute; congruence. Qed.

(** A word none of whose characters can be [c] starts [t ++ c :: z] only
    if it starts [t]. *)
Lemma starts_ci_stop (p t z : list ascii) (c : ascii) :
  forallb (fun a => negb (char_eq true a c)) p = true ->
  starts_ci p (t ++ c :: z) = starts_ci p t.
Proof.
  revert t. induction p as [|a p IH]; intros t Hp; [by destruct t|].
  simpl in Hp. apply andb_true_iff in Hp as [Ha Hp].
  destruct t as [|b t]; simpl.
  - apply negb_true_iff in Ha. by rewrite Ha.
  - by rewrite IH.
Qed.

Lemma quote_or_none_cases (q : list ascii) :
  is_quote_or_none q = true -> q = [] \/ exists c, q = [c] /\ is_quote c = true.
Proof. destruct q as [|c [|d q]]; simpl; eauto; discriminate. Qed.

Lemma quote_not_token c : is_quote c = true -> is_token_char c = false.
Proof. unfold is_token_char. by intros ->. Qed.

Lemma close_not_token c : is_close c = true -> is_token_char c = false.
Proof. unfold is_token_char. intros ->. by rewrite orb_true_r. Qed.

Lemma close_not_quote c : is_close c = true -> is_quote c = false.
Proof. destruct (is_quote c) eqn:E; [|done]. apply quote_not_close in E. congruence. Qed.

(** The text of a canonical occurrence is found again as that
    occurrence, whatever follows it. *)
Lemma find_occurrence_intro (o : occurrence) (y : list ascii) :
  canonical o -> find_occurrence (text o ++ y) = Some (o, y).
Proof.
  intros ((H4 & Hurl & Hq1 & Hq2 & Htok) & Hdata & Hopen).
  destruct o as [op q1 t q2]. cbn [opener open_quote token close_quote] in *.
  unfold find_occurrence, text. cbn [opener open_quote token close_quote].
  rewrite <- !app_assoc. cbn [app].
  set (tail := q2 ++ ")"%char :: y).
  rewrite (starts_ci_prefix _ _ _ Hurl).
  replace (drop 4 (op ++ q1 ++ t ++ tail)) with (q1 ++ t ++ tail)
    by (by rewrite <- H4, drop_app_length).
  replace (take 4 (op ++ q1 ++ t ++ tail)) with op
    by (by rewrite <- H4, take_app_length).
  (* what follows the token starts with a quote or the parenthesis *)
  assert (exists c z, tail = c :: z /\ is_token_char c = false
                      /\ split_quote (c :: z) = (q2, ")"%char :: y))
    as (c & z & Hz & Hc & Hsplit).
  { subst tail. destruct (quote_or_none_cases q2 Hq2) as [->|(c & -> & Hc)].
    - exists ")"%char, y. by repeat split.
    - exists c, (")"%char :: y). repeat split; [by apply quote_not_token|].
      simpl. by rewrite Hc. }
  assert (token_span (t ++ tail) = (t, tail)) as Hspan.
  { apply token_span_exact; [done|]. by rewrite Hz. }
  assert (starts_ci (str "data:") (t ++ tail) = false) as Hno.
  { rewrite Hz, starts_ci_stop; [done|]. by apply not_token_not_data. }
  destruct (quote_or_none_cases q1 Hq1) as [->|(c1 & -> & Hc1)].
  - (* no opening quote: the text after the opener starts with a token
       character or with the parenthesis *)
    assert (split_quote (t ++ tail) = ([], t ++ tail)
            /\ strip_quote (t ++ tail) = t ++ tail) as [Hs1 Hs2].
    { destruct t as [|a t].
      - subst tail. rewrite (Hopen eq_refl eq_refl). by simpl.
      - simpl in Htok. apply andb_true_iff in Htok as [Ha _].
        simpl. by rewrite (token_char_not_quote a Ha). }
    cbn [app]. unfold data_ahead. rewrite Hs2, Hno, Hs1, Hspan, Hz, Hsplit. done.
  - cbn [app]. unfold data_ahead. cbn [strip_quote split_quote]. rewrite Hc1.
    rewrite Hno, Hspan, Hz, Hsplit. done.
Qed.

Lemma split_at_first_unfold (p x : list ascii) :
  split_at_first p x
  = if is_prefix p x then Some ([], drop (length p) x)
    else match x with
         | [] => None
         | c :: x' =>
             match split_at_first p x' with
             | Some (before, after) => Some (c :: before, after)
             | None => None
             end
         end.
Proof. by destruct x. Qed.

Lemma is_prefix_app (u z : list ascii) : is_prefix u (u ++ z) = true.
Proof.
  induction u as [|b u IH]; [done|]. simpl. by rewrite Ascii.eqb_refl, IH.
Qed.

(** The first occurrence of a word whose first character does not occur
    before it. *)
Lemma split_at_first_app (p t s : list ascii) (a : ascii) (t' : list ascii) :
  t = a :: t' ->
  (forall c, c ∈ p -> c <> a) ->
  split_at_first t (p ++ t ++ s) = Some (p, s).
Proof.
  intros -> Hp. induction p as [|c p IH].
  - cbn [app]. rewrite split_at_first_unfold.
    change (a :: t' ++ s) with ((a :: t') ++ s).
    by rewrite is_prefix_app, drop_app_length.
  - rewrite split_at_first_unfold. cbn [app is_prefix].
    assert (Ascii.eqb a c = false) as ->.
    { apply Ascii.eqb_neq. intros ->. by apply (Hp c); [left|]. }
    cbn [andb]. cbn [app] in IH. rewrite IH; [done|]. intros d Hd. apply Hp. by right.
Qed.

Lemma get_substitution_plain (matched before after template : list ascii) :
  no_pattern template = true ->
  get_substitution matched before after template = template.
Proof.
  induction template as [|c t IH]; [done|]. cbn [no_pattern get_substitution].
  intros [Hc Ht]%andb_true_iff. specialize (IH Ht).
  destruct (Ascii.eqb c dollar); [|by rewrite IH].
  destruct t as [|d t']; [done|].
  apply negb_true_iff in Hc.
  apply orb_false_iff in Hc as [[[-> ->]%orb_false_iff ->]%orb_false_iff ->].
  by rewrite IH.
Qed.

Lemma is_prefix_length (p x : list ascii) :
  is_prefix p x = true -> (length p <= length x)%nat.
Proof.
  revert x. induction p as [|a p IH]; intros [|b x]; simpl; try (done || lia).
  intros [_ Hp]%andb_true_iff. apply IH in Hp. lia.
Qed.

Lemma is_prefix_extend (p x z : list ascii) :
  is_prefix p x = true -> is_prefix p (x ++ z) = true.
Proof.
  revert x. induction p as [|a p IH]; intros [|b x]; simpl; try done.
  intros [-> Hp]%andb_true_iff. by apply IH.
Qed.

Lemma is_prefix_extend_false (p x z : list ascii) :
  is_prefix p x = false -> (length p <= length x)%nat -> is_prefix p (x ++ z) = false.
Proof.
  revert x. induction p as [|a p IH]; intros [|b x]; simpl; try (done || lia).
  intros Hp Hlen. destruct (Ascii.eqb a b); [|done]. simpl in *. apply IH; [done|lia].
Qed.

Lemma split_at_first_length (p x b a : list ascii) :
  split_at_first p x = Some (b, a) -> (length p <= length x)%nat.
Proof.
  revert b a. induction x as [|c x IH]; intros b a; rewrite split_at_first_unfold.
  - destruct (is_prefix p []) eqn:E; [|done]. intros _. by apply is_prefix_length.
  - destruct (is_prefix p (c :: x)) eqn:E; [intros _; by apply is_prefix_length|].
    destruct (split_at_first p x) as [[b' a']|] eqn:Ex; [|done].
    intros _. specialize (IH b' a' eq_refl). simpl. lia.
Qed.

(** The first occurrence stays the first when the text goes on. *)
Lemma split_at_first_extend (p x z b a : list ascii) :
  split_at_first p x = Some (b, a) -> split_at_first p (x ++ z) = Some (b, a ++ z).
Proof.
  revert b a. induction x as [|c x IH]; intros b a.
  - rewrite split_at_first_unfold. destruct (is_prefix p []) eqn:E; [|done].
    destruct p; [|done]. intros [= <- <-]. cbn [app]. rewrite split_at_first_unfold.
    by destruct z.
  - rewrite split_at_first_unfold. destruct (is_prefix p (c :: x)) eqn:E.
    + intros [= <- <-]. rewrite split_at_first_unfold, (is_prefix_extend _ _ z E).
      f_equal. f_equal. apply drop_app_le. by apply is_prefix_length.
    + destruct (split_at_first p x) as [[b' a']|] eqn:Ex; [|done].
      intros [= <- <-]. rewrite <- app_comm_cons, split_at_first_unfold.
      rewrite app_comm_cons, (is_prefix_extend_false _ _ z E).
      * by rewrite (IH b' a' eq_refl).
      * apply split_at_first_length in Ex. simpl. lia.
Qed.

Lemma opener_char_cases (c : ascii) :
  (char_eq true "u"%char c = true -> c = "u"%char \/ c = "U"%char)
  /\ (char_eq true "r"%char c = true -> c = "r"%char \/ c = "R"%char)
  /\ (char_eq true "l"%char c = true -> c = "l"%char \/ c = "L"%char)
  /\ (char_eq true "("%char c = true -> c = "("%char).
Proof.
  destruct c as [[] [] [] [] [] [] [] []]; vm_compute;
    repeat split; intros E; try discriminate E; auto.
Qed.

Lemma opener_cases (op : list ascii) :
  length op = 4%nat -> starts_ci (str "url(") op = true -> In op openers.
Proof.
  destruct op as [|c1 [|c2 [|c3 [|c4 [|]]]]]; try discriminate. intros _.
  simpl starts_ci. rewrite andb_true_r.
  intros (H1 & (H2 & (H3 & H4)%andb_true_iff)%andb_true_iff)%andb_true_iff.
  apply (proj1 (opener_char_cases c1)) in H1.
  apply (proj1 (proj2 (opener_char_cases c2))) in H2.
  apply (proj1 (proj2 (proj2 (opener_char_cases c3)))) in H3.
  apply (proj2 (proj2 (proj2 (opener_char_cases c4)))) in H4.
  subst c4. destruct H1 as [-> | ->], H2 as [-> | ->], H3 as [-> | ->];
    unfold openers, str; simpl; tauto.
Qed.

Lemma opening_quote_cases (q : list ascii) :
  is_quote_or_none q = true -> In q opening_quotes.
Proof.
  intros [->|(c & -> & Hc)]%quote_or_none_cases; [by left|].
  apply orb_true_iff in Hc as [->%Ascii.eqb_eq| ->%Ascii.eqb_eq]; simpl; auto.
Qed.

(** In the text of an occurrence, a key that is found at the token is
    found where the token of the occurrence is. *)
Lemma found_at_token_split (o : occurrence) :
  well_formed o ->
  found_at_token (token o) = true ->
  split_at_first (token o) (text o)
  = Some (opener o ++ open_quote o, close_quote o ++ [")"%char]).
Proof.
  intros (H4 & Hurl & Hq1 & _) Hfound. unfold found_at_token in Hfound.
  rewrite forallb_forall in Hfound.
  specialize (Hfound _ (opener_cases _ H4 Hurl)). rewrite forallb_forall in Hfound.
  specialize (Hfound _ (opening_quote_cases _ Hq1)).
  apply bool_decide_eq_true in Hfound.
  apply (split_at_first_extend _ _ (close_quote o ++ [")"%char])) in Hfound.
  unfold text. by rewrite <- !app_assoc in Hfound.
Qed.

Lemma opener_chars (op : list ascii) (c : ascii) :
  length op = 4%nat -> starts_ci (str "url(") op = true ->
  c ∈ op -> head_ok c = false.
Proof.
  destruct op as [|c1 [|c2 [|c3 [|c4 [|]]]]]; try discriminate. intros _.
  simpl. rewrite andb_true_r.
  intros (H1 & (H2 & (H3 & H4)%andb_true_iff)%andb_true_iff)%andb_true_iff Hc.
  unfold head_ok.
  repeat (apply elem_of_cons in Hc as [->|Hc]);
    [rewrite H1|rewrite H2|rewrite H3|rewrite H4|by apply elem_of_nil in Hc];
    by rewrite ?orb_true_r.
Qed.

(** What the replacer returns for an occurrence: the occurrence with its
    token rewritten, when keys and values are plain. *)
Lemma replacer_occurrence (sourceMap : gmap string string) (o : occurrence) :
  plain_references sourceMap = true ->
  well_formed o ->
  replacer sourceMap (text o) [None; Some (token o)]
  = text (with_token (rewrite_token sourceMap (token o)) o).
Proof.
  intros Hplain Hwf. pose proof Hwf as (H4 & Hurl & Hq1 & Hq2 & Htok).
  unfold replacer, rewrite_token. cbn [lookup list_lookup].
  destruct (sourceMap !! string_of_list_ascii (token o)) as [v|] eqn:Hv;
    [|by destruct o].
  destruct (plain_references_lookup _ _ _ Hplain Hv) as [Hk Hval].
  unfold key_ok in Hk. rewrite list_ascii_of_string_of_list_ascii, Htok in Hk.
  cbn [negb orb] in Hk.
  apply andb_true_iff in Hval as [[_ Hpattern]%andb_true_iff _].
  unfold replace_string. rewrite (found_at_token_split o Hwf Hk).
  rewrite get_substitution_plain by done.
  unfold text, with_token. cbn [opener open_quote token close_quote].
  by rewrite <- !app_assoc.
Qed.

Lemma closes_spec (x : list ascii) :
  closes x
  = match split_quote (snd (token_span x)) with
    | (_, c :: _) => is_close c
    | (_, []) => false
    end.
Proof.
  induction x as [|c x IH]; [done|]. cbn [closes token_span].
  destruct (is_token_char c) eqn:Hc.
  - rewrite IH. by destruct (token_span x).
  - cbn [snd split_quote]. destruct (is_quote c) eqn:Hq.
    + by rewrite (quote_not_close c Hq).
    + destruct (is_close c) eqn:Hcl; [done|].
      unfold is_token_char in Hc. by rewrite Hq, Hcl in Hc.
Qed.

Lemma occurs_spec (x : list ascii) :
  occurs x = match find_occurrence x with Some _ => true | None => false end.
Proof.
  unfold occurs, find_occurrence.
  destruct (starts_ci (str "url(") x); [|done].
  destruct (data_ahead (drop 4 x)); [done|]. cbn [andb negb].
  rewrite closes_spec, <- (split_quote_strip (drop 4 x)).
  destruct (split_quote (drop 4 x)) as [q1 r1]. cbn [snd].
  destruct (token_span r1) as [t r2]. cbn [snd].
  destruct (split_quote r2) as [q2 [|c y]]; [done|]. by destruct (is_close c).
Qed.

(** Characters that are the letter u, in either case. *)
Lemma char_eq_u (a c : ascii) :
  char_eq true "u"%char c = true -> char_eq true a c = char_eq true a "u"%char.
Proof.
  unfold char_eq. intros Hu. apply Ascii.eqb_eq in Hu. by rewrite <- Hu.
Qed.

Lemma not_token_not_u (c : ascii) :
  is_token_char c = false -> char_eq true "u"%char c = false.
Proof. destruct c as [[] [] [] [] [] [] [] []]; vm_compute; congruence. Qed.

Lemma opener_tokens (c : ascii) : head_ok c = false -> is_token_char c = true.
Proof. destruct c as [[] [] [] [] [] [] [] []]; vm_compute; congruence. Qed.

Lemma rlp_not_u (c : ascii) :
  char_eq true "r"%char c || char_eq true "l"%char c || char_eq true "("%char c = true ->
  char_eq true "u"%char c = false.
Proof. destruct c as [[] [] [] [] [] [] [] []]; vm_compute; congruence. Qed.

(** A well-formed occurrence starts with the letter u. *)
Lemma text_head (o : occurrence) (z : list ascii) :
  well_formed o ->
  exists c w, text o ++ z = c :: w /\ char_eq true "u"%char c = true.
Proof.
  intros (H4 & Hurl & _). unfold text.
  destruct (opener o) as [|c1 op]; [done|].
  exists c1, (op ++ open_quote o ++ token o ++ close_quote o ++ [")"%char] ++ z).
  split; [by rewrite <- !app_assoc|].
  simpl in Hurl. by apply andb_true_iff in Hurl as [-> _].
Qed.

(** Outside the letter u the two texts go character by character. *)
Lemma well_formed_with_token (o : occurrence) (t' : list ascii) :
  well_formed o -> forallb is_token_char t' = true -> well_formed (with_token t' o).
Proof. intros (? & ? & ? & ? & ?) Ht'. by repeat split. Qed.

Lemma rewritten_inv_r (x y' : list ascii) (c : ascii) :
  rewritten x (c :: y') -> char_eq true "u"%char c = false ->
  exists x', x = c :: x' /\ rewritten x' y'.
Proof.
  intros Hr Hc. remember (c :: y') as y eqn:Ey.
  destruct Hr as [|c0 x0 y0 Hr0|o t' x0 y0 Hwf Ht' Hempty Hr0].
  - discriminate.
  - injection Ey as -> ->. by exists x0.
  - destruct (text_head (with_token t' o) y0) as (c1 & w & E & Hu);
      [by apply well_formed_with_token|].
    rewrite E in Ey. injection Ey as -> _. congruence.
Qed.

Lemma rewritten_inv_l (x' y : list ascii) (c : ascii) :
  rewritten (c :: x') y -> char_eq true "u"%char c = false ->
  exists y', y = c :: y' /\ rewritten x' y'.
Proof.
  intros Hr Hc. remember (c :: x') as x eqn:Ex.
  destruct Hr as [|c0 x0 y0 Hr0|o t' x0 y0 Hwf Ht' Hempty Hr0].
  - discriminate.
  - injection Ex as -> ->. by exists y0.
  - destruct (text_head o x0 Hwf) as (c1 & w & E & Hu).
    rewrite E in Ex. injection Ex as -> _. congruence.
Qed.

Lemma rewritten_nil_r (x : list ascii) : rewritten x [] -> x = [].
Proof.
  intros Hr. remember [] as y eqn:Ey.
  destruct Hr as [|c0 x0 y0 Hr0|o t' x0 y0 Hwf Ht' Hempty Hr0]; [done..|].
  destruct (text_head (with_token t' o) y0) as (c1 & w & E & Hu);
    [by apply well_formed_with_token|].
  congruence.
Qed.

(** A word without the letter u starts both texts or neither. *)
Lemma rewritten_starts (p x y : list ascii) :
  rewritten x y ->
  forallb (fun a => negb (char_eq true a "u"%char)) p = true ->
  starts_ci p x = starts_ci p y.
Proof.
  intros Hr. revert p.
  induction Hr as [|c x y Hr IH|o t' x y Hwf Ht' Hempty Hr IH]; intros p Hp.
  - done.
  - destruct p as [|a p]; [done|]. simpl in *.
    apply andb_true_iff in Hp as [_ Hp]. by rewrite IH.
  - destruct p as [|a p]; [done|]. simpl in Hp.
    apply andb_true_iff in Hp as [Ha _]. apply negb_true_iff in Ha.
    assert (well_formed (with_token t' o)) as Hwf'
        by (by apply well_formed_with_token).
    destruct (text_head o x Hwf) as (c1 & w & -> & Hu).
    destruct (text_head (with_token t' o) y Hwf') as (c2 & w' & -> & Hu').
    simpl. by rewrite (char_eq_u a c1 Hu), (char_eq_u a c2 Hu'), Ha.
Qed.

Lemma rewritten_data_ahead (x y : list ascii) :
  rewritten x y -> data_ahead x = data_ahead y.
Proof.
  intros Hr. unfold data_ahead.
  assert (forallb (fun a => negb (char_eq true a "u"%char)) (str "data:") = true)
    as Hp by reflexivity.
  destruct Hr as [|c x y Hr|o t' x y Hwf Ht' Hempty Hr].
  - done.
  - cbn [strip_quote]. destruct (is_quote c).
    + by apply rewritten_starts.
    + apply rewritten_starts; [by constructor|done].
  - assert (well_formed (with_token t' o)) as Hwf'
        by (by apply well_formed_with_token).
    pose proof (rewritten_occurrence o t' x y Hwf Ht' Hempty Hr) as Hocc.
    destruct (text_head o x Hwf) as (c1 & w & E & Hu).
    destruct (text_head (with_token t' o) y Hwf') as (c2 & w' & E' & Hu').
    rewrite E, E' in *. cbn [strip_quote].
    assert (forall c, char_eq true "u"%char c = true -> is_quote c = false) as Hnq.
    { intros c Hc. destruct (is_quote c) eqn:Hq; [|done].
      apply quote_not_token, not_token_not_u in Hq. congruence. }
    rewrite (Hnq c1 Hu), (Hnq c2 Hu'). by apply rewritten_starts.
Qed.

Lemma closes_tokens (t z : list ascii) :
  forallb is_token_char t = true -> closes (t ++ z) = closes z.
Proof.
  induction t as [|a t IH]; [done|]. simpl.
  intros [-> Ht]%andb_true_iff. by apply IH.
Qed.

(** Whether the text of an occurrence closes, seen from an opener that
    comes before it. *)
Lemma closes_text (o : occurrence) (z : list ascii) :
  well_formed o ->
  closes (text o ++ z)
  = match open_quote o, token o, close_quote o with
    | [], _, _ => true
    | _, [], [] => true
    | _, _, _ => false
    end.
Proof.
  intros (H4 & Hurl & Hq1 & Hq2 & Htok). unfold text. rewrite <- !app_assoc.
  rewrite closes_tokens.
  2:{ apply forallb_forall. intros c Hc. apply opener_tokens.
      apply (opener_chars (opener o)); [done..|]. by apply list_elem_of_In. }
  assert (closes (close_quote o ++ [")"%char] ++ z) = true) as Hclose.
  { destruct (quote_or_none_cases _ Hq2) as [->|(q & -> & Hq)]; [done|].
    simpl. by rewrite (quote_not_token q Hq), (quote_not_close q Hq). }
  destruct (quote_or_none_cases _ Hq1) as [->|(q & -> & Hq)].
  - cbn [app]. by rewrite closes_tokens.
  - cbn [app closes]. rewrite (quote_not_token q Hq), (quote_not_close q Hq).
    destruct (token o) as [|a t].
    + destruct (quote_or_none_cases _ Hq2) as [->|(q2 & -> & Hq2')]; [done|].
      simpl. by rewrite (quote_not_close q2 Hq2').
    + simpl in Htok. apply andb_true_iff in Htok as [Ha _].
      cbn [app]. by rewrite (token_char_not_close a Ha).
Qed.

Lemma rewritten_closes (x y : list ascii) :
  rewritten x y -> closes y = true -> closes x = true.
Proof.
  induction 1 as [|c x y Hr IH|o t' x y Hwf Ht' Hempty Hr IH]; [done| |].
  - cbn [closes]. destruct (is_token_char c); [done|].
    destruct (is_close c); [done|].
    destruct y as [|d y']; [done|]. intros Hd.
    destruct (rewritten_inv_r x y' d Hr) as (x' & -> & _); [|done].
    by apply not_token_not_u, close_not_token.
  - assert (well_formed (with_token t' o)) as Hwf'
        by (by apply well_formed_with_token).
    rewrite !closes_text by done. cbn [open_quote token close_quote with_token].
    destruct (open_quote o) as [|q qs]; [done|].
    destruct t' as [|a t']; [|done]. by rewrite (Hempty eq_refl).
Qed.

(** Where the rewritten text has an occurrence at a position the scan
    passed character by character, the original had one. *)
Lemma rewritten_occurs (c : ascii) (x y : list ascii) :
  rewritten x y -> occurs (c :: y) = true -> occurs (c :: x) = true.
Proof.
  intros Hr. unfold occurs.
  intros [[Hurl Hdata]%andb_true_iff Hcl]%andb_true_iff.
  destruct y as [|c2 [|c3 [|c4 r']]]; try done.
  cbn [starts_ci str list_ascii_of_string] in Hurl.
  apply andb_true_iff in Hurl as [H1 Hurl].
  apply andb_true_iff in Hurl as [H2 Hurl].
  apply andb_true_iff in Hurl as [H3 Hurl].
  apply andb_true_iff in Hurl as [H4 _].
  destruct (rewritten_inv_r _ _ _ Hr) as (x2 & -> & Hr2);
    [apply rlp_not_u; by rewrite H2|].
  destruct (rewritten_inv_r _ _ _ Hr2) as (x3 & -> & Hr3);
    [apply rlp_not_u; by rewrite H3, orb_true_r|].
  destruct (rewritten_inv_r _ _ _ Hr3) as (r & -> & Hr4);
    [apply rlp_not_u; by rewrite H4, !orb_true_r|].
  cbn [starts_ci str list_ascii_of_string]. rewrite H1, H2, H3, H4. cbn [andb].
  change (drop 4 (c :: c2 :: c3 :: c4 :: ?z)) with z in *.
  rewrite (rewritten_data_ahead r r' Hr4), Hdata. cbn [andb].
  destruct r' as [|d r1'].
  - by rewrite (rewritten_nil_r r Hr4).
  - cbn [strip_quote] in Hcl. destruct (is_quote d) eqn:Hq.
    + destruct (rewritten_inv_r _ _ _ Hr4) as (r1 & -> & Hr5);
        [by apply not_token_not_u, quote_not_token|].
      cbn [strip_quote]. rewrite Hq. by apply (rewritten_closes r1 r1').
    + assert (strip_quote r = r) as ->; [|by apply (rewritten_closes r (d :: r1'))].
      destruct r as [|e r1]; [done|]. cbn [strip_quote].
      destruct (is_quote e) eqn:Hqe; [|done].
      destruct (rewritten_inv_l _ _ _ Hr4) as (y' & [= -> _] & _);
        [by apply not_token_not_u, quote_not_token|congruence].
Qed.

Section Rewrite.
Variable sourceMap : gmap string string.
Hypothesis Hfixed : image_fixed sourceMap = true.
Hypothesis Hplain : plain_references sourceMap = true.

(** The token after the rewrite is a token again; it is empty only if it
    was; it does not start with the data scheme if it did not; and the
    rewrite leaves it alone. *)
Lemma rewrite_token_ok (t : list ascii) :
  forallb is_token_char t = true ->
  forallb is_token_char (rewrite_token sourceMap t) = true
  /\ (rewrite_token sourceMap t = [] -> t = [])
  /\ (starts_ci (str "data:") t = false ->
      starts_ci (str "data:") (rewrite_token sourceMap t) = false)
  /\ rewrite_token sourceMap (rewrite_token sourceMap t) = rewrite_token sourceMap t.
Proof.
  intros Ht. unfold rewrite_token.
  destruct (sourceMap !! string_of_list_ascii t) as [v|] eqn:Hv.
  - pose proof (image_fixed_lookup _ _ _ Hfixed Hv) as Hvv.
    destruct (plain_references_lookup _ _ _ Hplain Hv) as [_ Hval].
    destruct (plain_references_lookup _ _ _ Hplain Hvv) as [Hkey _].
    apply andb_true_iff in Hval as [[Hchars _]%andb_true_iff Hdata].
    repeat split.
    + done.
    + intros E. unfold key_ok in Hkey. by rewrite E in Hkey.
    + intros _. by apply negb_true_iff.
    + by rewrite string_of_list_ascii_of_string, Hvv.
  - repeat split; try done. by rewrite Hv.
Qed.

Lemma rewrite_css_rewritten (x : list ascii) : rewritten x (rewrite_css sourceMap x).
Proof.
  remember (length x) as n eqn:Hn. revert x Hn.
  induction n as [n IH] using lt_wf_ind. intros x ->.
  rewrite rewrite_css_step.
  destruct (find_occurrence x) as [[o y]|] eqn:Hfind.
  - destruct (find_occurrence_inv x o y Hfind) as [[Hwf _] ->].
    rewrite replacer_occurrence by done.
    destruct Hwf as (H4 & Hurl & Hq1 & Hq2 & Htok).
    destruct (rewrite_token_ok (token o) Htok) as (Ht' & Hempty & _).
    apply rewritten_occurrence; [by repeat split|done..|].
    eapply IH; [|reflexivity].
    rewrite length_app. unfold text. rewrite !length_app, H4. lia.
  - destruct x as [|c x']; constructor. eapply IH; [|reflexivity]. simpl. lia.
Qed.

(** The rewrite of a text leaves its own result alone. *)
Lemma rewrite_css_idempotent (x : list ascii) :
  rewrite_css sourceMap (rewrite_css sourceMap x) = rewrite_css sourceMap x.
Proof.
  remember (length x) as n eqn:Hn. revert x Hn.
  induction n as [n IH] using lt_wf_ind. intros x ->.
  rewrite (rewrite_css_step sourceMap x).
  destruct (find_occurrence x) as [[o y]|] eqn:Hfind.
  - destruct (find_occurrence_inv x o y Hfind) as [(Hwf & Hdata & Hopen) ->].
    rewrite replacer_occurrence by done.
    pose proof Hwf as (H4 & Hurl & Hq1 & Hq2 & Htok).
    destruct (rewrite_token_ok (token o) Htok) as (Ht' & Hempty & Hdata' & Hidem).
    set (o' := with_token (rewrite_token sourceMap (token o)) o).
    assert (canonical o') as Hcan.
    { split; [by apply well_formed_with_token|]. split; [by apply Hdata'|].
      cbn [o' with_token open_quote token close_quote].
      intros Ho Ht. by apply Hopen, Hempty. }
    rewrite rewrite_css_step, (find_occurrence_intro o' _ Hcan).
    rewrite replacer_occurrence by (done || apply Hcan).
    cbn [o' with_token opener open_quote token close_quote]. rewrite Hidem.
    f_equal. eapply IH; [|reflexivity].
    rewrite length_app. unfold text. rewrite !length_app, H4. lia.
  - destruct x as [|c x']; [done|].
    rewrite rewrite_css_step.
    assert (find_occurrence (c :: rewrite_css sourceMap x') = None) as ->.
    { destruct (find_occurrence (c :: rewrite_css sourceMap x')) eqn:E; [|done].
      pose proof (rewritten_occurs c x' _ (rewrite_css_rewritten x')) as Hocc.
      rewrite !occurs_spec, E, Hfind in Hocc. by specialize (Hocc eq_refl). }
    f_equal. eapply IH; [|reflexivity]. simpl. lia.
Qed.

Lemma mapCssUrls_rewrite_css (cssText : string) :
  mapCssUrls cssText sourceMap
  = string_of_list_ascii (rewrite_css sourceMap (list_ascii_of_string cssText)).
Proof. reflexivity. Qed.

Lemma mapCssUrls_idempotent (cssText : string) :
  mapCssUrls (mapCssUrls cssText sourceMap) sourceMap = mapCssUrls cssText sourceMap.
Proof.
  rewrite !mapCssUrls_rewrite_css, list_ascii_of_string_of_list_ascii.
  by rewrite rewrite_css_idempotent.
Qed.

End Rewrite.
End CssProps.

(** ** Rewriting twice *)
Module Idempotence.
Import RegExp DOMSnapshot SnapshotSpec SnapshotProps SnapshotExamples CssSpec CssProps.

Lemma map_src_update sourceMap attrs :
  map_src sourceMap attrs = update_attribute "src" (map_reference sourceMap) attrs.
Proof.
  unfold map_src, update_attribute, map_reference.
  destruct (attrs !! "src") as [v|] eqn:Hv; [|done].
  destruct (truthy v); [|done].
  destruct (sourceMap !! v); [done|]. simpl. by rewrite insert_id.
Qed.

Lemma map_css_attribute_update name sourceMap attrs :
  map_css_attribute name sourceMap attrs
  = update_attribute name (fun v => mapCssUrls v sourceMap) attrs.
Proof. reflexivity. Qed.

Lemma update_attribute_lookup_ne name name' f attrs :
  name <> name' -> update_attribute name f attrs !! name' = attrs !! name'.
Proof.
  intros Hne. unfold update_attribute.
  destruct (attrs !! name) as [v|]; [|done].
  destruct (truthy v); [|done]. by rewrite lookup_insert_ne.
Qed.

Lemma update_attribute_comm name1 name2 f g attrs :
  name1 <> name2 ->
  update_attribute name1 f (update_attribute name2 g attrs)
  = update_attribute name2 g (update_attribute name1 f attrs).
Proof.
  intros Hne. unfold update_attribute at 1 3.
  rewrite !update_attribute_lookup_ne by done.
  unfold update_attribute.
  destruct (attrs !! name1) as [v1|]; [|done].
  destruct (attrs !! name2) as [v2|]; [|done].
  destruct (truthy v1), (truthy v2); try done.
  by apply insert_insert_ne.
Qed.

Lemma update_attribute_idempotent name f attrs :
  (forall v, f (f v) = f v) ->
  update_attribute name f (update_attribute name f attrs) = update_attribute name f attrs.
Proof.
  intros Hf. unfold update_attribute.
  destruct (attrs !! name) as [v|] eqn:Hv; [|by rewrite Hv].
  destruct (truthy v) eqn:Htruthy; [|by rewrite Hv, Htruthy].
  rewrite lookup_insert_eq.
  destruct (truthy (f v)); [|done]. by rewrite insert_insert_eq, Hf.
Qed.

Section Idempotent.
Variable sourceMap : gmap string string.
Hypothesis Hfixed : image_fixed sourceMap = true.
Hypothesis Hplain : plain_references sourceMap = true.



Lemma mapTextElement_idempotent (node : serializedNodeWithId) :
  mapTextElement (mapTextElement node sourceMap) sourceMap = mapTextElement node sourceMap.
Proof.
  destruct node as [| | |i content [|]| |]; try done. simpl.
  destruct (truthy content) eqn:Hc; simpl.
  - destruct (truthy (mapCssUrls content sourceMap)); [|done].
    by rewrite mapCssUrls_idempotent.
  - by rewrite Hc.
Qed.

End Idempotent.



(** Keys that start with a letter of the opener are plain as long as the
    opener does not hold them; a dollar sign is plain as long as it starts
    no replacement pattern. *)
Example logos_are_plain :
  image_fixed logos = true /\ plain_references logos = true
  /\ mapCssUrls "a { background: url(logo.png) } b { background: URL('rates.svg') }" logos
     = "a { background: url(./archive/logo.png) } b { background: URL('./archive/rates$1.svg') }".
Proof. repeat split; vm_compute; reflexivity. Qed.

(** The keys that are not plain: the empty key, a piece of the opener, a
    repeated end of the opener. *)
Example keys_the_replacer_misses :
  key_ok EmptyString = false /\ key_ok "u" = false /\ key_ok "RL(" = false
  /\ key_ok "l(l" = false /\ key_ok "url(url(u" = false
  /\ key_ok "l" = false /\ key_ok "l(a" = true /\ key_ok "url" = false
  /\ key_ok "urls/a.png" = true.
Proof. repeat split; vm_compute; reflexivity. Qed.

(** What the rewrite makes of the page: the reference of the image, the
    inline style and the style text are retargeted, the plain text is
    not. *)
Example sample_rewritten :
  mapNode sample archived
  = Document 1
    [ Element 2 "div" (<["style" := "background: url('./archive/a.png')"]> ∅)
        [ Element 3 "img" (<["src" := "./archive/a.png"]> (<["alt" := "a"]> ∅)) [];
          Text 4 "b { background: URL(./archive/a.png) }" true;
          Text 5 "url(http://x/a.png)" false ] ].
Proof. vm_compute. reflexivity. Qed.

End Idempotence.

(** ** The CSS substitution on concrete texts *)
Module CssExamples.
Import RegExp DOMSnapshot SnapshotExamples.

(** The example of the specification. *)
Example quoted_reference_is_retargeted :
  mapCssUrls "background: url('http://x/a.png')"
             (<["http://x/a.png" := "./archive/a.png"]> ∅)
  = "background: url('./archive/a.png')".
Proof. vm_compute. reflexivity. Qed.

(** Inline data is left alone, whatever the map holds; the opener is
    matched in either case; a reference that is not a key stays. *)
Example data_and_unknown_references_stay :
  mapCssUrls "a{x:url(data:image/png;base64,AAAA)} b{x:URL(http://x/a.png)} c{x:url(c.png)}"
             (<["http://x/a.png" := "./archive/a.png"]>
                (<["data:image/png;base64,AAAA" := "./archive/b.png"]> ∅))
  = "a{x:url(data:image/png;base64,AAAA)} b{x:URL(./archive/a.png)} c{x:url(c.png)}".
Proof. vm_compute. reflexivity. Qed.

(** C5.  The replacer does not replace the captured token: it replaces the
    first place in the match where the text of the token occurs, and it
    expands the mapped value as a replacement template.  Three texts on
    which this shows: a token that occurs in the opener (the letter u of
    url is replaced, the token stays); an empty token (the mapped value is
    put in front of the match); a mapped value with a dollar sign followed
    by an ampersand (the token takes the place of the two characters). *)
Theorem replacer_misses_the_token :
  mapCssUrls "a { background: url(u) }" (<["u" := "./archive/u"]> ∅)
  = "a { background: ./archive/url(u) }"
  /\ mapCssUrls "a { background: url() }" (<[EmptyString := "./archive/index"]> ∅)
     = "a { background: ./archive/indexurl() }"
  /\ mapCssUrls "a { background: url(/a.png) }" (<["/a.png" := "/archive/a$&.png"]> ∅)
     = "a { background: url(/archive/a/a.png.png) }".
Proof. repeat split; vm_compute; reflexivity. Qed.

(** A reference nested in inline data is rewritten, although the
    occurrence around it starts with the data scheme. *)
Example reference_inside_data_is_rewritten :
  mapCssUrls "url(data:image/svg+xml,url(a.png))" (<["a.png" := "./archive/a.png"]> ∅)
  = "url(data:image/svg+xml,url(./archive/a.png))".
Proof. vm_compute. reflexivity. Qed.

End CssExamples.

(** * More properties *)

Module HandlerProps.
Import ResourceArchive WatcherSpec WatcherProps HandlerSpec.

Section Handler.
Context `{Platform}.

Ltac enter event :=
  destruct event as [id req code text reason headers]; simpl in *;
  unfold requestPaused.

(* the steps of the handler of a GET event from [new URL] to the log line *)
Ltac classify Hu w :=
  unfold bind at 1, new_URL; rewrite Hu; simpl;
  unfold bind at 1, firstUrl_init, classified, from_allowed_domain;
  unfold set_firstUrl_field, set_logger_field;
  destruct (firstUrl w) as [f|] eqn:Hf; simpl;
  unfold bind at 1, this_firstUrl; simpl; rewrite ?Hf; simpl;
  unfold bind at 1, this_allowedArchiveOrigins; simpl;
  unfold bind at 1, logger_log; simpl;
  unfold set_firstUrl_field, set_logger_field; simpl; rewrite ?Hf.

(** X1.  A GET event that pauses at the request stage (no status, no error
    reason, a URL that parses) is logged as a request and continued with
    [interceptResponse], so that the exchange pauses again at the
    response; the handler then returns, and only a failure of the command
    writes to the archive. *)
Theorem request_stage_asks_for_response
        (event : requestPausedPayload) (w : Watcher) (u : URL) :
  method_matches_get (method (request event)) = true ->
  truthy_number (responseStatusCode event) = false ->
  is_status (responseStatusCode event) 304 = false ->
  truthy_string (responseErrorReason event) = false ->
  URL_new (url (request event)) = Some u ->
  exists k,
    requestPaused event w
    = Await (classified event u w) (Fetch_continueRequest (requestId event) true) k
    /\ (forall v w', k (Fulfilled v) w' = Return w' tt)
    /\ (forall e w',
          k (Rejected e) w' = Return (record_failure (url (request event)) e w') tt).
Proof.
  intros Hm Ht H304 He Hu. enter event. rewrite Hm, H304. simpl.
  classify Hu w.
  all: rewrite He, Ht.
  all: match goal with
       | |- context [bind (clientSend ?r ?c) ?f ?w] =>
           destruct (continue_and_return r id true w) as (k & -> & Hok & Herr)
       end.
  all: exists k; split; [reflexivity|]; by split.
Qed.

(** X2.  A GET event with status 304 is continued at once: the URL is not
    parsed, [firstUrl] is not set, nothing is logged, and no second pause
    is asked for. *)
Theorem not_modified_is_continued_untouched
        (event : requestPausedPayload) (w : Watcher) :
  method_matches_get (method (request event)) = true ->
  is_status (responseStatusCode event) 304 = true ->
  exists k,
    requestPaused event w
    = Await w (Fetch_continueRequest (requestId event) false) k
    /\ (forall v w', k (Fulfilled v) w' = Return w' tt)
    /\ (forall e w',
          k (Rejected e) w' = Return (record_failure (url (request event)) e w') tt).
Proof.
  intros Hm H304. enter event. rewrite Hm, H304. simpl. apply continue_and_return.
Qed.

(** X3.  A GET event with an error reason, a status other than 304 (or
    none) and a URL that parses is logged twice (the line of the event,
    then the reason) and continued without a second pause; the body is
    not fetched, also when a status is there. *)
Theorem error_response_is_logged_and_continued
        (event : requestPausedPayload) (w : Watcher) (u : URL) (errorReason : string) :
  method_matches_get (method (request event)) = true ->
  is_status (responseStatusCode event) 304 = false ->
  responseErrorReason event = Some errorReason ->
  errorReason <> EmptyString ->
  URL_new (url (request event)) = Some u ->
  exists k,
    requestPaused event w
    = Await (set_logger_field
               (logger (classified event u w) ++ [log_response_error errorReason])
               (classified event u w))
            (Fetch_continueRequest (requestId event) false) k
    /\ (forall v w', k (Fulfilled v) w' = Return w' tt)
    /\ (forall e w',
          k (Rejected e) w' = Return (record_failure (url (request event)) e w') tt).
Proof.
  intros Hm H304 He Hne Hu. enter event. subst reason. rewrite Hm, H304. simpl.
  destruct errorReason as [|c0 rest]; [done|].
  classify Hu w.
  all: unfold bind at 1, logger_log; simpl.
  all: match goal with
       | |- context [bind (clientSend ?r ?c) ?f ?w] =>
           destruct (continue_and_return r id false w) as (k & -> & Hok & Herr)
       end.
  all: exists k; split; [reflexivity|]; by split.
Qed.

(** X4.  A GET event with a final status (not 304, not a redirect), no
    error reason and headers: the body is fetched; when it arrives, the
    entry is written exactly if the origin test made BEFORE the fetch
    passed and the URL differs from [firstUrl] as it is AFTER the fetch;
    then the exchange is continued.  A failed fetch is recorded and the
    exchange is not continued. *)
Theorem final_response_is_captured_if_eligible
        (event : requestPausedPayload) (w : Watcher) (u : URL)
        (hs : list HeaderEntry) :
  method_matches_get (method (request event)) = true ->
  truthy_number (responseStatusCode event) = true ->
  is_status (responseStatusCode event) 304 = false ->
  is_redirect (responseStatusCode event) = false ->
  truthy_string (responseErrorReason event) = false ->
  URL_new (url (request event)) = Some u ->
  responseHeaders event = Some hs ->
  exists k,
    requestPaused event w
    = Await (classified event u w) (Fetch_getResponseBody (requestId event)) k
    /\ (forall e w',
          k (Rejected e) w' = Return (record_failure (url (request event)) e w') tt)
    /\ (forall b w' first,
          firstUrl w' = Some first ->
          exists k',
            k (Fulfilled b) w'
            = Await (if from_allowed_domain w u (default u (firstUrl w))
                        && negb (String.eqb (href u) (href first))
                     then set_archive_field
                            (<[url (request event) := captured_response event hs b]>
                               (archive w')) w'
                     else w')
                    (Fetch_continueRequest (requestId event) false) k'
            /\ (forall v w'', k' (Fulfilled v) w'' = Return w'' tt)
            /\ (forall e w'',
                  k' (Rejected e) w''
                  = Return (record_failure (url (request event)) e w'') tt)).
Proof.
  intros Hm Ht H304 Hr He Hu Hh. enter event. subst headers.
  rewrite Hm, H304. simpl.
  classify Hu w.
  all: rewrite He, Ht, Hr.
  all: match goal with
       | |- context [bind (clientSend ?r ?c) ?f ?w] =>
           destruct (clientSend_bind r c f w) as (k & -> & Hok & Herr)
       end.
  all: exists k; split; [reflexivity|]; split; [intros e w'; by rewrite Herr|].
  all: intros [b b64] w' first Hfirst; rewrite Hok.
  all: unfold bind at 1, ret at 1; simpl.
  all: unfold bind at 1, this_firstUrl; rewrite Hfirst; simpl.
  all: unfold from_allowed_domain, captured_response; simpl.
  all: match goal with
       | |- context [if ?c then archive_set _ _ else ret tt] => destruct c
       end.
  all: unfold bind at 1, archive_set, ret at 1; cbn [bind_async andb].
  all: match goal with
       | |- context [bind (clientSend ?r ?c) ?f ?w] =>
           destruct (clientSend_bind r c f w) as (k' & -> & Hok' & Herr')
       end.
  all: exists k'; split; [reflexivity|]; split; [exact Hok'|exact Herr'].
Qed.

(** X5.  Every GET event without status 304 whose URL parses reaches a
    command, and by then [firstUrl] is the URL of the event unless it was
    set before; the archive and the allowed origins are untouched. *)
Theorem first_get_event_sets_firstUrl
        (event : requestPausedPayload) (w : Watcher) (u : URL) :
  method_matches_get (method (request event)) = true ->
  is_status (responseStatusCode event) 304 = false ->
  URL_new (url (request event)) = Some u ->
  exists (R : Type) (w1 : Watcher) (c : Command R) k,
    requestPaused event w = Await w1 c k
    /\ firstUrl w1 = Some (default u (firstUrl w))
    /\ archive w1 = archive w
    /\ allowedArchiveOrigins w1 = allowedArchiveOrigins w.
Proof.
  intros Hm H304 Hu. enter event. rewrite Hm, H304. simpl.
  classify Hu w.
  all: destruct (truthy_string reason);
    [unfold bind at 1, logger_log; simpl|
     destruct (truthy_number code); [destruct (is_redirect code)|]].
  all: match goal with
       | |- context [bind (clientSend ?r ?c) ?f ?w] =>
           destruct (clientSend_bind r c f w) as (k & -> & _)
       end.
  all: eexists _, _, _, k; split; [reflexivity|]; by repeat split.
Qed.

(** X6.  A GET event without status 304 whose URL does not parse makes the
    handler throw before it sends anything: the exchange is never
    continued, nothing is logged or archived, and the rejection is not
    handled. *)
Theorem invalid_url_throws_before_any_command
        (event : requestPausedPayload) (s : Session) :
  method_matches_get (method (request event)) = true ->
  is_status (responseStatusCode event) 304 = false ->
  URL_new (url (request event)) = None ->
  step s (event_requestPaused event)
  = {| this := this s; suspended := suspended s; sent := sent s;
       unhandled := unhandled s ++ [TypeError "Invalid URL"] |}.
Proof.
  intros Hm H304 Hu. cbn [step]. enter event. rewrite Hm, H304. simpl.
  unfold bind at 1, new_URL. rewrite Hu. reflexivity.
Qed.

(** X7.  When the URL parses, the headers are there and every command
    succeeds, the handler sends [Fetch.continueRequest] exactly once, as
    its last command, and returns; the only other command is the fetch of
    the body, sent for a final response alone.  The table gives the
    commands for each kind of event. *)
Theorem exchange_is_continued_exactly_once
        (event : requestPausedPayload) (w : Watcher) (u : URL)
        (hs : list HeaderEntry) (b : ResponseBody) :
  URL_new (url (request event)) = Some u ->
  responseHeaders event = Some hs ->
  commands_when_fulfilled b (requestPaused event w)
  = (if negb (method_matches_get (method (request event)))
        || is_status (responseStatusCode event) 304
        || truthy_string (responseErrorReason event)
     then [any_command (Fetch_continueRequest (requestId event) false)]
     else if truthy_number (responseStatusCode event) then
       if is_redirect (responseStatusCode event)
       then [any_command (Fetch_continueRequest (requestId event) true)]
       else [any_command (Fetch_getResponseBody (requestId event));
             any_command (Fetch_continueRequest (requestId event) false)]
     else [any_command (Fetch_continueRequest (requestId event) true)],
     None).
Proof.
  intros Hu Hh. enter event. subst headers.
  assert (forall flag w0,
             commands_when_fulfilled b
               (bind (clientSend req (Fetch_continueRequest id flag)) (fun _ => ret tt) w0)
             = ([any_command (Fetch_continueRequest id flag)], None)) as Hcont.
  { intros flag w0.
    destruct (continue_and_return req id flag w0) as (k & -> & Hok & _).
    cbn [commands_when_fulfilled fulfil_with]. by rewrite Hok. }
  destruct (negb (method_matches_get (method req))); [exact (Hcont _ _)|].
  destruct (is_status code 304); [exact (Hcont _ _)|]. cbn [orb].
  classify Hu w.
  all: destruct (truthy_string reason);
    [unfold bind at 1, logger_log; cbn [bind_async]; exact (Hcont _ _)|].
  all: destruct (truthy_number code); [|exact (Hcont _ _)].
  all: destruct (is_redirect code); [exact (Hcont _ _)|].
  all: match goal with
       | |- context [bind (clientSend ?r ?c) ?f ?w] =>
           destruct (clientSend_bind r c f w) as (k & -> & Hok & _)
       end.
  all: cbn [commands_when_fulfilled fulfil_with]; rewrite Hok.
  all: destruct b as [b0 b64].
  all: unfold bind at 1, ret at 1; cbn [bind_async].
  all: unfold bind at 1, this_firstUrl; cbn [firstUrl bind_async].
  all: match goal with
       | |- context [if ?c then archive_set _ _ else ret tt] => destruct c
       end.
  all: unfold bind at 1, archive_set; try unfold ret at 1; cbn [bind_async].
  all: by rewrite (Hcont false).
Qed.
End Handler.
End HandlerProps.

Module SessionProps.
Import ResourceArchive WatcherSpec WatcherProps HandlerSpec HandlerProps.

Section Session.
Context `{Platform}.

Lemma advanced_refl (w : Watcher) : advanced w w.
Proof. split; [apply later_refl|]. by split. Qed.

Lemma advanced_trans (w1 w2 w3 : Watcher) :
  advanced w1 w2 -> advanced w2 w3 -> advanced w1 w3.
Proof.
  intros (Hl1 & Hd1 & Hp1) (Hl2 & Hd2 & Hp2).
  split; [by eapply later_trans|]. split; by etransitivity.
Qed.

Lemma advanced_record_failure url e (w : Watcher) : advanced w (record_failure url e w).
Proof.
  split; [apply later_record_failure|]. split.
  - rewrite record_failure_archive, dom_insert. set_solver.
  - rewrite record_failure_logger. by apply prefix_app_r.
Qed.

Lemma advanced_logger (w : Watcher) (l : list LogEntry) :
  advanced w (set_logger_field (logger w ++ l) w).
Proof. split; [by split|]. split; [done|]. by apply prefix_app_r. Qed.

Lemma advanced_archive (w : Watcher) url response :
  advanced w (set_archive_field (<[url := response]> (archive w)) w).
Proof.
  split; [by split|]. split; [|done]. simpl. rewrite dom_insert. set_solver.
Qed.

Lemma advanced_first (w : Watcher) (u : URL) :
  firstUrl w = None -> advanced w (set_firstUrl_field (Some u) w).
Proof. intros Hnone. split; [|by split]. split; [done|]. intros f. congruence. Qed.

Lemma advances_weaken (w0 w1 : Watcher) (r : Async unit) :
  advanced w0 w1 -> advances w1 r -> advances w0 r.
Proof. intros H01 Hr. destruct Hr; constructor; eauto using advanced_trans. Qed.

Lemma advances_clientSend {R} (w0 w : Watcher) (request : Request) (c : Command R)
      (f : option R -> M unit) :
  advanced w0 w ->
  (forall res w', advances w' (f res w')) ->
  advances w0 (bind (clientSend request c) f w).
Proof.
  intros Hw Hf.
  destruct (clientSend_bind request c f w) as (k & -> & Hok & Herr).
  constructor; [done|]. intros [v|e] w'.
  - rewrite Hok. apply Hf.
  - rewrite Herr. eapply advances_weaken; [apply advanced_record_failure|apply Hf].
Qed.

Lemma advances_continue (w0 w : Watcher) (request : Request) id flag :
  advanced w0 w ->
  advances w0 (bind (clientSend request (Fetch_continueRequest id flag)) (fun _ => ret tt) w).
Proof.
  intros Hw. apply advances_clientSend; [done|].
  intros _ w'. constructor. apply advanced_refl.
Qed.

Lemma requestPaused_advances (event : requestPausedPayload) (w : Watcher) :
  advances w (requestPaused event w).
Proof.
  destruct event as [id req code text reason headers]. unfold requestPaused.
  destruct (negb (method_matches_get (method req)));
    [apply advances_continue, advanced_refl|].
  destruct (is_status code 304); [apply advances_continue, advanced_refl|].
  unfold bind at 1, new_URL.
  destruct (URL_new (url req)) as [u|]; simpl; [|constructor; apply advanced_refl].
  unfold bind at 1.
  assert (exists w1 f, firstUrl_init u w = Return w1 tt /\ firstUrl w1 = Some f
                       /\ advanced w w1) as (w1 & f & -> & Hf1 & Hw1).
  { unfold firstUrl_init. destruct (firstUrl w) as [f|] eqn:Hf.
    - exists w, f. split; [done|]. split; [done|]. apply advanced_refl.
    - exists (set_firstUrl_field (Some u) w), u.
      split; [done|]. split; [done|]. by apply advanced_first. }
  simpl. unfold bind at 1, this_firstUrl. rewrite Hf1. simpl.
  unfold bind at 1, this_allowedArchiveOrigins. simpl.
  unfold bind at 1, logger_log. simpl.
  match goal with
  | |- context [set_logger_field (logger w1 ++ ?l) w1] =>
      assert (advanced w (set_logger_field (logger w1 ++ l) w1)) as Hw2
          by (eapply advanced_trans; [exact Hw1|apply advanced_logger]);
      set (w2 := set_logger_field (logger w1 ++ l) w1) in *
  end.
  set (allowed := String.eqb (origin u) (origin f)
                  || existsb (String.eqb (origin u)) (allowedArchiveOrigins w1)).
  clearbody w2 allowed.
  destruct (truthy_string reason).
  { unfold bind at 1, logger_log; simpl. apply advances_continue.
    eapply advanced_trans; [exact Hw2|]. apply advanced_logger. }
  destruct (truthy_number code); [|by apply advances_continue].
  destruct (is_redirect code); [by apply advances_continue|].
  apply advances_clientSend; [done|].
  intros [[b b64]|] w'; [|constructor; apply advanced_refl].
  destruct headers as [hs|]; [|constructor; apply advanced_refl].
  unfold bind at 1, ret at 1; simpl.
  unfold bind at 1, this_firstUrl.
  destruct (firstUrl w') as [f'|]; simpl; [|constructor; apply advanced_refl].
  destruct (allowed && negb (href u =? href f')).
  - unfold bind at 1, archive_set. simpl.
    apply advances_continue, advanced_archive.
  - unfold bind at 1, ret at 1. simpl. apply advances_continue, advanced_refl.
Qed.

Lemma advance_advances (event : requestPausedPayload) (s : Session) (r : Async unit) :
  Forall handler_advances (suspended s) ->
  advances (this s) r ->
  advanced (this s) (this (advance event s r))
  /\ Forall handler_advances (suspended (advance event s r)).
Proof.
  intros Hs Hr. destruct Hr as [w0 w a Hw|w0 w e Hw|R w0 w c k Hw Hk]; simpl.
  1,2: by split.
  split; [done|]. apply Forall_app; split; [done|]. by apply Forall_singleton.
Qed.

Lemma step_advances (s : Session) (e : Event) :
  Forall handler_advances (suspended s) ->
  advanced (this s) (this (step s e))
  /\ Forall handler_advances (suspended (step s e)).
Proof.
  intros Hs. destruct e as [event|i reply]; simpl.
  - apply advance_advances; [done|]. apply requestPaused_advances.
  - destruct (suspended s !! i) as [h|] eqn:Hi; [|split; [apply advanced_refl|done]].
    destruct (settled_of (awaited h) reply) as [r|]; [|split; [apply advanced_refl|done]].
    assert (handler_advances h) as Hh by (eapply Forall_lookup_1; eauto).
    apply (advance_advances (exchange h)
             {| this := this s; suspended := delete i (suspended s);
                sent := sent s; unhandled := unhandled s |}); simpl.
    + by apply Forall_delete.
    + apply Hh.
Qed.

Lemma run_advances (events : list Event) (s : Session) :
  Forall handler_advances (suspended s) ->
  advanced (this s) (this (run events s))
  /\ Forall handler_advances (suspended (run events s)).
Proof.
  revert s. induction events as [|e events IH]; intros s Hs.
  - split; [apply advanced_refl|done].
  - simpl. destruct (step_advances s e Hs) as [Hstep Hs'].
    destruct (IH _ Hs') as [Hrun Hs'']. split; [|done].
    by eapply advanced_trans.
Qed.

Lemma session_advances (allowedDomains : option (list string))
      (before after : list Event) :
  advanced (this (run before (start allowedDomains)))
           (this (run (before ++ after) (start allowedDomains))).
Proof.
  unfold run at 2. rewrite fold_left_app. fold (run before (start allowedDomains)).
  apply run_advances. apply run_advances. constructor.
Qed.

(** X8.  Once [firstUrl] is set it never changes, in whatever order events
    and settlements arrive afterwards, and the allowed origins stay what
    the constructor made them: the domains with https:// in front. *)
Theorem firstUrl_is_set_once
        (allowedDomains : option (list string)) (before after : list Event) (f : URL) :
  firstUrl (this (run before (start allowedDomains))) = Some f ->
  firstUrl (this (run (before ++ after) (start allowedDomains))) = Some f
  /\ allowedArchiveOrigins (this (run (before ++ after) (start allowedDomains)))
     = List.map (fun domain => "https://" +:+ domain) (default [] allowedDomains).
Proof.
  intros Hf.
  destruct (session_advances allowedDomains before after) as ([_ Hfirst] & _).
  split; [by apply Hfirst|].
  destruct (session_advances allowedDomains [] (before ++ after)) as ([Hallowed _] & _).
  exact Hallowed.
Qed.

(** X9.  The watcher only adds: no event and no settlement removes a key
    of the archive or a line of the log. *)
Theorem archive_keys_and_log_lines_stay
        (allowedDomains : option (list string)) (before after : list Event) :
  dom (archive (this (run before (start allowedDomains))))
  ⊆ dom (archive (this (run (before ++ after) (start allowedDomains))))
  /\ logger (this (run before (start allowedDomains)))
     `prefix_of` logger (this (run (before ++ after) (start allowedDomains))).
Proof. by destruct (session_advances allowedDomains before after) as (_ & ? & ?). Qed.

Lemma char_eq_lower (c p : ascii) :
  In p ["g"; "e"; "t"]%char -> RegExp.char_eq true p c = true -> lower c = p.
Proof.
  intros [<-|[<-|[<-|[]]]];
    destruct c as [[] [] [] [] [] [] [] []]; vm_compute; congruence.
Qed.

(** The pattern of the method test at the start of a text. *)
Lemma get_at_start (x : list ascii) :
  RegExp.exec_at true (RegExp.word "get") x <> None
  <-> exists c1 c2 c3 post,
      x = c1 :: c2 :: c3 :: post
      /\ lower c1 = "g"%char /\ lower c2 = "e"%char /\ lower c3 = "t"%char.
Proof.
  unfold RegExp.exec_at. split.
  - destruct x as [|c1 [|c2 [|c3 post]]]; simpl.
    + done.
    + by destruct (RegExp.char_eq true "g" c1).
    + destruct (RegExp.char_eq true "g" c1); [|done].
      by destruct (RegExp.char_eq true "e" c2).
    + destruct (RegExp.char_eq true "g" c1) eqn:H1; [|done].
      destruct (RegExp.char_eq true "e" c2) eqn:H2; [|done].
      destruct (RegExp.char_eq true "t" c3) eqn:H3; [|done].
      intros _. exists c1, c2, c3, post.
      repeat split; apply char_eq_lower; simpl; auto.
  - intros (c1 & c2 & c3 & post & -> & H1 & H2 & H3). simpl.
    rewrite (lower_char_eq c1 "g"), (lower_char_eq c2 "e"), (lower_char_eq c3 "t");
      simpl; auto.
Qed.

(** X10.  The method test [/get/i] is passed exactly by the methods that
    hold the letters g, e, t in a row, in either case, anywhere. *)
Theorem method_test_accepts_any_method_containing_get (method : string) :
  method_matches_get method = true
  <-> exists (pre : string) (c1 c2 c3 : ascii) (post : string),
      method = pre +:+ String c1 (String c2 (String c3 post))
      /\ lower c1 = "g"%char /\ lower c2 = "e"%char /\ lower c3 = "t"%char.
Proof.
  unfold method_matches_get, RegExp.test.
  induction method as [|c m IH].
  - split; [done|]. intros (pre & c1 & c2 & c3 & post & E & _).
    by destruct pre.
  - cbn [list_ascii_of_string RegExp.test_from].
    destruct (RegExp.exec_at true (RegExp.word "get") (c :: list_ascii_of_string m))
      as [res|] eqn:Hexec.
    + split; [intros _|done].
      destruct (proj1 (get_at_start (c :: list_ascii_of_string m)))
        as (c1 & c2 & c3 & post & E & H1 & H2 & H3); [by rewrite Hexec|].
      exists EmptyString, c1, c2, c3, (string_of_list_ascii post).
      repeat split; try done. injection E as -> Em.
      by rewrite <- (string_of_list_ascii_of_string m), Em.
    + rewrite IH. split.
      * intros (pre & c1 & c2 & c3 & post & -> & Hl).
        by exists (String c pre), c1, c2, c3, post.
      * intros (pre & c1 & c2 & c3 & post & E & H1 & H2 & H3).
        destruct pre as [|c0 pre].
        -- exfalso. simpl in E. injection E as -> ->.
           assert (RegExp.exec_at true (RegExp.word "get")
                     (c1 :: list_ascii_of_string (String c2 (String c3 post))) <> None)
             as Hne; [|exact (Hne Hexec)].
           apply get_at_start. exists c1, c2, c3, (list_ascii_of_string post). by simpl.
        -- simpl in E. injection E as -> ->. by exists pre, c1, c2, c3, post.
Qed.

End Session.
End SessionProps.

Module IdleMoreProps.
Import Idle IdleSpec.

Lemma start_consistent ms : consistent ms (start ms).
Proof. by repeat split. Qed.

Lemma step_consistent ms (s : State) (e : Event) :
  consistent ms s -> consistent ms (step s e).
Proof.
  destruct s as [timer p1 wait p2 r l], e as [|o]; unfold consistent; simpl.
  - destruct timer as [ms'| |]; simpl; try done.
    intros (-> & -> & _ & ->). by split.
  - destruct wait; simpl; try done.
    destruct timer as [ms'| |]; simpl.
    + intros (-> & -> & _ & ->). by destruct o.
    + by intros (_ & ? & _).
    + intros [Hr ->]. split; [|done]. by destruct r.
Qed.

Lemma run_consistent ms (events : list Event) (s : State) :
  consistent ms s -> consistent ms (run events s).
Proof.
  revert s. induction events as [|e events IH]; intros s Hs; [done|].
  simpl. by apply IH, step_consistent.
Qed.

Lemma step_after_decision ms (s : State) (e : Event) :
  consistent ms s -> race s <> pending ->
  race (step s e) = race s /\ logger (step s e) = logger s.
Proof.
  destruct s as [timer p1 wait p2 r l], e as [|o]; unfold consistent; simpl.
  - destruct timer as [ms'| |]; simpl; try done. by intros (_ & -> & _).
  - destruct wait; simpl; try done. intros _ Hr. by destruct r.
Qed.

(** X11.  Once the race in [idle] is decided, no later event changes its
    outcome or logs anything. *)
Theorem race_is_decided_once (networkTimeoutMs : Z) (before after : list Event) :
  race (run before (start networkTimeoutMs)) <> pending ->
  race (run (before ++ after) (start networkTimeoutMs))
  = race (run before (start networkTimeoutMs))
  /\ logger (run (before ++ after) (start networkTimeoutMs))
     = logger (run before (start networkTimeoutMs)).
Proof.
  unfold run at 2 4. rewrite fold_left_app. fold (run before (start networkTimeoutMs)).
  pose proof (run_consistent _ before _ (start_consistent networkTimeoutMs)) as Hs.
  generalize dependent (run before (start networkTimeoutMs)). intros s Hs Hr.
  revert s Hs Hr. induction after as [|e after IH]; intros s Hs Hr; [done|].
  simpl. destruct (step_after_decision _ s e Hs Hr) as [Er El].
  destruct (IH (step s e)) as [Er' El'].
  - by apply step_consistent.
  - by rewrite Er.
  - split; congruence.
Qed.

(** X12.  At every moment the log of [idle] holds the warning of the global
    timeout exactly once if the callback of the timer ran, and is empty
    otherwise. *)
Theorem warning_is_logged_exactly_when_the_timer_fired
        (networkTimeoutMs : Z) (events : list Event) :
  logger (run events (start networkTimeoutMs))
  = match globalNetworkTimerId (run events (start networkTimeoutMs)) with
    | fired => [warn_global_timeout networkTimeoutMs]
    | _ => []
    end.
Proof.
  pose proof (run_consistent _ events _ (start_consistent networkTimeoutMs)) as Hs.
  unfold consistent in Hs.
  destruct (globalNetworkTimerId (run events (start networkTimeoutMs)));
    [by destruct Hs as (? & ? & ? & ?)|by destruct Hs as (? & ? & ?)|by destruct Hs as [? ?]].
Qed.

(** X13.  If the wait for the load state rejects before the timer fires
    (after the delay [setTimeout] makes of [networkTimeoutMs]: the number
    itself from 1 to [TIMEOUT_MAX], 1 ms otherwise), [idle] throws that
    reason at that moment, the timer is cleared, nothing is logged, and
    nothing is left pending. *)
Theorem idle_throws_when_the_page_wait_fails_first
        (networkTimeoutMs : Z) (t : N) (reason : string) (timer_first : bool) :
  (t < timer_delay networkTimeoutMs)%N ->
  exists s,
    idle networkTimeoutMs (settles_at t (rejects reason)) timer_first
    = Some (throws reason, t, s)
    /\ globalNetworkTimerId s = cleared
    /\ logger s = []
    /\ pending_waits s = 0%nat.
Proof.
  intros Ht. unfold idle, timeline.
  assert ((t <? timer_delay networkTimeoutMs)%N = true) as -> by by apply N.ltb_lt.
  simpl. eexists. split; [reflexivity|]. by repeat split.
Qed.
End IdleMoreProps.

Module RewriterProps.
Import RegExp DOMSnapshot SnapshotSpec SnapshotProps CssSpec CssProps.

Lemma string_of_list_ascii_app (x y : list ascii) :
  string_of_list_ascii (x ++ y) = string_of_list_ascii x +:+ string_of_list_ascii y.
Proof. induction x as [|c x IH]; [done|]. simpl. by rewrite IH. Qed.

(** X14.  What [CSS_URL_REGEX] matches at the start of a text: exactly an
    opener url( in either case, an optional quote, a token without
    quotes and closing parentheses that does not start with the data
    scheme, an optional quote and a closing parenthesis; the one group
    that takes part is the second, with the token. *)
Theorem matches_of_CSS_URL_REGEX (x : list ascii) (res : result) :
  exec_at true CSS_URL_REGEX x = Some res
  <-> exists o,
      canonical o
      /\ x = text o ++ rest res
      /\ matched res = text o
      /\ groups res = [None; Some (token o)].
Proof.
  rewrite exec_at_css, css_match_find. split.
  - destruct (find_occurrence x) as [[o y]|] eqn:Hfind; [|done].
    intros [= <-]. destruct (find_occurrence_inv x o y Hfind) as [Hcan Hx].
    by exists o.
  - intros (o & Hcan & -> & Hm & Hg).
    rewrite (find_occurrence_intro o _ Hcan). destruct res as [m g r]. simpl in *.
    by subst.
Qed.

(** An occurrence whose token is not a key is left as it is. *)
Lemma replacer_unmapped sourceMap (o : occurrence) :
  sourceMap !! string_of_list_ascii (token o) = None ->
  replacer sourceMap (text o) [None; Some (token o)] = text o.
Proof. intros Hnone. unfold replacer. cbn [lookup list_lookup]. by rewrite Hnone. Qed.

(** X15.  On a text that starts with an occurrence whose token is not a
    key, or with any occurrence when the references of the source map are
    plain, [mapCssUrls] changes the token alone: the opener (with its
    case), the quotes and the parenthesis stay, and the rest of the text
    is rewritten on its own. *)
Theorem occurrence_keeps_opener_and_quotes
        (sourceMap : gmap string string) (o : occurrence) (y : list ascii) :
  canonical o ->
  sourceMap !! string_of_list_ascii (token o) = None
  \/ plain_references sourceMap = true ->
  mapCssUrls (string_of_list_ascii (text o ++ y)) sourceMap
  = string_of_list_ascii (text (with_token (rewrite_token sourceMap (token o)) o))
    +:+ mapCssUrls (string_of_list_ascii y) sourceMap.
Proof.
  intros Hcan Hsm. unfold mapCssUrls.
  rewrite !list_ascii_of_string_of_list_ascii.
  change (replace_regexp true CSS_URL_REGEX (replacer sourceMap))
    with (rewrite_css sourceMap).
  rewrite rewrite_css_step, (find_occurrence_intro o y Hcan).
  rewrite string_of_list_ascii_app. f_equal.
  destruct Hsm as [Hnone|Hplain].
  - rewrite replacer_unmapped by done. unfold rewrite_token. rewrite Hnone.
    by destruct o.
  - rewrite replacer_occurrence; [done..|apply Hcan].
Qed.

(** The scan passes a character at which no occurrence starts. *)
Lemma rewrite_css_cons sourceMap (c : ascii) (x : list ascii) :
  find_occurrence (c :: x) = None ->
  rewrite_css sourceMap (c :: x) = c :: rewrite_css sourceMap x.
Proof. intros Hnone. by rewrite rewrite_css_step, Hnone. Qed.

Lemma find_occurrence_close (x : list ascii) :
  find_occurrence x <> None -> ")"%char ∈ x.
Proof.
  destruct (find_occurrence x) as [[o y]|] eqn:Hfind; [|done]. intros _.
  destruct (find_occurrence_inv x o y Hfind) as [_ ->].
  unfold text. rewrite !elem_of_app. left. do 4 right. by apply list_elem_of_singleton.
Qed.

Lemma rewrite_css_without_close sourceMap (x : list ascii) :
  ")"%char ∉ x -> rewrite_css sourceMap x = x.
Proof.
  induction x as [|c x IH]; intros Hx; [by rewrite rewrite_css_step|].
  rewrite rewrite_css_cons.
  - rewrite IH; [done|]. intros Hin. apply Hx. by right.
  - destruct (find_occurrence (c :: x)) eqn:E; [|done].
    exfalso. apply Hx, find_occurrence_close. by rewrite E.
Qed.

(** X16.  A text without a closing parenthesis is returned as it is,
    whatever the source map holds. *)
Theorem text_without_closing_parenthesis_is_unchanged
        (cssText : string) (sourceMap : gmap string string) :
  ")"%char ∉ list_ascii_of_string cssText ->
  mapCssUrls cssText sourceMap = cssText.
Proof.
  intros Hx. unfold mapCssUrls.
  change (replace_regexp true CSS_URL_REGEX (replacer sourceMap))
    with (rewrite_css sourceMap).
  by rewrite rewrite_css_without_close, string_of_list_ascii_of_string.
Qed.

Lemma rewrite_css_empty (x : list ascii) : rewrite_css ∅ x = x.
Proof.
  remember (length x) as n eqn:Hn. revert x Hn.
  induction n as [n IH] using lt_wf_ind. intros x ->.
  rewrite rewrite_css_step.
  destruct (find_occurrence x) as [[o y]|] eqn:Hfind.
  - destruct (find_occurrence_inv x o y Hfind) as [[Hwf _] ->].
    rewrite replacer_unmapped by apply lookup_empty. f_equal.
    eapply IH; [|reflexivity]. pose proof (text_length o Hwf). rewrite length_app. lia.
  - destruct x as [|c x']; [done|]. f_equal. eapply IH; [|reflexivity]. simpl. lia.
Qed.

Lemma mapCssUrls_empty (cssText : string) : mapCssUrls cssText ∅ = cssText.
Proof.
  unfold mapCssUrls.
  change (replace_regexp true CSS_URL_REGEX (replacer ∅)) with (rewrite_css ∅).
  by rewrite rewrite_css_empty, string_of_list_ascii_of_string.
Qed.

Lemma map_css_attribute_empty name (attrs : gmap string string) :
  map_css_attribute name ∅ attrs = attrs.
Proof.
  unfold map_css_attribute. destruct (attrs !! name) as [v|] eqn:Hv; [|done].
  destruct (truthy v); [|done]. rewrite mapCssUrls_empty. by apply insert_id.
Qed.

(** X17.  With an empty source map, [mapNode] returns the tree it is
    given. *)
Theorem empty_source_map_changes_nothing (node : serializedNodeWithId) :
  mapNode node ∅ = node.
Proof.
  induction node as [i cs IH|i n p s|i tag attrs cs IH|i c st|i|i c] using node_induction.
  - simpl. f_equal. rewrite <- (List.map_id cs) at 2. apply List.map_ext_Forall.
    eapply Forall_impl; [exact IH|]. done.
  - done.
  - simpl. f_equal.
    + rewrite !map_css_attribute_empty. unfold map_src.
      destruct (attrs !! "src") as [v|]; [|done]. destruct (truthy v); [|done].
      by rewrite lookup_empty.
    + rewrite <- (List.map_id cs) at 2. apply List.map_ext_Forall.
      eapply Forall_impl; [exact IH|]. done.
  - destruct st; simpl; [|done]. destruct (truthy c); [|done].
    by rewrite mapCssUrls_empty.
  - done.
  - done.
Qed.

(** X18.  An element whose [src], [style] and [_cssText] are absent or
    empty is returned as it is, even if the empty string is a key of the
    source map: the tests are for truthy values. *)
Theorem empty_or_absent_attributes_are_left_alone
        (i : Z) (tag : string) (attrs : gmap string string)
        (cs : list serializedNodeWithId) (sourceMap : gmap string string) :
  (forall name, name ∈ ["src"; "style"; "_cssText"] ->
                attrs !! name = None \/ attrs !! name = Some EmptyString) ->
  mapNodeAttributes (Element i tag attrs cs) sourceMap = Element i tag attrs cs.
Proof.
  intros Hattrs. simpl. f_equal.
  assert (map_src sourceMap attrs = attrs) as ->.
  { unfold map_src. by destruct (Hattrs "src") as [->| ->]; [apply list_elem_of_here|..]. }
  assert (forall name, name ∈ ["style"; "_cssText"] ->
                       map_css_attribute name sourceMap attrs = attrs) as Hcss.
  { intros name Hname. unfold map_css_attribute.
    by destruct (Hattrs name) as [->| ->]; [apply list_elem_of_further|..]. }
  rewrite (Hcss "style") by apply list_elem_of_here.
  apply Hcss, list_elem_of_further, list_elem_of_here.
Qed.
End RewriterProps.

Module FreshTargets.
Import RegExp DOMSnapshot SnapshotSpec SnapshotProps SnapshotExamples CssSpec CssProps
       Idempotence RewriterSpec.

Lemma targets_fresh_lookup sourceMap k v :
  targets_fresh sourceMap = true -> sourceMap !! k = Some v ->
  sourceMap !! v = None /\ v <> EmptyString.
Proof.
  unfold targets_fresh. rewrite forallb_forall. intros Hall Hkv.
  specialize (Hall (k, v)). cbn [snd] in Hall.
  apply andb_true_iff in Hall as [Hnone Hne].
  - apply bool_decide_eq_true in Hnone. split; [done|].
    intros ->. by rewrite String.eqb_refl in Hne.
  - apply list_elem_of_In. by apply elem_of_map_to_list.
Qed.

Section Fresh.
Variable sourceMap : gmap string string.
Hypothesis Hfresh : targets_fresh sourceMap = true.
Hypothesis Hplain : plain_references sourceMap = true.

Lemma fresh_token_ok (t : list ascii) :
  forallb is_token_char t = true ->
  forallb is_token_char (rewrite_token sourceMap t) = true
  /\ (rewrite_token sourceMap t = [] -> t = [])
  /\ (starts_ci (str "data:") t = false ->
      starts_ci (str "data:") (rewrite_token sourceMap t) = false)
  /\ rewrite_token sourceMap (rewrite_token sourceMap t) = rewrite_token sourceMap t.
Proof.
  intros Ht. unfold rewrite_token.
  destruct (sourceMap !! string_of_list_ascii t) as [v|] eqn:Hv.
  - destruct (targets_fresh_lookup _ _ _ Hfresh Hv) as [Hvv Hne].
    destruct (plain_references_lookup _ _ _ Hplain Hv) as [_ Hval].
    apply andb_true_iff in Hval as [[Hchars _]%andb_true_iff Hdata].
    repeat split.
    + done.
    + intros E. by destruct v.
    + intros _. by apply negb_true_iff.
    + by rewrite string_of_list_ascii_of_string, Hvv.
  - repeat split; try done. by rewrite Hv.
Qed.

Lemma fresh_rewritten (x : list ascii) : rewritten x (rewrite_css sourceMap x).
Proof.
  remember (length x) as n eqn:Hn. revert x Hn.
  induction n as [n IH] using lt_wf_ind. intros x ->.
  rewrite rewrite_css_step.
  destruct (find_occurrence x) as [[o y]|] eqn:Hfind.
  - destruct (find_occurrence_inv x o y Hfind) as [[Hwf _] ->].
    rewrite replacer_occurrence by done.
    destruct Hwf as (H4 & Hurl & Hq1 & Hq2 & Htok).
    destruct (fresh_token_ok (token o) Htok) as (Ht' & Hempty & _).
    apply rewritten_occurrence; [by repeat split|done..|].
    eapply IH; [|reflexivity].
    rewrite length_app. unfold text. rewrite !length_app, H4. lia.
  - destruct x as [|c x']; constructor. eapply IH; [|reflexivity]. simpl. lia.
Qed.

Lemma fresh_rewrite_css_idempotent (x : list ascii) :
  rewrite_css sourceMap (rewrite_css sourceMap x) = rewrite_css sourceMap x.
Proof.
  remember (length x) as n eqn:Hn. revert x Hn.
  induction n as [n IH] using lt_wf_ind. intros x ->.
  rewrite (rewrite_css_step sourceMap x).
  destruct (find_occurrence x) as [[o y]|] eqn:Hfind.
  - destruct (find_occurrence_inv x o y Hfind) as [(Hwf & Hdata & Hopen) ->].
    rewrite replacer_occurrence by done.
    pose proof Hwf as (H4 & Hurl & Hq1 & Hq2 & Htok).
    destruct (fresh_token_ok (token o) Htok) as (Ht' & Hempty & Hdata' & Hidem).
    set (o' := with_token (rewrite_token sourceMap (token o)) o).
    assert (canonical o') as Hcan.
    { split; [by apply well_formed_with_token|]. split; [by apply Hdata'|].
      cbn [o' with_token open_quote token close_quote].
      intros Ho Ht. by apply Hopen, Hempty. }
    rewrite rewrite_css_step, (find_occurrence_intro o' _ Hcan).
    rewrite replacer_occurrence by (done || apply Hcan).
    cbn [o' with_token opener open_quote token close_quote]. rewrite Hidem.
    f_equal. eapply IH; [|reflexivity].
    rewrite length_app. unfold text. rewrite !length_app, H4. lia.
  - destruct x as [|c x']; [done|].
    rewrite rewrite_css_step.
    assert (find_occurrence (c :: rewrite_css sourceMap x') = None) as ->.
    { destruct (find_occurrence (c :: rewrite_css sourceMap x')) eqn:E; [|done].
      pose proof (rewritten_occurs c x' _ (fresh_rewritten x')) as Hocc.
      rewrite !occurs_spec, E, Hfind in Hocc. by specialize (Hocc eq_refl). }
    f_equal. eapply IH; [|reflexivity]. simpl. lia.
Qed.

Lemma fresh_mapCssUrls_idempotent (cssText : string) :
  mapCssUrls (mapCssUrls cssText sourceMap) sourceMap = mapCssUrls cssText sourceMap.
Proof.
  unfold mapCssUrls.
  change (replace_regexp true CSS_URL_REGEX (replacer sourceMap))
    with (rewrite_css sourceMap).
  by rewrite list_ascii_of_string_of_list_ascii, fresh_rewrite_css_idempotent.
Qed.

Lemma fresh_map_reference_idempotent (v : string) :
  map_reference sourceMap (map_reference sourceMap v) = map_reference sourceMap v.
Proof.
  unfold map_reference. destruct (sourceMap !! v) as [w|] eqn:Hv; simpl.
  - by destruct (targets_fresh_lookup _ _ _ Hfresh Hv) as [-> _].
  - by rewrite Hv.
Qed.

Lemma fresh_attributes_idempotent (attrs : gmap string string) :
  let pass a := map_css_attribute "_cssText" sourceMap
                  (map_css_attribute "style" sourceMap (map_src sourceMap a)) in
  pass (pass attrs) = pass attrs.
Proof.
  intros pass. subst pass. cbv beta.
  rewrite !map_src_update, !map_css_attribute_update.
  set (A1 := update_attribute "src" (map_reference sourceMap)).
  set (A2 := update_attribute "style" (fun v => mapCssUrls v sourceMap)).
  set (A3 := update_attribute "_cssText" (fun v => mapCssUrls v sourceMap)).
  assert (forall a, A1 (A1 a) = A1 a) as H11
      by (intros a; apply update_attribute_idempotent, fresh_map_reference_idempotent).
  assert (forall a, A2 (A2 a) = A2 a) as H22
      by (intros a; apply update_attribute_idempotent; intros v;
          by apply fresh_mapCssUrls_idempotent).
  assert (forall a, A3 (A3 a) = A3 a) as H33
      by (intros a; apply update_attribute_idempotent; intros v;
          by apply fresh_mapCssUrls_idempotent).
  assert (forall a, A1 (A2 a) = A2 (A1 a)) as H12
      by (intros a; by apply update_attribute_comm).
  assert (forall a, A1 (A3 a) = A3 (A1 a)) as H13
      by (intros a; by apply update_attribute_comm).
  assert (forall a, A2 (A3 a) = A3 (A2 a)) as H23
      by (intros a; by apply update_attribute_comm).
  by rewrite H13, H12, H11, H23, H22, H33.
Qed.

(** X19.  If no mapped value is a key or empty, and the references are
    plain, rewriting a rewritten tree changes nothing. *)
Theorem second_rewrite_changes_nothing_when_targets_are_fresh
        (node : serializedNodeWithId) :
  mapNode (mapNode node sourceMap) sourceMap = mapNode node sourceMap.
Proof.
  induction node as [i cs IH|i n p s|i tag attrs cs IH|i c st|i|i c] using node_induction.
  - simpl. f_equal. rewrite List.map_map. apply List.map_ext_Forall.
    eapply Forall_impl; [exact IH|]. done.
  - done.
  - simpl. f_equal.
    + apply fresh_attributes_idempotent.
    + rewrite List.map_map. apply List.map_ext_Forall.
      eapply Forall_impl; [exact IH|]. done.
  - destruct st; simpl; [|done].
    destruct (truthy c) eqn:Hc; simpl; [|by rewrite Hc].
    destruct (truthy (mapCssUrls c sourceMap)); [|done].
    by rewrite fresh_mapCssUrls_idempotent.
  - done.
  - done.
Qed.
End Fresh.

End FreshTargets.

Module WriteArchiveProps.
Import ResourceArchive WriteArchive.

Section SourceMap.
Context `{Platform}.
Variable originalSrc : UrlString -> ArchiveResponse -> string -> string.
Variable toFileSystemPath : UrlString -> ArchiveResponse -> string -> string.
Variable pageUrl : string.

Let add := add_entry originalSrc toFileSystemPath pageUrl.

Lemma add_entry_lookup sm entry k :
  add sm entry !! k
  = if bool_decide (has_error (snd entry) = false
                    /\ originalSrc (fst entry) (snd entry) pageUrl = k
                    /\ toFileSystemPath (fst entry) (snd entry) pageUrl <> k)
    then Some (toFileSystemPath (fst entry) (snd entry) pageUrl)
    else sm !! k.
Proof.
  destruct entry as [url response]. unfold add, add_entry. cbn [fst snd].
  destruct (has_error response).
  { rewrite bool_decide_eq_false_2; [done|]. by intros [? _]. }
  destruct (String.eqb_spec (originalSrc url response pageUrl)
                            (toFileSystemPath url response pageUrl)) as [Heq|Hne];
    cbn [negb].
  - rewrite bool_decide_eq_false_2; [done|]. intros (_ & Hk & Hv). congruence.
  - destruct (decide (originalSrc url response pageUrl = k)) as [Hk|Hk].
    + rewrite bool_decide_eq_true_2 by (split; [done|split; congruence]).
      rewrite <- Hk. apply lookup_insert_eq.
    + rewrite bool_decide_eq_false_2 by (intros (_ & ? & _); done).
      by apply lookup_insert_ne.
Qed.

Lemma sourceMap_snoc entries entry :
  sourceMap originalSrc toFileSystemPath pageUrl (entries ++ [entry])
  = add (sourceMap originalSrc toFileSystemPath pageUrl entries) entry.
Proof. unfold sourceMap. by rewrite fold_left_app. Qed.

(** X20.  The source map that [writeTestResult] builds maps [k] to [v]
    exactly if some entry without error has the original path [k] and the
    different file system path [v], and every later entry without error
    and with original path [k] has the file system path [k] (and so sets
    nothing).  In particular no key is mapped to itself, and entries with
    an error add nothing. *)
Theorem sourceMap_holds_the_last_changed_path
        (entries : list (UrlString * ArchiveResponse)) (k v : string) :
  sourceMap originalSrc toFileSystemPath pageUrl entries !! k = Some v
  <-> exists before url response after,
      entries = before ++ (url, response) :: after
      /\ has_error response = false
      /\ originalSrc url response pageUrl = k
      /\ toFileSystemPath url response pageUrl = v
      /\ v <> k
      /\ Forall (fun entry =>
                   has_error (snd entry) = false ->
                   originalSrc (fst entry) (snd entry) pageUrl = k ->
                   toFileSystemPath (fst entry) (snd entry) pageUrl = k) after.
Proof.
  induction entries as [|entry entries IH] using rev_ind.
  - split; [by unfold sourceMap; cbn [fold_left]; rewrite lookup_empty|].
    intros (before & url & response & after & Heq & _). by destruct before.
  - rewrite sourceMap_snoc, add_entry_lookup. case_bool_decide as Hentry.
    + destruct Hentry as (Herr & Hk & Hv). split.
      * intros [= <-]. exists entries, (fst entry), (snd entry), [].
        destruct entry. by repeat split.
      * intros (before & url & response & after & Heq & Herr' & Hk' & Hv' & Hne & Hafter).
        destruct after as [|e after _] using rev_ind.
        { apply app_inj_tail in Heq as [_ ->]. cbn [fst snd]. by rewrite Hv'. }
        rewrite app_comm_cons, app_assoc in Heq. apply app_inj_tail in Heq as [_ ->].
        apply Forall_app in Hafter as [_ He]. apply Forall_inv in He.
        by destruct Hv; apply He.
    + rewrite IH. split.
      * intros (before & url & response & after & -> & Herr & Hk & Hv & Hne & Hafter).
        exists before, url, response, (after ++ [entry]).
        rewrite <- app_assoc. repeat split; try done.
        apply Forall_app. split; [done|]. apply Forall_cons. split; [|done].
        intros Herr' Hk'. destruct (decide (toFileSystemPath entry.1 entry.2 pageUrl = k)); [done|].
        by destruct Hentry.
      * intros (before & url & response & after & Heq & Herr & Hk & Hv & Hne & Hafter).
        destruct after as [|e after _] using rev_ind.
        { apply app_inj_tail in Heq as [_ ->]. destruct Hentry.
          cbn [fst snd]. repeat split; congruence. }
        rewrite app_comm_cons, app_assoc in Heq. apply app_inj_tail in Heq as [-> ->].
        apply Forall_app in Hafter as [Hafter _].
        by exists before, url, response, after.
Qed.

End SourceMap.
End WriteArchiveProps.

Module MoreExampleProps.
Import RegExp DOMSnapshot ResourceArchive WatcherSpec WatcherExamples SnapshotExamples
       CssSpec HandlerSpec HandlerProps SessionProps RewriterSpec RewriterProps
       FreshTargets MoreExamples.
#[local] Existing Instance example_platform.

(** The conditions of [request_stage_asks_for_response] are met by a
    script at the request stage. *)
Lemma script_at_request_stage :
  (method_matches_get (method (request script)) = true
   /\ truthy_number (responseStatusCode script) = false
   /\ is_status (responseStatusCode script) 304 = false
   /\ truthy_string (responseErrorReason script) = false
   /\ URL_new (url (request script)) = Some script_url)
  /\ exists k,
      requestPaused script (new_Watcher None)
      = Await (classified script script_url (new_Watcher None))
              (Fetch_continueRequest (requestId script) true) k
      /\ (forall v w', k (Fulfilled v) w' = Return w' tt)
      /\ (forall e w',
            k (Rejected e) w' = Return (record_failure (url (request script)) e w') tt).
Proof.
  split; [repeat split|].
  apply (request_stage_asks_for_response script (new_Watcher None) script_url);
    reflexivity.
Defined.

(** The conditions of [not_modified_is_continued_untouched] are met by
    a response with status 304. *)
Lemma not_modified_script :
  (method_matches_get (method (request not_modified)) = true
   /\ is_status (responseStatusCode not_modified) 304 = true)
  /\ exists k,
      requestPaused not_modified (new_Watcher None)
      = Await (new_Watcher None) (Fetch_continueRequest (requestId not_modified) false) k
      /\ (forall v w', k (Fulfilled v) w' = Return w' tt)
      /\ (forall e w',
            k (Rejected e) w'
            = Return (record_failure (url (request not_modified)) e w') tt).
Proof.
  split; [repeat split|].
  apply (not_modified_is_continued_untouched not_modified (new_Watcher None));
    reflexivity.
Defined.

(** The conditions of [error_response_is_logged_and_continued] are met
    by a refused connection. *)
Lemma refused_script :
  (method_matches_get (method (request refused)) = true
   /\ is_status (responseStatusCode refused) 304 = false
   /\ responseErrorReason refused = Some "ConnectionRefused"
   /\ "ConnectionRefused" <> EmptyString
   /\ URL_new (url (request refused)) = Some script_url)
  /\ exists k,
      requestPaused refused (new_Watcher None)
      = Await (set_logger_field
                 (logger (classified refused script_url (new_Watcher None))
                  ++ [log_response_error "ConnectionRefused"])
                 (classified refused script_url (new_Watcher None)))
              (Fetch_continueRequest (requestId refused) false) k
      /\ (forall v w', k (Fulfilled v) w' = Return w' tt)
      /\ (forall e w',
            k (Rejected e) w' = Return (record_failure (url (request refused)) e w') tt).
Proof.
  split; [repeat split; discriminate|].
  apply (error_response_is_logged_and_continued refused (new_Watcher None) script_url
           "ConnectionRefused"); reflexivity || discriminate.
Defined.

(** The conditions of [final_response_is_captured_if_eligible] are met
    by the logo, requested after the page. *)
Lemma logo_at_response_stage :
  (method_matches_get (method (request logo)) = true
   /\ truthy_number (responseStatusCode logo) = true
   /\ is_status (responseStatusCode logo) 304 = false
   /\ is_redirect (responseStatusCode logo) = false
   /\ truthy_string (responseErrorReason logo) = false
   /\ URL_new (url (request logo)) = Some logo_url
   /\ responseHeaders logo = Some [{| name := "Content-Type"; value := "image/png" |}])
  /\ let w := this (run [event_requestPaused page] (start None)) in
     let hs := [{| name := "Content-Type"; value := "image/png" |}] in
     exists k,
       requestPaused logo w
       = Await (classified logo logo_url w) (Fetch_getResponseBody (requestId logo)) k
       /\ (forall e w',
             k (Rejected e) w' = Return (record_failure (url (request logo)) e w') tt)
       /\ (forall b w' first,
             firstUrl w' = Some first ->
             exists k',
               k (Fulfilled b) w'
               = Await (if from_allowed_domain w logo_url (default logo_url (firstUrl w))
                           && negb (String.eqb (href logo_url) (href first))
                        then set_archive_field
                               (<[url (request logo) := captured_response logo hs b]>
                                  (archive w')) w'
                        else w')
                       (Fetch_continueRequest (requestId logo) false) k'
               /\ (forall v w'', k' (Fulfilled v) w'' = Return w'' tt)
               /\ (forall e w'',
                     k' (Rejected e) w''
                     = Return (record_failure (url (request logo)) e w'') tt)).
Proof.
  split; [repeat split|].
  apply (final_response_is_captured_if_eligible
           logo (this (run [event_requestPaused page] (start None))) logo_url
           [{| name := "Content-Type"; value := "image/png" |}]); reflexivity.
Defined.

(** The conditions of [first_get_event_sets_firstUrl] are met by the
    first event of a session. *)
Lemma script_sets_firstUrl :
  (method_matches_get (method (request script)) = true
   /\ is_status (responseStatusCode script) 304 = false
   /\ URL_new (url (request script)) = Some script_url)
  /\ exists (R : Type) (w1 : Watcher) (c : Command R) k,
      requestPaused script (new_Watcher None) = Await w1 c k
      /\ firstUrl w1 = Some (default script_url (firstUrl (new_Watcher None)))
      /\ archive w1 = archive (new_Watcher None)
      /\ allowedArchiveOrigins w1 = allowedArchiveOrigins (new_Watcher None).
Proof.
  split; [repeat split|].
  apply (first_get_event_sets_firstUrl script (new_Watcher None) script_url); reflexivity.
Defined.

(** The conditions of [invalid_url_throws_before_any_command] are met
    by a URL without scheme. *)
Lemma relative_url_throws :
  (method_matches_get (method (request relative)) = true
   /\ is_status (responseStatusCode relative) 304 = false
   /\ URL_new (url (request relative)) = None)
  /\ step (start None) (event_requestPaused relative)
     = {| this := this (start None); suspended := suspended (start None);
          sent := sent (start None);
          unhandled := unhandled (start None) ++ [TypeError "Invalid URL"] |}.
Proof.
  split; [repeat split|].
  apply (invalid_url_throws_before_any_command relative (start None)); reflexivity.
Defined.

(** The conditions of [exchange_is_continued_exactly_once] are met by
    the logo. *)
Lemma logo_is_continued_once :
  (URL_new (url (request logo)) = Some logo_url
   /\ responseHeaders logo = Some [{| name := "Content-Type"; value := "image/png" |}])
  /\ commands_when_fulfilled png (requestPaused logo (new_Watcher None))
     = (if negb (method_matches_get (method (request logo)))
           || is_status (responseStatusCode logo) 304
           || truthy_string (responseErrorReason logo)
        then [any_command (Fetch_continueRequest (requestId logo) false)]
        else if truthy_number (responseStatusCode logo) then
          if is_redirect (responseStatusCode logo)
          then [any_command (Fetch_continueRequest (requestId logo) true)]
          else [any_command (Fetch_getResponseBody (requestId logo));
                any_command (Fetch_continueRequest (requestId logo) false)]
        else [any_command (Fetch_continueRequest (requestId logo) true)],
        None).
Proof.
  split; [repeat split|].
  apply (exchange_is_continued_exactly_once
           logo (new_Watcher None) logo_url
           [{| name := "Content-Type"; value := "image/png" |}] png); reflexivity.
Defined.

(** The condition of [firstUrl_is_set_once] is met after the page was
    requested. *)
Lemma page_stays_first :
  firstUrl (this (run [event_requestPaused page] (start None))) = Some page_url
  /\ firstUrl (this (run ([event_requestPaused page] ++ page_then_logo) (start None)))
     = Some page_url
  /\ allowedArchiveOrigins
       (this (run ([event_requestPaused page] ++ page_then_logo) (start None)))
     = List.map (fun domain => "https://" +:+ domain) (default [] None).
Proof.
  split; [reflexivity|].
  apply (firstUrl_is_set_once None [event_requestPaused page] page_then_logo page_url).
  reflexivity.
Defined.

(** The conditions of [occurrence_keeps_opener_and_quotes] are met by
    a quoted reference. *)
Lemma quoted_reference_keeps_its_quotes :
  (canonical quoted
   /\ (written !! string_of_list_ascii (token quoted) = None
       \/ plain_references written = true))
  /\ mapCssUrls (string_of_list_ascii (text quoted ++ str "; color: red")) written
     = string_of_list_ascii
         (text (with_token (rewrite_token written (token quoted)) quoted))
       +:+ mapCssUrls (string_of_list_ascii (str "; color: red")) written.
Proof.
  assert (canonical quoted) as Hcan
      by (repeat split; (vm_compute; reflexivity) || discriminate).
  split; [split; [exact Hcan|right; vm_compute; reflexivity]|].
  apply (occurrence_keeps_opener_and_quotes written quoted (str "; color: red") Hcan).
  right. vm_compute. reflexivity.
Defined.

(** The condition of [text_without_closing_parenthesis_is_unchanged]
    is met by a rule without reference. *)
Lemma plain_rule_is_unchanged :
  (")"%char ∉ list_ascii_of_string "color: red")
  /\ mapCssUrls "color: red" written = "color: red".
Proof.
  assert (")"%char ∉ list_ascii_of_string "color: red") as Hnot
      by (apply (bool_decide_unpack _); vm_compute; exact I).
  split; [exact Hnot|].
  apply (text_without_closing_parenthesis_is_unchanged "color: red" written Hnot).
Defined.

(** The condition of [empty_or_absent_attributes_are_left_alone] is met
    by an image with an empty address. *)
Lemma bare_image_is_unchanged :
  (forall name, name ∈ ["src"; "style"; "_cssText"] ->
                bare !! name = None \/ bare !! name = Some EmptyString)
  /\ mapNodeAttributes (Element 3 "img" bare []) (<[EmptyString := "./archive/index"]> written)
     = Element 3 "img" bare [].
Proof.
  assert (forall name, name ∈ ["src"; "style"; "_cssText"] ->
                       bare !! name = None \/ bare !! name = Some EmptyString) as Hbare.
  { intros name Hname.
    repeat (apply elem_of_cons in Hname as [->|Hname]);
      [right; reflexivity|left; reflexivity|left; reflexivity|by apply elem_of_nil in Hname]. }
  split; [exact Hbare|].
  apply (empty_or_absent_attributes_are_left_alone 3 "img" bare [] _ Hbare).
Defined.

(** The conditions of
    [second_rewrite_changes_nothing_when_targets_are_fresh] are met by
    the source map [written]. *)
Lemma sample_is_rewritten_once :
  (targets_fresh written = true /\ plain_references written = true)
  /\ mapNode (mapNode sample written) written = mapNode sample written.
Proof.
  split; [split; vm_compute; reflexivity|].
  apply (second_rewrite_changes_nothing_when_targets_are_fresh written);
    vm_compute; reflexivity.
Defined.
End MoreExampleProps.

Module IdleExampleProps.
Import Idle IdleMoreProps.

(** The condition of [race_is_decided_once] is met once the load state
    has settled. *)
Lemma late_timer_changes_nothing :
  race (run [load_state_settles resolves] (start 1000)) <> pending
  /\ race (run ([load_state_settles resolves] ++ [timer_fires]) (start 1000))
     = race (run [load_state_settles resolves] (start 1000))
  /\ logger (run ([load_state_settles resolves] ++ [timer_fires]) (start 1000))
     = logger (run [load_state_settles resolves] (start 1000)).
Proof.
  split; [discriminate|].
  apply (race_is_decided_once 1000 [load_state_settles resolves] [timer_fires]).
  discriminate.
Defined.

(** The condition of [idle_throws_when_the_page_wait_fails_first] is
    met by a page that closes after 10 ms. *)
Lemma closed_page_throws :
  (10 < timer_delay 1000)%N
  /\ exists s,
      idle 1000 (settles_at 10 (rejects "Target closed")) true
      = Some (throws "Target closed", 10%N, s)
      /\ globalNetworkTimerId s = cleared
      /\ logger s = []
      /\ pending_waits s = 0%nat.
Proof.
  split; [reflexivity|].
  apply (idle_throws_when_the_page_wait_fails_first 1000 10 "Target closed" true).
  reflexivity.
Defined.
End IdleExampleProps.

